(** * Reader service: browser pool and launch, snapshot pipeline, page
      script, nightly cruncher, Markdown expansion, interrogator and its
      tool registry

    A shallow embedding of the TypeScript sources

      - [backend/functions/src/utils/pdf.ts]            (PuppeteerControl:
        pagePool, init, newPage, scrap)
      - [backend/functions/src/cloud-functions/fixer.ts] (InterrogatorHost,
        last revision: interrogate, chatWithReader with the turn loop,
        expandMarkdown)
      - [backend/functions/src/cloud-functions/data-crunching.ts]
        (DataCrunchingHost)
      - [backend/functions/src/cloud-functions/llm-tools.ts]
        (getFunctionsCallingDescriptors, getPromptMixin)

    Asynchronous code is modelled by explicit state passing over a
    timeline of the events the JavaScript event loop delivers; external
    collaborators (the LLM, the JSON parser stream, dayjs, the WHATWG URL
    parser, Firestore, the tool registry) are parameters. *)

From Stdlib Require Import ZArith QArith Qround List Bool Lia Lqa String Ascii.
From Stdlib Require Import Numbers.DecimalString Numbers.DecimalZ.
From stdpp Require Import base option list gmap strings.

Import ListNotations.
Local Open Scope Z_scope.

(* ===================================================================== *)
(** * 1. Browser pool ([PuppeteerControl.pagePool]) *)
(* ===================================================================== *)

Module Pool.

(** [os.freemem()] is a non-negative integer number of bytes.  The
    options object of [genericPool.createPool] is

      { max: 1 + Math.floor(os.freemem() / 1024 * 1024 * 1024), min: 1 }

    [/] and [*] associate to the left in JavaScript, so the operand of
    [Math.floor] is [((freemem / 1024) * 1024) * 1024].  Scaling a double
    by a power of two is exact, hence rational arithmetic computes the
    very same number; the final [1 +] is exact too as long as the
    product stays below 2^53, that is for less than 8 TiB of free
    memory. *)
Definition pagePool_max (freemem : Z) : Z :=
  1 + Qfloor (inject_Z freemem / 1024 * 1024 * 1024)%Q.

Definition pagePool_min : Z := 1.

(** What the specification asks for: one plus the number of whole GiB. *)
Definition bytesPerGiB : Z := 1024 * 1024 * 1024.

Definition spec_pool_max (freemem : Z) : Z :=
  1 + Qfloor (inject_Z freemem / inject_Z bytesPerGiB)%Q.

(** The expression in the source multiplies the number of free bytes by
    1024 instead of dividing it by 2^30. *)
Lemma pagePool_max_eq (freemem : Z) : pagePool_max freemem = 1 + freemem * 1024.
Proof.
  unfold pagePool_max. f_equal.
  rewrite <- (Qfloor_Z (freemem * 1024)). apply Qfloor_comp.
  rewrite inject_Z_mult. field.
Qed.

Lemma spec_pool_max_eq (freemem : Z) :
  spec_pool_max freemem = 1 + freemem / bytesPerGiB.
Proof.
  unfold spec_pool_max. f_equal. unfold Qfloor, Qdiv, Qinv, Qmult, inject_Z.
  simpl. now rewrite Z.mul_1_r.
Qed.

(** C2, the code at a concrete input.  With 8 GiB of free memory the
    pool is created with [max] = 8 796 093 022 209, whereas one plus the
    number of free GiB is 9; more generally [max] exceeds the stated
    bound as soon as a single byte is free. *)
Theorem pagePool_max_is_not_free_GiB_plus_one :
  pagePool_max 8589934592 = 8796093022209
  /\ spec_pool_max 8589934592 = 9
  /\ pagePool_min = 1
  /\ forall freemem, 0 < freemem -> spec_pool_max freemem < pagePool_max freemem.
Proof.
  split; [ reflexivity | ]. split; [ reflexivity | ]. split; [ reflexivity | ].
  intros freemem Hpos. rewrite pagePool_max_eq, spec_pool_max_eq.
  unfold bytesPerGiB.
  assert (freemem / (1024 * 1024 * 1024) <= freemem)
    by (apply Z.div_le_upper_bound; lia).
  lia.
Qed.

Lemma pagePool_max_is_not_free_GiB_plus_one_witness :
  spec_pool_max 1 < pagePool_max 1.
Proof.
  apply (proj2 (proj2 (proj2 pagePool_max_is_not_free_GiB_plus_one))). lia.
Defined.

End Pool.

(* ===================================================================== *)
(** * 2. Browser launch ([PuppeteerControl.init]) *)
(* ===================================================================== *)

Module Control.

(** [status: 'init' | 'crippled' | 'ready'] *)
Inductive Status : Type :=
| StInit
| StCrippled
| StReady.

(** The [await] a call of [init()] is suspended at. *)
Inductive InitPc : Type :=
| AwaitClose      (* await this.browser.close() *)
| AwaitLaunch.    (* await puppeteer.launch(...) *)

(** Browsers and calls are named by numbers. *)
Record Ctl : Type := mkCtl {
  status : Status;
  browser : option nat;          (* this.browser *)
  calls : gmap nat InitPc;       (* the calls of init() in progress *)
  launched : list nat;           (* what puppeteer.launch has resolved with *)
  closed : list nat;             (* the browsers init() has called close() on *)
  watched : list nat             (* browsers with a pending once('disconnected') *)
}.

Definition newControl : Ctl := mkCtl StInit None ∅ [] [] [].

Inductive CtlEvent : Type :=
| InitCalled (c : nat)              (* init() is called *)
| CloseResolved (c : nat)           (* the close() awaited by call c resolves *)
| LaunchResolved (c : nat) (b : nat)(* the launch awaited by call c resolves with b *)
| CallRejected (c : nat)            (* the promise awaited by call c is rejected *)
| Disconnected (b : nat).           (* browser b emits 'disconnected' *)

Definition setCalls (m : gmap nat InitPc) (st : Ctl) : Ctl :=
  mkCtl (status st) (browser st) m (launched st) (closed st) (watched st).

Definition step (st : Ctl) (ev : CtlEvent) : Ctl :=
  match ev with
  | InitCalled c =>
      match status st with
      | StReady => st                                   (* return *)
      | _ =>
          match browser st with
          | Some b =>                                   (* await this.browser.close() *)
              mkCtl (status st) (browser st) (<[c := AwaitClose]> (calls st))
                    (launched st) (closed st ++ [b]) (watched st)
          | None => setCalls (<[c := AwaitLaunch]> (calls st)) st
          end
      end
  | CloseResolved c =>
      match calls st !! c with
      | Some AwaitClose => setCalls (<[c := AwaitLaunch]> (calls st)) st
      | _ => st
      end
  | LaunchResolved c b =>
      match calls st !! c with
      | Some AwaitLaunch =>
          (* this.browser = b; b.once('disconnected', ...); this.emit('ready') *)
          mkCtl StReady (Some b) (delete c (calls st)) (launched st ++ [b])
                (closed st) (watched st ++ [b])
      | _ => st
      end
  | CallRejected c => setCalls (delete c (calls st)) st
  | Disconnected b =>
      if bool_decide (b ∈ watched st) then
        (* this.emit('crippled') *)
        mkCtl StCrippled (browser st) (calls st) (launched st) (closed st)
              (List.filter (fun x => negb (Nat.eqb x b)) (watched st))
      else st
  end.

Definition run_from (st : Ctl) (events : list CtlEvent) : Ctl :=
  fold_left step events st.

Definition run (events : list CtlEvent) : Ctl := run_from newControl events.

(** No call of [init()] starts while another one is in progress. *)
Fixpoint oneAtATime (st : Ctl) (events : list CtlEvent) : bool :=
  match events with
  | [] => true
  | ev :: rest =>
      match ev with
      | InitCalled _ => bool_decide (calls st = ∅)
      | _ => true
      end && oneAtATime (step st ev) rest
  end.

(** A browser that was launched, is not [this.browser] and has not
    been closed. *)
Definition leaked (st : Ctl) (b : nat) : Prop :=
  b ∈ launched st /\ (b ∉ closed st) /\ browser st <> Some b.

Definition launches (b : nat) (ev : CtlEvent) : bool :=
  match ev with
  | LaunchResolved _ b' => Nat.eqb b b'
  | _ => false
  end.

(** Kept by calls that do not overlap. *)
Definition tidy (st : Ctl) : Prop :=
  (calls st = ∅ \/ exists c pc, calls st = {[ c := pc ]})
  /\ (forall b, b ∈ launched st -> b ∈ closed st \/ browser st = Some b)
  /\ (calls st <> ∅ -> forall b, browser st = Some b -> b ∈ closed st).

Lemma ctl_run_from_app (st : Ctl) (l1 l2 : list CtlEvent) :
  run_from st (l1 ++ l2) = run_from (run_from st l1) l2.
Proof. unfold run_from. apply fold_left_app. Qed.

(** [init()] closes no browser but [this.browser]. *)
Lemma step_closed (st : Ctl) (ev : CtlEvent) (b : nat) :
  b ∈ closed (step st ev) -> b ∈ closed st \/ browser st = Some b.
Proof.
  destruct ev as [c | c | c b' | c | b']; cbn [step].
  - destruct (status st); try (now left);
      (destruct (browser st) as [b0|]; cbn; [ | now left ]);
      intros H; apply elem_of_app in H as [H | H]; auto;
      apply list_elem_of_singleton in H; subst; now right.
  - destruct (calls st !! c) as [[|]|]; now left.
  - destruct (calls st !! c) as [[|]|]; now left.
  - now left.
  - destruct (bool_decide _); now left.
Qed.

Lemma step_leaked (st : Ctl) (ev : CtlEvent) (b : nat) :
  launches b ev = false -> leaked st b -> leaked (step st ev) b.
Proof.
  intros Hev (Hl & Hc & Hb). split; [ | split ].
  - destruct ev as [c | c | c b' | c | b']; cbn [step].
    + destruct (status st); try exact Hl; destruct (browser st); exact Hl.
    + destruct (calls st !! c) as [[|]|]; exact Hl.
    + destruct (calls st !! c) as [[|]|]; try exact Hl.
      cbn. apply elem_of_app. now left.
    + exact Hl.
    + destruct (bool_decide _); exact Hl.
  - intros H. apply step_closed in H as [H | H]; contradiction.
  - destruct ev as [c | c | c b' | c | b']; cbn [step].
    + destruct (status st); try exact Hb;
        destruct (browser st) eqn:E; cbn; rewrite ?E; exact Hb.
    + destruct (calls st !! c) as [[|]|]; exact Hb.
    + destruct (calls st !! c) as [[|]|]; try exact Hb.
      cbn. cbn in Hev. intros H. injection H as <-.
      rewrite Nat.eqb_refl in Hev. discriminate Hev.
    + exact Hb.
    + destruct (bool_decide _); exact Hb.
Qed.

Lemma run_from_leaked (more : list CtlEvent) (b : nat) :
  forallb (fun ev => negb (launches b ev)) more = true ->
  forall st, leaked st b -> leaked (run_from st more) b.
Proof.
  induction more as [|ev more IH]; intros H st Hl; [ exact Hl | ].
  cbn in H. apply andb_true_iff in H as [H1 H2]. apply negb_true_iff in H1.
  cbn. apply IH; [ exact H2 | ]. now apply step_leaked.
Qed.

(** X1.  Two calls of [init()] that are both waiting for
    [puppeteer.launch] leak a browser: when the first launch resolves
    with [b1] and the second with [b2], [b1] is no longer
    [this.browser] and has not been closed, and whatever happens
    afterwards [init()] never closes it, since it only ever closes
    [this.browser]. *)
Theorem overlapping_init_leaks_a_browser
        (events more : list CtlEvent) (c1 c2 b1 b2 : nat) :
  calls (run events) !! c1 = Some AwaitLaunch ->
  calls (run events) !! c2 = Some AwaitLaunch ->
  c1 <> c2 -> b1 <> b2 -> b1 ∉ closed (run events) ->
  forallb (fun ev => negb (launches b1 ev)) more = true ->
  leaked (run (events ++ [LaunchResolved c1 b1; LaunchResolved c2 b2])) b1
  /\ leaked (run (events ++ [LaunchResolved c1 b1; LaunchResolved c2 b2] ++ more)) b1
  /\ browser (run (events ++ [LaunchResolved c1 b1; LaunchResolved c2 b2])) = Some b2
  /\ status (run (events ++ [LaunchResolved c1 b1; LaunchResolved c2 b2])) = StReady.
Proof.
  intros H1 H2 Hc Hb Hcl Hmore.
  assert (let st := run (events ++ [LaunchResolved c1 b1; LaunchResolved c2 b2]) in
          leaked st b1 /\ browser st = Some b2 /\ status st = StReady)
    as (Hleak & Hbr & Hst).
  { unfold run. rewrite ctl_run_from_app. fold (run events).
    set (st := run events) in *. cbn [run_from fold_left step]. rewrite H1.
    cbn [calls]. rewrite lookup_delete_ne by congruence. rewrite H2.
    cbn. split; [ | auto ]. split; [ | split ].
    - apply elem_of_app. left. apply elem_of_app. right. left.
    - exact Hcl.
    - cbn. intros H. injection H as H. congruence. }
  split; [ exact Hleak | ]. split; [ | auto ].
  rewrite app_assoc. unfold run. rewrite ctl_run_from_app.
  apply run_from_leaked; assumption.
Qed.

(** ** Calls that do not overlap *)

Lemma tidy_newControl : tidy newControl.
Proof.
  split; [ now left | ]. split.
  - intros b H. now apply not_elem_of_nil in H.
  - intros H. contradiction.
Qed.

Lemma step_tidy (st : Ctl) (ev : CtlEvent) :
  tidy st ->
  match ev with InitCalled _ => calls st = ∅ | _ => True end ->
  tidy (step st ev).
Proof.
  intros (Hcalls & Hlaunched & Hbusy) Hev.
  destruct ev as [c | c | c b | c | b]; cbn [step].
  - assert (tidy st) as Hst by (repeat split; assumption).
    destruct (status st); [ | | exact Hst ];
      (destruct (browser st) as [b0|] eqn:Eb;
       [ split; [ right; exists c, AwaitClose; cbn; rewrite Hev; apply insert_empty | ];
         split; cbn;
         [ intros b Hb; destruct (Hlaunched b Hb) as [H | H];
           [ left; apply elem_of_app; now left | right; exact H ]
         | intros _ b Hb; injection Hb as <-; apply elem_of_app; right; left ]
       | split; [ right; exists c, AwaitLaunch; cbn; rewrite Hev; apply insert_empty | ];
         split; cbn; rewrite ?Eb;
         [ exact Hlaunched | intros _ b Hb; discriminate Hb ] ]).
  - destruct (calls st !! c) as [[|]|] eqn:E; try (repeat split; assumption).
    destruct Hcalls as [H0 | (c0 & pc & H0)];
      [ rewrite H0, lookup_empty in E; discriminate E | ].
    rewrite H0 in E. apply lookup_singleton_Some in E as [-> ->].
    split; [ right; exists c, AwaitLaunch; cbn; rewrite H0; apply insert_singleton_eq | ].
    split; [ exact Hlaunched | ]. intros _. apply Hbusy.
    rewrite H0. apply insert_non_empty.
  - destruct (calls st !! c) as [[|]|] eqn:E; try (repeat split; assumption).
    destruct Hcalls as [H0 | (c0 & pc & H0)];
      [ rewrite H0, lookup_empty in E; discriminate E | ].
    rewrite H0 in E. apply lookup_singleton_Some in E as [-> ->].
    assert (calls st <> ∅) as Hne by (rewrite H0; apply insert_non_empty).
    split; [ left; cbn; rewrite H0; apply delete_singleton_eq | ].
    split; cbn.
    + intros b' Hb'. apply elem_of_app in Hb' as [Hb' | Hb'].
      * left. destruct (Hlaunched b' Hb') as [H | H]; [ exact H | ].
        now apply Hbusy.
      * apply list_elem_of_singleton in Hb'. subst b'. now right.
    + rewrite H0, delete_singleton_eq. intros H. contradiction.
  - split; [ | split; [ exact Hlaunched | ] ]; cbn.
    + destruct Hcalls as [H0 | (c0 & pc & H0)]; rewrite H0.
      * left. apply delete_empty.
      * destruct (decide (c = c0)) as [-> | Hne].
        -- left. apply delete_singleton_eq.
        -- right. exists c0, pc. now apply delete_singleton_ne.
    + intros Hne. apply Hbusy. intros H0. apply Hne. rewrite H0. apply delete_empty.
  - destruct (bool_decide _); repeat split; assumption.
Qed.

Lemma run_from_tidy (events : list CtlEvent) :
  forall st, tidy st -> oneAtATime st events = true -> tidy (run_from st events).
Proof.
  induction events as [|ev events IH]; intros st Ht H; [ exact Ht | ].
  cbn in H. apply andb_true_iff in H as [H1 H2]. cbn.
  apply IH; [ | exact H2 ]. apply step_tidy; [ exact Ht | ].
  destruct ev; try exact I. now apply bool_decide_eq_true in H1.
Qed.

(** X2.  As long as no call of [init()] starts while another one is
    in progress, no browser is leaked: every browser ever launched has
    been closed or is [this.browser], and at most one call is in
    progress. *)
Theorem sequential_init_leaks_nothing (events : list CtlEvent) :
  oneAtATime newControl events = true ->
  (forall b, ~ leaked (run events) b)
  /\ (forall b, b ∈ launched (run events) ->
                b ∈ closed (run events) \/ browser (run events) = Some b)
  /\ (size (calls (run events)) <= 1)%nat.
Proof.
  intros H.
  destruct (run_from_tidy events newControl tidy_newControl H)
    as (Hcalls & Hlaunched & _).
  fold (run events) in Hcalls, Hlaunched.
  split; [ | split; [ exact Hlaunched | ] ].
  - intros b (Hl & Hc & Hb). destruct (Hlaunched b Hl); contradiction.
  - destruct Hcalls as [H0 | (c & pc & H0)]; rewrite H0.
    + rewrite map_size_empty. lia.
    + rewrite map_size_singleton. lia.
Qed.

(** ** Two requests at start-up *)

Example two_calls_two_browsers :
  let st := run [InitCalled 1; InitCalled 2; LaunchResolved 1 10; LaunchResolved 2 20] in
  launched st = [10; 20]%nat /\ browser st = Some 20%nat /\ closed st = [].
Proof. cbn. auto. Qed.

Lemma overlapping_init_leaks_a_browser_witness :
  leaked (run ([InitCalled 1; InitCalled 2]
                 ++ [LaunchResolved 1 10; LaunchResolved 2 20]
                 ++ [Disconnected 20; InitCalled 3; CloseResolved 3;
                     LaunchResolved 3 30])) 10.
Proof.
  apply (overlapping_init_leaks_a_browser
           [InitCalled 1; InitCalled 2]
           [Disconnected 20; InitCalled 3; CloseResolved 3; LaunchResolved 3 30]
           1 2 10 20).
  - reflexivity.
  - reflexivity.
  - lia.
  - lia.
  - cbn. apply not_elem_of_nil.
  - reflexivity.
Defined.

Lemma sequential_init_leaks_nothing_witness :
  (size (calls (run [InitCalled 1; LaunchResolved 1 10; Disconnected 10;
                     InitCalled 2; CloseResolved 2; LaunchResolved 2 20])) <= 1)%nat
  /\ closed (run [InitCalled 1; LaunchResolved 1 10; Disconnected 10;
                  InitCalled 2; CloseResolved 2; LaunchResolved 2 20]) = [10%nat].
Proof.
  split; [ | reflexivity ].
  apply (sequential_init_leaks_nothing
           [InitCalled 1; LaunchResolved 1 10; Disconnected 10;
            InitCalled 2; CloseResolved 2; LaunchResolved 2 20]).
  vm_compute. reflexivity.
Defined.

End Control.

(* ===================================================================== *)
(** * 3. Snapshot pipeline ([PuppeteerControl.scrap]) *)
(* ===================================================================== *)

Module Scrape.

(** The value held by [let snapshot: unknown]: [undefined] before the
    first report, [null] when Readability finds no article, otherwise an
    object.  [ref] stands for the object's identity, which is what
    [snapshot === s] compares. *)
Inductive JsSnapshot : Type :=
| SUndefined
| SNull
| SObj (ref : nat).

Definition snapshot_eqb (a b : JsSnapshot) : bool :=
  match a, b with
  | SUndefined, SUndefined => true
  | SNull, SNull => true
  | SObj x, SObj y => Nat.eqb x y
  | _, _ => false
  end.

(** Screenshot bytes are opaque. *)
Definition Buffer := list Z.

Record PageResult : Type := mkPageResult {
  snapshot : JsSnapshot;
  screenshot : Buffer
}.

(** Where a failure originated. *)
Inductive Failure : Type :=
| AcquireFailure (msg : string)     (* pagePool.acquire() rejected *)
| NavigationFailure (msg : string)  (* gotoPromise rejected: timeout, crash *)
| ScreenshotFailure (msg : string)  (* page.screenshot() rejected *)
| EvaluateFailure (msg : string)    (* page.evaluate(...) rejected *)
| ConsumerFailure (msg : string)    (* consumer called generator.throw() *)
| DestroyFailure (msg : string).    (* pagePool.destroy(page) rejected *)

(** What the event loop delivers to the generator, in order.  A request
    of the consumer ([next()], [return()], [throw()]) made while the
    generator is running is queued by JavaScript and served at the next
    [yield]: in a timeline it stands at that [yield].  The promise
    derived by [gotoPromise.finally(...)] has no handler of its own; its
    rejection happens outside the generator and is not part of the
    state. *)
Inductive PageEvent : Type :=
| AcquireDone
| AcquireFailed (msg : string)
| SnapshotReported (s : JsSnapshot)   (* page.emit('snapshot', s) *)
| GotoResolved
| GotoRejected (msg : string)
| ScreenshotDone (shot : Buffer)
| ScreenshotFailed (msg : string)
| EvaluateDone (parsed : JsSnapshot)
| EvaluateFailed (msg : string)
| ConsumerNext                        (* generator.next() after a yield *)
| ConsumerReturn                      (* generator.return(): early exit *)
| ConsumerThrow (msg : string)        (* generator.throw(err) *)
| DestroyDone
| DestroyFailed (msg : string).

Inductive GotoState : Type :=
| GotoPending
| GotoOk
| GotoErr (msg : string).

Inductive Completion : Type :=
| Returned
| Threw (f : Failure).

(** The suspension point the generator is parked at. *)
Inductive Pc : Type :=
| AwaitAcquire                (* await this.pagePool.acquire() *)
| AwaitRace                   (* await Promise.race([next, gotoPromise]) *)
| AwaitScreenshot             (* await page.screenshot() *)
| AwaitEvaluate (shot : Buffer)  (* await page.evaluate(...) *)
| AtYield (final : bool)      (* suspended at a yield *)
| AwaitDestroy                (* finally: await this.pagePool.destroy(page) *)
| Finished (c : Completion).

Record State : Type := mkState {
  pc : Pc;
  cur_snapshot : JsSnapshot;        (* let snapshot *)
  goto : GotoState;                 (* gotoPromise; finalized = settled *)
  yielded : list PageResult;        (* items handed to the consumer *)
  swallowed : list Failure;         (* errors that reached catch (_err) *)
  parsed : option JsSnapshot        (* result of the post-settle parse *)
}.

Definition initial : State :=
  mkState AwaitAcquire SUndefined GotoPending [] [] None.

Definition finalized (st : State) : bool :=
  match goto st with GotoPending => false | _ => true end.

Definition set_pc (p : Pc) (st : State) : State :=
  mkState p (cur_snapshot st) (goto st) (yielded st) (swallowed st) (parsed st).

(** [const hdl = (s) => { if (snapshot === s) return; snapshot = s;
    nextSnapshotDeferred.resolve(s); nextSnapshotDeferred = Defer(); }].
    Returns the new state and whether the pending deferred was resolved. *)
Definition hdl (s : JsSnapshot) (st : State) : State * bool :=
  if snapshot_eqb (cur_snapshot st) s then (st, false)
  else (mkState (pc st) s (goto st) (yielded st) (swallowed st) (parsed st), true).

Definition settle_goto (g : GotoState) (st : State) : State :=
  mkState (pc st) (cur_snapshot st) g (yielded st) (swallowed st) (parsed st).

(** [catch (_err) { void 0; }] followed by the [finally] block, which
    removes the handler and awaits the destruction of the page. *)
Definition catch_and_finally (f : Failure) (st : State) : State :=
  mkState AwaitDestroy (cur_snapshot st) (goto st) (yielded st)
          (swallowed st ++ [f]) (parsed st).

Definition do_yield (final : bool) (r : PageResult) (st : State) : State :=
  mkState (AtYield final) (cur_snapshot st) (goto st) (yielded st ++ [r])
          (swallowed st) (parsed st).

(** Top of [while (true)]: [Promise.race] settles at once when
    [gotoPromise] has already settled; the deferred in
    [nextSnapshotDeferred] is always a pending one. *)
Definition enter_loop (st : State) : State :=
  match goto st with
  | GotoPending => set_pc AwaitRace st
  | GotoOk => set_pc AwaitScreenshot st
  | GotoErr msg => catch_and_finally (NavigationFailure msg) st
  end.

(** After [const screenshot = await page.screenshot()]. *)
Definition after_screenshot (shot : Buffer) (st : State) : State :=
  match goto st with
  | GotoPending =>
      (* not finalized: yield { snapshot, screenshot } *)
      do_yield false (mkPageResult (cur_snapshot st) shot) st
  | GotoOk =>
      (* finalized: await gotoPromise; then evaluate the parse *)
      set_pc (AwaitEvaluate shot) st
  | GotoErr msg =>
      (* finalized: await gotoPromise throws *)
      catch_and_finally (NavigationFailure msg) st
  end.

(** Events that are handled the same way at every suspension point
    inside the [try] block: the page handler and the settling of the
    navigation promise. *)
Definition background (ev : PageEvent) (st : State) : State :=
  match ev with
  | SnapshotReported s => fst (hdl s st)
  | GotoResolved =>
      match goto st with GotoPending => settle_goto GotoOk st | _ => st end
  | GotoRejected msg =>
      match goto st with GotoPending => settle_goto (GotoErr msg) st | _ => st end
  | _ => st
  end.

Definition step (st : State) (ev : PageEvent) : State :=
  match pc st with
  | AwaitAcquire =>
      match ev with
      | AcquireDone => enter_loop st
      | AcquireFailed msg => set_pc (Finished (Threw (AcquireFailure msg))) st
      | _ => st
      end
  | AwaitRace =>
      match ev with
      | SnapshotReported s =>
          let (st', resolved) := hdl s st in
          if resolved then set_pc AwaitScreenshot st' else st'
      | GotoResolved =>
          match goto st with
          | GotoPending => set_pc AwaitScreenshot (settle_goto GotoOk st)
          | _ => st
          end
      | GotoRejected msg =>
          match goto st with
          | GotoPending =>
              catch_and_finally (NavigationFailure msg)
                                (settle_goto (GotoErr msg) st)
          | _ => st
          end
      | _ => st
      end
  | AwaitScreenshot =>
      match ev with
      | ScreenshotDone shot => after_screenshot shot st
      | ScreenshotFailed msg => catch_and_finally (ScreenshotFailure msg) st
      | _ => background ev st
      end
  | AwaitEvaluate shot =>
      match ev with
      | EvaluateDone v =>
          (* snapshot = await page.evaluate(...); yield; *)
          let st1 := mkState (pc st) v (goto st) (yielded st) (swallowed st) (Some v) in
          do_yield true (mkPageResult v shot) st1
      | EvaluateFailed msg => catch_and_finally (EvaluateFailure msg) st
      | _ => background ev st
      end
  | AtYield final =>
      match ev with
      | ConsumerNext =>
          if final then set_pc AwaitDestroy st (* break; finally *)
          else enter_loop st
      | ConsumerReturn => set_pc AwaitDestroy st
      | ConsumerThrow msg => catch_and_finally (ConsumerFailure msg) st
      | _ => background ev st
      end
  | AwaitDestroy =>
      (* page.off('snapshot', hdl) has run: reports are no longer seen *)
      match ev with
      | DestroyDone => set_pc (Finished Returned) st
      | DestroyFailed msg => set_pc (Finished (Threw (DestroyFailure msg))) st
      | GotoResolved | GotoRejected _ => background ev st
      | _ => st
      end
  | Finished _ => st
  end.

Definition run_from (st : State) (timeline : list PageEvent) : State :=
  fold_left step timeline st.

(** [scrap(url)] driven by a timeline. *)
Definition scrap (timeline : list PageEvent) : State :=
  run_from initial timeline.

Definition last_yielded (st : State) : option PageResult :=
  last (yielded st).

Definition navigation_succeeded (st : State) : bool :=
  match goto st with GotoOk => true | _ => false end.

Definition navigation_failed (st : State) : bool :=
  match goto st with GotoErr _ => true | _ => false end.

Definition completion (st : State) : option Completion :=
  match pc st with Finished c => Some c | _ => None end.

(** Once the post-settle parse has been stored, the generator sits at or
    after the final yield, the navigation had resolved, and the item
    yielded last carries that parse. *)
Definition final_inv (st : State) : Prop :=
  match parsed st with
  | None => forall shot, pc st = AwaitEvaluate shot -> goto st = GotoOk
  | Some v =>
      goto st = GotoOk
      /\ (exists shot, last (yielded st) = Some (mkPageResult v shot))
      /\ (pc st = AtYield true \/ pc st = AwaitDestroy
          \/ exists c, pc st = Finished c)
  end.

(** The only failures that leave the generator are those raised outside
    the [try] block or inside [finally]. *)
Definition escape_inv (st : State) : Prop :=
  match pc st with
  | AwaitAcquire => goto st = GotoPending
  | Finished (Threw (AcquireFailure _)) => goto st = GotoPending
  | Finished (Threw (DestroyFailure _)) => True
  | Finished (Threw _) => False
  | _ => True
  end.

(** The generator is parked inside [while (true)], before the test of
    [finalized]. *)
Definition in_loop (st : State) : bool :=
  match pc st with
  | AwaitRace | AwaitScreenshot | AtYield false => true
  | _ => false
  end.

(** What the consumer and the page still have to deliver, once the
    navigation has resolved, for the loop to reach [if (finalized)]: a
    generator parked at a yield is asked for the next item, and the
    screenshot is taken. *)
Definition upto_finalized_test (shot : Buffer) (st : State) : list PageEvent :=
  match pc st with
  | AtYield _ => [ConsumerNext; ScreenshotDone shot]
  | _ => [ScreenshotDone shot]
  end.

(** The same once the navigation has been rejected: the race sees the
    rejection at once, a pending screenshot is followed by
    [await gotoPromise], and a generator parked at a yield meets the
    rejection at the next race. *)
Definition upto_rejection (shot : Buffer) (st : State) : list PageEvent :=
  match pc st with
  | AwaitScreenshot => [ScreenshotDone shot]
  | AtYield _ => [ConsumerNext]
  | _ => []
  end.

(** A first item has been yielded and the navigation is still going on. *)
Definition first_item_timeline : list PageEvent :=
  [ AcquireDone; SnapshotReported (SObj 1); ScreenshotDone [137; 80] ].

(** Two items have been yielded and the navigation is still going on. *)
Definition two_items_timeline : list PageEvent :=
  first_item_timeline
    ++ [ ConsumerNext; SnapshotReported (SObj 2); ScreenshotDone [71; 73] ].

(** The scenario "navigation succeeds but Readability finds no article". *)
Definition no_article_timeline : list PageEvent :=
  [ AcquireDone; GotoResolved; ScreenshotDone [137; 80; 78; 71];
    EvaluateDone SNull; ConsumerNext; DestroyDone ].

(** The scenario "navigation times out". *)
Definition nav_timeout_timeline : list PageEvent :=
  [ AcquireDone; SnapshotReported (SObj 1); ScreenshotDone [137; 80];
    ConsumerNext; GotoRejected "TimeoutError: Navigation timeout of 30000 ms exceeded";
    DestroyDone ].

(** Scrape finality as the specification words it. *)
Definition scrape_finality_as_stated : Prop :=
  forall tl : list PageEvent,
    completion (scrap tl) = Some Returned ->
    navigation_succeeded (scrap tl) = true ->
    exists r, last_yielded (scrap tl) = Some r
              /\ snapshot r <> SNull
              /\ parsed (scrap tl) = Some (snapshot r).

(** Failure propagation as the specification words it: a failed
    navigation leaves the generator as an error for the request boundary. *)
Definition navigation_failure_propagates_as_stated : Prop :=
  forall (tl : list PageEvent) (msg : string) (c : Completion),
    goto (scrap tl) = GotoErr msg ->
    completion (scrap tl) = Some c ->
    c = Threw (NavigationFailure msg).

(** The snapshots the page reports along a timeline, in order. *)
Definition reported (tl : list PageEvent) : list JsSnapshot :=
  omap (fun ev => match ev with SnapshotReported s => Some s | _ => None end) tl.

(** The items yielded before the final one. *)
Definition intermediate (st : State) : list PageResult :=
  match parsed st with
  | Some _ => removelast (yielded st)
  | None => yielded st
  end.

(** The [finally] block has been entered, or the generator has completed. *)
Definition winding_down (st : State) : bool :=
  match pc st with
  | AwaitDestroy | Finished _ => true
  | _ => false
  end.

Definition isConsumerReturn (ev : PageEvent) : bool :=
  match ev with ConsumerReturn => true | _ => false end.

(** What the identity test of [hdl] keeps true: the snapshots yielded so
    far were all reported ([seen]), no two of them are the same, and the
    snapshot a pending screenshot will be yielded with has not been
    yielded yet. *)
Definition distinct_inv (seen : list JsSnapshot) (st : State) : Prop :=
  (forall r, r ∈ intermediate st -> snapshot r ∈ seen)
  /\ NoDup (snapshot <$> intermediate st)
  /\ (pc st = AwaitScreenshot -> goto st = GotoPending ->
      cur_snapshot st ∈ seen /\ cur_snapshot st ∉ snapshot <$> intermediate st).

(** The [finally] block is entered by the [break] after the final yield,
    by the [catch] block, or by the consumer's [return()]. *)
Definition exit_inv (st : State) : Prop :=
  match pc st with
  | AwaitDestroy | Finished Returned | Finished (Threw (DestroyFailure _)) =>
      parsed st <> None \/ swallowed st <> []
  | AtYield true => parsed st <> None
  | _ => True
  end.

(** The [catch] block runs at most once, and only on the way out. *)
Definition catch_inv (st : State) : Prop :=
  (length (swallowed st) <= 1)%nat
  /\ (swallowed st <> [] -> winding_down st = true).

(** What the suspension point says about the navigation promise: the
    race is awaited only while it is pending, the parse and the final
    yield are reached only after it has resolved, and no failure of the
    [try] block leaves the generator.  Hence a generator whose
    navigation has failed is at a pending screenshot, at an intermediate
    yield, in the [finally] block, or has completed normally or by a
    rejected [pagePool.destroy]. *)
Definition failed_inv (st : State) : Prop :=
  match pc st with
  | AwaitAcquire | AwaitRace | Finished (Threw (AcquireFailure _)) =>
      goto st = GotoPending
  | AwaitEvaluate _ | AtYield true => goto st = GotoOk
  | Finished (Threw (DestroyFailure _)) => True
  | Finished (Threw _) => False
  | _ => True
  end.

(** A scrape the consumer abandons at its first item, after the
    navigation has failed. *)
Definition abandoned_timeline : list PageEvent :=
  [ AcquireDone; SnapshotReported (SObj 1); ScreenshotDone [1];
    GotoRejected "TimeoutError"; ConsumerReturn ].

(** Case analysis on one step of the generator. *)
Ltac step_cases :=
  unfold step, enter_loop, after_screenshot, background, hdl, do_yield,
    catch_and_finally, set_pc, settle_goto;
  cbn [pc parsed yielded cur_snapshot goto swallowed fst snd];
  repeat match goal with
         | |- context [snapshot_eqb ?a ?b] => destruct (snapshot_eqb a b) eqn:?
         | |- context [match ?g with GotoPending => _ | GotoOk => _ | GotoErr _ => _ end] =>
             destruct g eqn:?
         end;
  cbn [pc parsed yielded cur_snapshot goto swallowed fst snd].

(** ** Properties of the snapshot pipeline *)

Lemma run_from_app (st : State) (t1 t2 : list PageEvent) :
  run_from st (t1 ++ t2) = run_from (run_from st t1) t2.
Proof. unfold run_from. apply fold_left_app. Qed.

Lemma run_from_invariant (P : State -> Prop) :
  (forall st ev, P st -> P (step st ev)) ->
  forall tl st, P st -> P (run_from st tl).
Proof.
  intros Hstep tl. induction tl as [|ev tl IH]; intros st Hst; simpl.
  - exact Hst.
  - apply IH, Hstep, Hst.
Qed.

Lemma last_snoc_some {A} (l : list A) (x : A) : last (l ++ [x]) = Some x.
Proof. apply last_snoc. Qed.

Lemma final_inv_step (st : State) (ev : PageEvent) :
  final_inv st -> final_inv (step st ev).
Proof.
  unfold final_inv, step, enter_loop, after_screenshot, background, hdl,
    do_yield, catch_and_finally, set_pc, settle_goto.
  destruct st as [p s g ys sw pr]; simpl.
  destruct pr as [v|]; intros H.
  - destruct H as (Hg & [shot Hl] & Hpc). subst g.
    destruct Hpc as [-> | [-> | [c ->]]]; destruct ev; simpl;
      repeat (destruct (snapshot_eqb _ _); simpl); eauto 10.
  - destruct p; destruct ev; simpl; try destruct g; simpl;
      repeat (destruct (snapshot_eqb _ _); simpl);
      try destruct final; simpl;
      try (intros; first [ discriminate | eauto ]; fail);
      try (split; [ eauto | split; [ eexists; apply last_snoc_some | eauto ] ]; fail).
    all: try (specialize (H _ eq_refl); discriminate).
Qed.

Lemma escape_inv_step (st : State) (ev : PageEvent) :
  escape_inv st -> escape_inv (step st ev).
Proof.
  unfold escape_inv, step, enter_loop, after_screenshot, background, hdl,
    do_yield, catch_and_finally, set_pc, settle_goto.
  destruct st as [p s g ys sw pr]; simpl.
  destruct p as [| | | shot | final | | [|f]]; try destruct f;
    destruct ev; simpl; intros H; subst;
    repeat (destruct (snapshot_eqb _ _); simpl);
    try destruct g; try destruct final; simpl; auto.
Qed.

Lemma final_inv_scrap (tl : list PageEvent) : final_inv (scrap tl).
Proof.
  unfold scrap. apply run_from_invariant; [ apply final_inv_step | ].
  unfold final_inv; simpl. intros shot H; discriminate.
Qed.

Lemma escape_inv_scrap (tl : list PageEvent) : escape_inv (scrap tl).
Proof.
  unfold scrap. apply run_from_invariant; [ apply escape_inv_step | reflexivity ].
Qed.

(** A navigation state, once settled, never changes. *)
Lemma goto_settled_step (st : State) (ev : PageEvent) (g : GotoState) :
  goto st = g -> g <> GotoPending -> goto (step st ev) = g.
Proof.
  unfold step, enter_loop, after_screenshot, background, hdl,
    do_yield, catch_and_finally, set_pc, settle_goto.
  destruct st as [p s g0 ys sw pr]; simpl. intros -> Hg.
  destruct p; destruct ev; simpl;
    repeat (destruct (snapshot_eqb _ _); simpl);
    try destruct g; try destruct final; simpl; congruence.
Qed.

(** C3, counterexample.  The navigation resolves, the screenshot and the
    in-page parse succeed, the consumer drains the generator, and yet
    the last yielded PageResult has a null snapshot, because
    [new Readability(...).parse()] returned null. *)
Lemma scrap_final_snapshot_may_be_null : ~ scrape_finality_as_stated.
Proof.
  intros H.
  destruct (H no_article_timeline eq_refl eq_refl) as (r & Hl & Hn & _).
  vm_compute in Hl. injection Hl as <-. apply Hn. reflexivity.
Qed.

(** C3, amended.  Whenever the parse that follows the settling of the
    navigation promise has been performed, the navigation had succeeded
    and the PageResult yielded last carries exactly the value of that
    parse (null included); nothing is yielded after it.  Moreover, from
    every suspension point of the loop, a navigation that resolves,
    followed by a successful screenshot and a successful parse, does
    produce that final item. *)
Theorem scrap_last_yield_is_post_settle_parse :
  (forall (tl : list PageEvent) (v : JsSnapshot),
      parsed (scrap tl) = Some v ->
      navigation_succeeded (scrap tl) = true
      /\ exists shot, last_yielded (scrap tl) = Some (mkPageResult v shot))
  /\ (forall (tl : list PageEvent) (shot : Buffer) (v : JsSnapshot),
        in_loop (scrap tl) = true ->
        goto (scrap tl) = GotoPending ->
        let st := scrap (tl ++ GotoResolved
                            :: upto_finalized_test shot (scrap tl)
                            ++ [EvaluateDone v]) in
        pc st = AtYield true
        /\ parsed st = Some v
        /\ last_yielded st = Some (mkPageResult v shot)).
Proof.
  split.
  - intros tl v Hp. pose proof (final_inv_scrap tl) as Hinv.
    unfold final_inv in Hinv. rewrite Hp in Hinv.
    destruct Hinv as (Hg & Hl & _). unfold navigation_succeeded.
    rewrite Hg. split; [ reflexivity | exact Hl ].
  - intros tl shot v Hpc Hg st. subst st. unfold scrap in *.
    rewrite run_from_app. unfold in_loop, upto_finalized_test in *.
    destruct (run_from initial tl) as [p s g ys sw pr]; simpl in *. subst.
    destruct p as [| | | ? | [|] | |]; try discriminate; simpl;
      unfold last_yielded; simpl; rewrite last_snoc; auto.
Qed.

Lemma scrap_last_yield_is_post_settle_parse_witness :
  parsed (scrap no_article_timeline) = Some SNull
  /\ navigation_succeeded (scrap no_article_timeline) = true
  /\ (exists shot, last_yielded (scrap no_article_timeline)
                   = Some (mkPageResult SNull shot))
  /\ last_yielded
       (scrap (first_item_timeline
                 ++ [GotoResolved; ConsumerNext; ScreenshotDone [1]; EvaluateDone (SObj 7)]))
     = Some (mkPageResult (SObj 7) [1]).
Proof.
  split; [ reflexivity | ].
  destruct scrap_last_yield_is_post_settle_parse as [Hsafe Hlive].
  destruct (Hsafe no_article_timeline SNull eq_refl) as [Hn Hl].
  split; [ exact Hn | split; [ exact Hl | ] ].
  exact (proj2 (proj2 (Hlive first_item_timeline [1] (SObj 7) eq_refl eq_refl))).
Defined.

(** C4, counterexample.  The navigation times out while the consumer
    waits for the next item; the generator then completes normally: the
    rejection is caught by [catch (_err) { void 0; }] and is not raised
    to the caller. *)
Lemma scrap_navigation_timeout_is_swallowed :
  ~ navigation_failure_propagates_as_stated.
Proof.
  intros H.
  specialize (H nav_timeout_timeline _ Returned eq_refl eq_refl).
  discriminate H.
Qed.

Lemma failed_inv_step (st : State) (ev : PageEvent) :
  failed_inv st -> failed_inv (step st ev).
Proof.
  unfold failed_inv, step, enter_loop, after_screenshot,
    background, hdl, do_yield, catch_and_finally, set_pc, settle_goto.
  destruct st as [p s g ys sw pr]; simpl.
  destruct p as [| | | shot | [|] | | [|[]]]; intros H; subst;
    try contradiction; destruct ev; simpl;
    repeat (destruct (snapshot_eqb _ _); simpl); try destruct g; simpl; auto.
Qed.

Lemma failed_inv_scrap (tl : list PageEvent) : failed_inv (scrap tl).
Proof.
  unfold scrap. apply run_from_invariant; [ apply failed_inv_step | reflexivity ].
Qed.

(** C4, amended.  A navigation failure never leaves the generator.  For
    every run in which the navigation has failed: no final item has been
    yielded, and a generator that has completed has returned normally or
    raised the error of [pagePool.destroy] from the [finally] block.
    Such a generator, when it has not completed yet, completes normally
    as soon as what it waits for is delivered (the pending screenshot or
    the consumer's next request, then the destruction of the page): it
    yields nothing more, and a generator that was still in its loop has
    then met the rejection, at [Promise.race] or at [await gotoPromise],
    and its [catch] block has swallowed it, while one that had left the
    loop before never looks at it.  The same holds from every suspension
    point of the loop when the navigation is rejected there. *)
Theorem scrap_swallows_navigation_failure :
  (forall (tl : list PageEvent) (msg : string),
      goto (scrap tl) = GotoErr msg ->
      parsed (scrap tl) = None
      /\ forall c, completion (scrap tl) = Some c ->
                   c = Returned \/ exists m, c = Threw (DestroyFailure m))
  /\ (forall (tl : list PageEvent) (msg : string) (shot : Buffer),
        goto (scrap tl) = GotoErr msg ->
        completion (scrap tl) = None ->
        let st := scrap (tl ++ upto_rejection shot (scrap tl) ++ [DestroyDone]) in
        completion st = Some Returned
        /\ yielded st = yielded (scrap tl)
        /\ parsed st = None
        /\ swallowed st
           = if in_loop (scrap tl)
             then swallowed (scrap tl) ++ [NavigationFailure msg]
             else swallowed (scrap tl))
  /\ (forall (tl : list PageEvent) (msg : string) (shot : Buffer),
        in_loop (scrap tl) = true ->
        goto (scrap tl) = GotoPending ->
        let st := scrap (tl ++ GotoRejected msg
                            :: upto_rejection shot (scrap tl)
                            ++ [DestroyDone]) in
        completion st = Some Returned
        /\ yielded st = yielded (scrap tl)
        /\ swallowed st = swallowed (scrap tl) ++ [NavigationFailure msg]).
Proof.
  assert (forall tl msg, goto (scrap tl) = GotoErr msg -> parsed (scrap tl) = None)
    as Hnone.
  { intros tl msg Hg. pose proof (final_inv_scrap tl) as Hinv.
    unfold final_inv in Hinv.
    destruct (parsed (scrap tl)); [ | reflexivity ].
    destruct Hinv as [Hok _]. congruence. }
  split; [ | split ].
  - intros tl msg Hg. split; [ now apply (Hnone tl msg) | ].
    intros c Hc. pose proof (escape_inv_scrap tl) as Hinv.
    unfold escape_inv, completion in *.
    destruct (pc (scrap tl)); try discriminate.
    injection Hc as ->. destruct c as [|f]; [ left; reflexivity | ].
    destruct f; try contradiction; [ congruence | right; eauto ].
  - intros tl msg shot Hg Hc st. subst st.
    pose proof (failed_inv_scrap tl) as Hinv. pose proof (Hnone tl msg Hg) as Hp.
    unfold scrap in *. rewrite run_from_app.
    unfold failed_inv, completion, in_loop, upto_rejection in *.
    destruct (run_from initial tl) as [p s g ys sw pr];
      cbn [pc goto parsed yielded swallowed] in *. subst g pr.
    destruct p as [| | | ? | [|] | | ?]; try discriminate; cbn; auto.
  - intros tl msg shot Hpc Hg st. subst st. unfold scrap in *.
    rewrite run_from_app. unfold in_loop, upto_rejection in *.
    destruct (run_from initial tl) as [p s g ys sw pr]; simpl in *. subst.
    destruct p as [| | | ? | [|] | |]; try discriminate; simpl; auto.
Qed.

Lemma scrap_swallows_navigation_failure_witness :
  parsed (scrap nav_timeout_timeline) = None
  /\ completion (scrap nav_timeout_timeline) = Some Returned
  /\ completion (scrap (abandoned_timeline ++ [DestroyDone])) = Some Returned
  /\ swallowed (scrap (abandoned_timeline ++ [DestroyDone])) = []
  /\ completion
       (scrap (first_item_timeline
                 ++ [GotoRejected "net::ERR_FAILED"; ConsumerNext; DestroyDone]))
     = Some Returned.
Proof.
  destruct scrap_swallows_navigation_failure as (Hsafe & Hdrain & Hlive).
  destruct (Hsafe nav_timeout_timeline _ eq_refl) as [Hp _].
  split; [ exact Hp | split; [ reflexivity | ] ].
  destruct (Hdrain abandoned_timeline "TimeoutError"%string [] eq_refl eq_refl)
    as (Hc & _ & _ & Hs).
  split; [ exact Hc | split; [ exact Hs | ] ].
  exact (proj1 (Hlive first_item_timeline "net::ERR_FAILED"%string [] eq_refl eq_refl)).
Defined.

(** ** What the loop keeps true *)

Lemma reported_app (t1 t2 : list PageEvent) :
  reported (t1 ++ t2) = reported t1 ++ reported t2.
Proof. unfold reported. apply omap_app. Qed.

Lemma parsed_none_in_loop (st : State) :
  final_inv st ->
  match pc st with
  | AwaitAcquire | AwaitRace | AwaitScreenshot | AwaitEvaluate _ | AtYield false =>
      parsed st = None
  | _ => True
  end.
Proof.
  unfold final_inv. destruct (parsed st) as [v|]; [ | now destruct (pc st) as [| | | | [|] | |] ].
  intros (_ & _ & [H | [H | [c H]]]); rewrite H; exact I.
Qed.

Lemma distinct_inv_step (seen : list JsSnapshot) (st : State) (ev : PageEvent) :
  final_inv st ->
  (forall s, ev = SnapshotReported s -> s ∉ seen) ->
  distinct_inv seen st ->
  distinct_inv (seen ++ reported [ev]) (step st ev).
Proof.
  intros Hfin Hfresh (Hin & Hnd & Hcur).
  pose proof (parsed_none_in_loop st Hfin) as Hnone.
  unfold distinct_inv, intermediate in *.
  destruct st as [p c g ys sw pr]; cbn [pc parsed yielded cur_snapshot goto] in *.
  destruct p as [| | | shot | final | | cpl]; try (destruct final); try subst pr;
    destruct ev; cbn [reported omap]; rewrite ?app_nil_r; step_cases.
  all: try (split; [ exact Hin | split; [ exact Hnd | intros; first [ discriminate | auto ] ] ]; fail).
  all: try match goal with
       | |- context [reported [SnapshotReported ?s]] =>
           change (reported [SnapshotReported s]) with [s];
           pose proof (Hfresh _ eq_refl) as Hs
       end.
  all: rewrite ?removelast_last.
  all: try (split; [ intros r Hr; apply elem_of_app; left; now apply Hin
                   | split; [ exact Hnd | intros ? ?; try discriminate ] ]).
  all: try (split; [ apply elem_of_app; right; left | ];
            intros Hmem; apply list_elem_of_fmap in Hmem as (r & -> & Hr);
            apply Hs, Hin, Hr).
  all: try (destruct (Hcur eq_refl eq_refl) as [Hc1 Hc2]).
  all: try (split; [ apply elem_of_app; now left | exact Hc2 ]).
  - destruct (Hcur H H0) as [Hc1 Hc2].
    split; [ apply elem_of_app; now left | exact Hc2 ].
  - split; [ | split; [ | intros ?; discriminate ] ].
    + intros r Hr. apply elem_of_app in Hr as [Hr | Hr]; [ now apply Hin | ].
      apply list_elem_of_singleton in Hr. now subst r.
    + rewrite fmap_app. apply NoDup_app. split; [ exact Hnd | ].
      split; [ | apply NoDup_singleton ].
      intros x Hx Hx'. apply list_elem_of_singleton in Hx'. cbn in Hx'. now subst x.
  - split; [ exact Hin | split; [ exact Hnd | intros ?; discriminate ] ].
Qed.

Lemma distinct_inv_run (tl : list PageEvent) :
  forall (seen : list JsSnapshot) (st : State),
    NoDup (seen ++ reported tl) ->
    final_inv st ->
    distinct_inv seen st ->
    distinct_inv (seen ++ reported tl) (run_from st tl).
Proof.
  induction tl as [|ev tl IH]; intros seen st Hnd Hfin Hinv.
  - cbn. now rewrite app_nil_r.
  - change (ev :: tl) with ([ev] ++ tl) in *.
    rewrite reported_app, app_assoc in *. cbn [run_from fold_left app].
    apply IH; [ exact Hnd | now apply final_inv_step | ].
    apply distinct_inv_step; [ exact Hfin | | exact Hinv ].
    intros s -> Hs. change (reported [SnapshotReported s]) with [s] in Hnd.
    apply NoDup_app in Hnd as [Hnd _]. apply NoDup_app in Hnd as (_ & Hnd & _).
    apply (Hnd s Hs). left.
Qed.

(** X3.  When the page never reports the same snapshot twice, no two of
    the items yielded before the final one carry the same snapshot: the
    identity test of [hdl] and the fresh deferred of every iteration let
    the loop yield only after a snapshot that was not seen before. *)
Theorem scrap_intermediate_snapshots_distinct (tl : list PageEvent) :
  NoDup (reported tl) ->
  NoDup (snapshot <$> intermediate (scrap tl))
  /\ forall r, r ∈ intermediate (scrap tl) -> snapshot r ∈ reported tl.
Proof.
  intros Hnd.
  destruct (distinct_inv_run tl [] initial) as (Hin & Hno & _).
  - exact Hnd.
  - unfold final_inv; cbn. intros shot H; discriminate.
  - unfold distinct_inv, intermediate; cbn.
    split; [ intros r Hr; now apply elem_of_nil in Hr | ].
    split; [ apply NoDup_nil_2 | intros H; discriminate ].
  - split; [ exact Hno | exact Hin ].
Qed.

Lemma exit_inv_step (st : State) (ev : PageEvent) :
  isConsumerReturn ev = false -> exit_inv st -> exit_inv (step st ev).
Proof.
  unfold exit_inv. destruct st as [p c g ys sw pr]; cbn [pc parsed swallowed].
  intros Hev H.
  destruct p as [| | | shot | [|] | | [|[]]]; destruct ev; try discriminate Hev;
    step_cases; auto; try (right; now destruct sw); try discriminate.
Qed.

Lemma exit_inv_run (tl : list PageEvent) :
  forallb (fun ev => negb (isConsumerReturn ev)) tl = true ->
  forall st, exit_inv st -> exit_inv (run_from st tl).
Proof.
  induction tl as [|ev tl IH]; intros Hall st Hst; [ exact Hst | ].
  cbn in Hall. apply andb_true_iff in Hall as [Hev Hall].
  cbn [run_from fold_left]. apply (IH Hall), exit_inv_step; [ | exact Hst ].
  now apply negb_true_iff.
Qed.

(** X4.  The generator completes normally for three reasons only: the
    [break] after the final item, the [catch] block, and the consumer's
    [return()].  Hence, when the consumer never returns early and no
    failure was swallowed, a normally completed scrape has delivered the
    parse made after the navigation resolved as its last item. *)
Theorem scrap_clean_exit_delivers_final (tl : list PageEvent) :
  forallb (fun ev => negb (isConsumerReturn ev)) tl = true ->
  completion (scrap tl) = Some Returned ->
  swallowed (scrap tl) = [] ->
  exists v shot,
    parsed (scrap tl) = Some v
    /\ last_yielded (scrap tl) = Some (mkPageResult v shot)
    /\ navigation_succeeded (scrap tl) = true.
Proof.
  intros Hall Hc Hsw.
  pose proof (exit_inv_run tl Hall initial I) as Hexit.
  pose proof (final_inv_scrap tl) as Hfin.
  fold (scrap tl) in Hexit. unfold exit_inv, completion in *.
  destruct (pc (scrap tl)) as [| | | | | | [|f]]; try discriminate.
  destruct Hexit as [Hp | Hs]; [ | contradiction ].
  unfold final_inv in Hfin. destruct (parsed (scrap tl)) as [v|]; [ | contradiction ].
  destruct Hfin as (Hg & [shot Hl] & _). exists v, shot.
  unfold navigation_succeeded, last_yielded. rewrite Hg. auto.
Qed.

Lemma winding_down_step (st : State) (ev : PageEvent) :
  winding_down st = true ->
  winding_down (step st ev) = true
  /\ yielded (step st ev) = yielded st
  /\ cur_snapshot (step st ev) = cur_snapshot st
  /\ swallowed (step st ev) = swallowed st
  /\ parsed (step st ev) = parsed st.
Proof.
  unfold winding_down. destruct st as [p c g ys sw pr]; cbn [pc].
  destruct p; try discriminate; intros _; destruct ev; step_cases; auto.
Qed.

(** X5.  Once the [finally] block has been entered the generator is on
    its way out for good: whatever the page, the navigation or the
    consumer do afterwards, nothing more is yielded, no snapshot is
    taken over (the handler has been removed) and no further failure is
    swallowed. *)
Theorem scrap_winding_down_is_final (tl more : list PageEvent) :
  winding_down (scrap tl) = true ->
  winding_down (scrap (tl ++ more)) = true
  /\ yielded (scrap (tl ++ more)) = yielded (scrap tl)
  /\ cur_snapshot (scrap (tl ++ more)) = cur_snapshot (scrap tl)
  /\ swallowed (scrap (tl ++ more)) = swallowed (scrap tl)
  /\ parsed (scrap (tl ++ more)) = parsed (scrap tl).
Proof.
  unfold scrap. rewrite run_from_app. generalize (run_from initial tl) as st.
  induction more as [|ev more IH]; intros st Hw; [ cbn; auto | ].
  cbn [run_from fold_left].
  destruct (winding_down_step st ev Hw) as (Hw' & Hy & Hc & Hs & Hp).
  destruct (IH _ Hw') as (? & ? & ? & ? & ?). unfold run_from in *.
  repeat split; congruence.
Qed.

Lemma catch_inv_step (st : State) (ev : PageEvent) :
  catch_inv st -> catch_inv (step st ev).
Proof.
  unfold catch_inv, winding_down. destruct st as [p c g ys sw pr];
    cbn [pc swallowed]. intros [Hlen Hw].
  destruct p as [| | | shot | [|] | |]; destruct ev; step_cases;
    try (split; [ exact Hlen | exact Hw ]);
    try (split; [ exact Hlen | reflexivity ]);
    try (destruct sw as [|f sw]; [ cbn; split; [ lia | reflexivity ]
                                 | specialize (Hw ltac:(discriminate)); discriminate ]).
Qed.

(** X6.  The [catch] block runs at most once in a scrape: at most one
    failure is ever swallowed, and as soon as one has been, the generator
    is in its [finally] block or has completed. *)
Theorem scrap_swallows_at_most_one_failure (tl : list PageEvent) :
  (length (swallowed (scrap tl)) <= 1)%nat
  /\ (swallowed (scrap tl) <> [] -> winding_down (scrap tl) = true).
Proof.
  unfold scrap. apply (run_from_invariant catch_inv catch_inv_step).
  unfold catch_inv; cbn. split; [ lia | intros H; now contradiction H ].
Qed.

Lemma scrap_intermediate_snapshots_distinct_witness :
  NoDup (reported two_items_timeline)
  /\ NoDup (snapshot <$> intermediate (scrap two_items_timeline))
  /\ length (intermediate (scrap two_items_timeline)) = 2%nat.
Proof.
  assert (NoDup (reported two_items_timeline)) as Hnd.
  { change (reported two_items_timeline) with [SObj 1; SObj 2].
    apply NoDup_cons. split; [ | apply NoDup_singleton ].
    intros H. apply list_elem_of_singleton in H. discriminate H. }
  split; [ exact Hnd | ].
  split; [ exact (proj1 (scrap_intermediate_snapshots_distinct _ Hnd)) | reflexivity ].
Defined.

Lemma scrap_clean_exit_delivers_final_witness :
  exists v shot,
    parsed (scrap no_article_timeline) = Some v
    /\ last_yielded (scrap no_article_timeline) = Some (mkPageResult v shot)
    /\ navigation_succeeded (scrap no_article_timeline) = true.
Proof.
  exact (scrap_clean_exit_delivers_final no_article_timeline eq_refl eq_refl eq_refl).
Defined.

Lemma scrap_winding_down_is_final_witness :
  yielded (scrap (nav_timeout_timeline ++ [SnapshotReported (SObj 9); ConsumerNext]))
  = yielded (scrap nav_timeout_timeline).
Proof.
  exact (proj1 (proj2 (scrap_winding_down_is_final
                         nav_timeout_timeline
                         [SnapshotReported (SObj 9); ConsumerNext] eq_refl))).
Defined.


Lemma scrap_swallows_at_most_one_failure_witness :
  swallowed (scrap nav_timeout_timeline) <> []
  /\ winding_down (scrap nav_timeout_timeline) = true.
Proof.
  assert (swallowed (scrap nav_timeout_timeline) <> []) as Hne by discriminate.
  split; [ exact Hne | ].
  exact (proj2 (scrap_swallows_at_most_one_failure nav_timeout_timeline) Hne).
Defined.


End Scrape.

(* ===================================================================== *)
(** * 4. The page script ([PuppeteerControl.newPage]) *)
(* ===================================================================== *)

Module PageScript.

Import Scrape.

(** [document.readyState] *)
Inductive ReadyState : Type :=
| Loading
| Interactive
| Complete.

(** The script installed by [page.evaluateOnNewDocument]: the state of
    one document.  Timer handles are positive numbers, handed out in
    increasing order; [aftershot] keeps the handle of the last timer
    set, also after that timer has fired. *)
Record Page : Type := mkPage {
  readyState : ReadyState;
  aftershot : option nat;       (* let aftershot: any *)
  timers : list nat;            (* timers set, not yet fired or cleared *)
  nextHandle : nat;             (* the handle the next setTimeout returns *)
  reported : list JsSnapshot    (* the arguments of window.reportSnapshot, in order *)
}.

Definition newDocument : Page := mkPage Loading None [] 1 [].

(** What the browser does to the document.  [parse] is what
    [new Readability(document.cloneNode(true)).parse()] returns at that
    moment: an article object, or [null]. *)
Inductive DocEvent : Type :=
| ReadyStateChange (rs : ReadyState) (parse : JsSnapshot)  (* 'readystatechange' *)
| Load (parse : JsSnapshot)                                (* 'load' *)
| TimerFires (handle : nat) (parse : JsSnapshot).          (* 500 ms have passed *)

(** [if (parsed)] *)
Definition truthySnapshot (s : JsSnapshot) : bool :=
  match s with SObj _ => true | _ => false end.

(** [window.reportSnapshot(s)] *)
Definition reportSnapshot (s : JsSnapshot) (p : Page) : Page :=
  mkPage (readyState p) (aftershot p) (timers p) (nextHandle p) (reported p ++ [s]).

(** [clearTimeout(h)] *)
Definition clearTimeout (h : nat) (p : Page) : Page :=
  mkPage (readyState p) (aftershot p)
         (List.filter (fun t => negb (Nat.eqb t h)) (timers p))
         (nextHandle p) (reported p).

(** [aftershot = setTimeout(..., 500)] *)
Definition setAftershot (p : Page) : Page :=
  mkPage (readyState p) (Some (nextHandle p)) (timers p ++ [nextHandle p])
         (S (nextHandle p)) (reported p).

(** [const handlePageLoad = () => { ... }] *)
Definition handlePageLoad (parse : JsSnapshot) (p : Page) : Page :=
  match readyState p with
  | Loading => p
  | _ =>
      if truthySnapshot parse then reportSnapshot parse p
      else
        let p := match aftershot p with
                 | Some h => clearTimeout h p
                 | None => p
                 end in
        setAftershot p
  end.

Definition step (p : Page) (ev : DocEvent) : Page :=
  match ev with
  | ReadyStateChange rs parse =>
      handlePageLoad parse
        (mkPage rs (aftershot p) (timers p) (nextHandle p) (reported p))
  | Load parse => handlePageLoad parse p
  | TimerFires h parse =>
      if bool_decide (h ∈ timers p) then reportSnapshot parse (clearTimeout h p)
      else p
  end.

Definition run (events : list DocEvent) : Page := fold_left step events newDocument.

Definition isTimerFires (ev : DocEvent) : bool :=
  match ev with TimerFires _ _ => true | _ => false end.

(** The event calls [handlePageLoad] on a document that is no longer
    loading and has no article yet. *)
Definition findsNothing (p : Page) (ev : DocEvent) : bool :=
  match ev with
  | ReadyStateChange Loading _ => false
  | ReadyStateChange _ parse => negb (truthySnapshot parse)
  | Load parse =>
      match readyState p with
      | Loading => false
      | _ => negb (truthySnapshot parse)
      end
  | TimerFires _ _ => false
  end.

(** The event leaves the document in the [loading] state. *)
Definition staysLoading (ev : DocEvent) : bool :=
  match ev with
  | ReadyStateChange Loading _ | Load _ | TimerFires _ _ => true
  | ReadyStateChange _ _ => false
  end.

(** The pending timers: none, or the one [aftershot] names. *)
Definition oneAftershot (p : Page) : Prop :=
  (timers p = [] \/ exists h, timers p = [h] /\ aftershot p = Some h)
  /\ (0 < nextHandle p)%nat
  /\ (forall h, aftershot p = Some h -> (0 < h < nextHandle p)%nat).

Lemma oneAftershot_newDocument : oneAftershot newDocument.
Proof.
  split; [ now left | ]. split; [ cbn; lia | ]. intros h H. discriminate H.
Qed.

Lemma filter_neq_singleton (h : nat) :
  List.filter (fun t => negb (Nat.eqb t h)) [h] = [].
Proof. cbn. now rewrite Nat.eqb_refl. Qed.

Lemma oneAftershot_rearm (p : Page) :
  oneAftershot p ->
  oneAftershot (setAftershot (match aftershot p with
                              | Some h => clearTimeout h p
                              | None => p
                              end)).
Proof.
  intros (Ht & Hpos & Ha).
  set (q := match aftershot p with Some h => clearTimeout h p | None => p end).
  assert (timers q = []) as Hq.
  { unfold q. destruct Ht as [Ht | (h & Ht & Hh)].
    - destruct (aftershot p); cbn; rewrite Ht; reflexivity.
    - rewrite Hh. cbn. rewrite Ht. apply filter_neq_singleton. }
  assert (nextHandle q = nextHandle p) as Hn
      by (unfold q; destruct (aftershot p); reflexivity).
  unfold oneAftershot, setAftershot. cbn. rewrite Hq, Hn. cbn.
  split; [ right; eexists; split; reflexivity | ].
  split; [ lia | ]. intros h Hh. injection Hh as <-. lia.
Qed.

Lemma handlePageLoad_oneAftershot (parse : JsSnapshot) (p : Page) :
  oneAftershot p -> oneAftershot (handlePageLoad parse p).
Proof.
  intros H. unfold handlePageLoad.
  destruct (readyState p); [ exact H | | ];
    (destruct (truthySnapshot parse); [ exact H | now apply oneAftershot_rearm ]).
Qed.

Lemma step_oneAftershot (p : Page) (ev : DocEvent) :
  oneAftershot p -> oneAftershot (step p ev).
Proof.
  intros H. destruct ev as [rs parse | parse | h parse]; cbn [step].
  - apply handlePageLoad_oneAftershot. exact H.
  - apply handlePageLoad_oneAftershot. exact H.
  - destruct (bool_decide_reflect (h ∈ timers p)) as [Hin | Hin]; [ | exact H ].
    destruct H as (Ht & Hpos & Ha).
    destruct Ht as [Ht | (h' & Ht & Hh)];
      [ rewrite Ht in Hin; now apply not_elem_of_nil in Hin | ].
    rewrite Ht in Hin. apply list_elem_of_singleton in Hin. subst h'.
    split; [ left; cbn; rewrite Ht; apply filter_neq_singleton | ].
    split; [ exact Hpos | exact Ha ].
Qed.

Lemma run_snoc (events : list DocEvent) (ev : DocEvent) :
  run (events ++ [ev]) = step (run events) ev.
Proof. unfold run. now rewrite fold_left_app. Qed.

Lemma run_oneAftershot (events : list DocEvent) : oneAftershot (run events).
Proof.
  induction events as [|ev events IH] using rev_ind.
  - apply oneAftershot_newDocument.
  - rewrite run_snoc. now apply step_oneAftershot.
Qed.

Lemma run_loading (events : list DocEvent) :
  forallb staysLoading events = true -> run events = newDocument.
Proof.
  induction events as [|ev events IH] using rev_ind; intros H; [ reflexivity | ].
  rewrite forallb_app in H. apply andb_true_iff in H as [H1 H2].
  rewrite run_snoc, (IH H1). cbn in H2. rewrite andb_true_r in H2.
  destruct ev as [[| |] parse | parse | h parse]; try discriminate; reflexivity.
Qed.

Lemma run_reports_articles (events : list DocEvent) :
  forallb (fun ev => negb (isTimerFires ev)) events = true ->
  Forall (fun s => truthySnapshot s = true) (reported (run events)).
Proof.
  induction events as [|ev events IH] using rev_ind; intros H; [ constructor | ].
  rewrite forallb_app in H. apply andb_true_iff in H as [H1 H2].
  rewrite run_snoc. specialize (IH H1).
  assert (forall parse p,
             Forall (fun s => truthySnapshot s = true) (reported p) ->
             Forall (fun s => truthySnapshot s = true)
                    (reported (handlePageLoad parse p))) as Hh.
  { intros parse p Hp. unfold handlePageLoad.
    destruct (readyState p); [ exact Hp | | ];
      (destruct (truthySnapshot parse) eqn:E;
       [ cbn; apply Forall_app; split; [ exact Hp | now constructor ]
       | destruct (aftershot p); exact Hp ]). }
  destruct ev as [rs parse | parse | h parse]; cbn [step].
  - apply Hh. exact IH.
  - apply Hh. exact IH.
  - discriminate H2.
Qed.

Lemma step_rearms (p : Page) (ev : DocEvent) :
  oneAftershot p -> findsNothing p ev = true ->
  timers (step p ev) = [nextHandle p]
  /\ aftershot (step p ev) = Some (nextHandle p)
  /\ reported (step p ev) = reported p.
Proof.
  intros Hinv Hf.
  assert (forall parse q,
             oneAftershot q -> readyState q <> Loading ->
             truthySnapshot parse = false ->
             timers (handlePageLoad parse q) = [nextHandle q]
             /\ aftershot (handlePageLoad parse q) = Some (nextHandle q)
             /\ reported (handlePageLoad parse q) = reported q) as Hh.
  { intros parse q (Ht & _ & _) Hr Hp. unfold handlePageLoad. rewrite Hp.
    assert (timers (match aftershot q with
                    | Some h => clearTimeout h q
                    | None => q
                    end) = []) as Hq.
    { destruct Ht as [Ht | (h & Ht & Hh)].
      - destruct (aftershot q); cbn; rewrite Ht; reflexivity.
      - rewrite Hh. cbn. rewrite Ht. apply filter_neq_singleton. }
    destruct (readyState q); [ contradiction | | ];
      cbn [setAftershot timers aftershot reported]; rewrite Hq;
      destruct (aftershot q); auto. }
  destruct ev as [rs parse | parse | h parse]; cbn [step findsNothing] in *.
  - destruct rs; [ discriminate | | ];
      (apply (Hh parse (mkPage _ (aftershot p) (timers p) (nextHandle p) (reported p)));
       [ exact Hinv | discriminate | now apply negb_true_iff ]).
  - destruct (readyState p) eqn:E; [ discriminate | | ];
      (apply Hh; [ exact Hinv | congruence | now apply negb_true_iff ]).
  - discriminate.
Qed.

(** X7.  The script installed in every page debounces its late
    report.  At any moment at most one aftershot timer is pending, with
    the handle [aftershot] holds; an event that finds the document
    loaded but without an article cancels the pending timer, sets a new
    one and reports nothing.  Until the document leaves the [loading]
    state nothing is reported and no timer is set.  A report made by
    the event handler itself is always an article: only a timer can
    report [null]. *)
Theorem page_script_debounces (events : list DocEvent) :
  ((length (timers (run events)) <= 1)%nat
   /\ forall h, h ∈ timers (run events) -> aftershot (run events) = Some h)
  /\ (forall ev, findsNothing (run events) ev = true ->
                 timers (run (events ++ [ev])) = [nextHandle (run events)]
                 /\ reported (run (events ++ [ev])) = reported (run events))
  /\ (forallb staysLoading events = true ->
      reported (run events) = [] /\ timers (run events) = [])
  /\ (forallb (fun ev => negb (isTimerFires ev)) events = true ->
      Forall (fun s => truthySnapshot s = true) (reported (run events))).
Proof.
  pose proof (run_oneAftershot events) as Hinv.
  split; [ | split; [ | split ] ].
  - destruct Hinv as ([Ht | (h & Ht & Hh)] & _ & _); rewrite Ht; cbn.
    + split; [ lia | ]. intros h Hin. now apply not_elem_of_nil in Hin.
    + split; [ lia | ]. intros h' Hin. apply list_elem_of_singleton in Hin. now subst h'.
  - intros ev Hf. rewrite run_snoc.
    destruct (step_rearms _ _ Hinv Hf) as (H1 & _ & H3). auto.
  - intros H. now rewrite (run_loading _ H).
  - apply run_reports_articles.
Qed.

(** Three fruitless load events and one timer: the two earlier timers
    were cancelled, so a single [null] is reported. *)
Example burst_reports_once :
  reported (run [ ReadyStateChange Interactive SNull; ReadyStateChange Complete SNull;
                  Load SNull; TimerFires 1 SNull; TimerFires 2 SNull;
                  TimerFires 3 SNull ])
  = [SNull].
Proof. reflexivity. Qed.

End PageScript.

(* ===================================================================== *)
(** * 5. Nightly cruncher ([DataCrunchingHost]) *)
(* ===================================================================== *)

Module Cruncher.

(** [Number.prototype.toString] of an integer below 1e21: plain decimal. *)
Definition showZ (n : Z) : string :=
  NilEmpty.string_of_int (Z.to_int n).

(** ** A model of [dayjs.utc(...).format('YYYY-MM-DD')]

    A [dayjs] value at the start of a UTC day is represented by its day
    number (days since 1970-01-01).  The conversion to a civil date is
    the usual era-based algorithm of the proleptic Gregorian calendar. *)
Definition civil_from_days (days : Z) : Z * Z * Z :=
  let z := days + 719468 in
  let era := z / 146097 in
  let doe := z - era * 146097 in
  let yoe := (doe - doe / 1460 + doe / 36524 - doe / 146096) / 365 in
  let y := yoe + era * 400 in
  let doy := doe - (365 * yoe + yoe / 4 - yoe / 100) in
  let mp := (5 * doy + 2) / 153 in
  let d := doy - (153 * mp + 2) / 5 + 1 in
  let m := if mp <? 10 then mp + 3 else mp - 9 in
  (if m <=? 2 then y + 1 else y, m, d).

Fixpoint zeros (n : nat) : string :=
  match n with
  | O => ""
  | S n' => String "0"%char (zeros n')
  end.

(** [String(n).padStart(width, '0')] *)
Definition padStart (width : nat) (s : string) : string :=
  zeros (width - String.length s) +:+ s.

Definition format_YYYY_MM_DD (days : Z) : string :=
  let '(y, m, d) := civil_from_days days in
  padStart 4 (showZ y) +:+ "-" +:+ padStart 2 (showZ m) +:+ "-" +:+ padStart 2 (showZ d).

(** ** Records and configuration *)

Record Crawled : Type := mkCrawled {
  _id : string;
  createdAt : Z          (* milliseconds since the epoch *)
}.

Definition pageCacheCrunchingPrefix : string := "crunched-pages".
Definition pageCacheCrunchingBatchSize : Z := 10000.
Definition pageCacheCrunchingTMinus : Z := 31 * 24 * 60 * 60 * 1000.
Definition rev : Z := 2.

Definition msPerDay : Z := 24 * 60 * 60 * 1000.

(** [dayjs().utc().startOf('day')] as a day number. *)
Definition startOfToday (now : Z) : Z := now / msPerDay.

(** [dayjs().utc().subtract(this.pageCacheCrunchingTMinus, 'ms').startOf('day')] *)
Definition startingPoint (now : Z) : Z :=
  (now - pageCacheCrunchingTMinus) / msPerDay.

(** Object storage: file name to content, the content being the lines
    of the uploaded [.jsonl] file. *)
Record Run : Type := mkRun {
  store : gmap string (list string);
  uploads : list (string * list string);   (* bucket.file(name).save(...) *)
  queries : list (Z * Z);                  (* Firestore queries: day, offset *)
  sse : list string                        (* progress events *)
}.

(** The night of the examples: 2024-05-02, 00:02 UTC. *)
Definition demo_now : Z := 19845 * msPerDay + 2 * 60 * 1000.

Definition demo_line (r : Crawled) : option string :=
  Some ("{" +:+ _id r +:+ "}").

(** A night on which, within a batch, the download started last
    completes first. *)
Definition demo_order (records : list Crawled) : list Crawled :=
  reverse records.

(** Three pages crawled on 2024-04-30, two of them on 2024-05-01. *)
Definition demo_db : list Crawled :=
  [ mkCrawled "a" (19843 * msPerDay + 5); mkCrawled "b" (19843 * msPerDay + 9);
    mkCrawled "c" (19843 * msPerDay + 11); mkCrawled "d" (19844 * msPerDay);
    mkCrawled "e" (19844 * msPerDay + 86399999) ].

(** 24 999 pages crawled on 2024-05-01, one per millisecond. *)
Fixpoint crawl_every_ms (n : nat) (t : Z) : list Crawled :=
  match n with
  | O => []
  | S n' => mkCrawled "p" t :: crawl_every_ms n' (t + 1)
  end.

Definition busy_db : list Crawled :=
  crawl_every_ms (Z.to_nat 24999) (19844 * msPerDay).

Section WithEnvironment.

(** [theDay.format('YYYY-MM-DD')] *)
Variable formatDay : Z -> string.

(** [Crawled.COLLECTION], in [createdAt] order. *)
Variable db : list Crawled.

(** Download of [snapshots/<_id>], [JSON.parse], [formatSnapshot]
    ('default', then 'markdown' when the content is empty) and
    [JSON.stringify({url, html, content})].  [None] when the record
    gives no line: the download is rejected (the [then] callback does
    not run) or parsing or formatting throws (the [catch] block logs a
    warning). *)
Variable crunchLine : Crawled -> option string.

(** The records of a batch in the order in which their downloads
    complete.  The [for] loop of [crunchCacheRecords] starts the
    downloads in record order, at most 100 at a time, without awaiting
    them; each [then] callback formats its snapshot and appends its
    line when its own download has completed. *)
Variable completionOrder : list Crawled -> list Crawled.

(** The template literal
    [`${prefix}/r${rev}/${theDay.format('YYYY-MM-DD')}-${counter ? counter : '00000'}.jsonl`] *)
Definition offsetLabel (counter : Z) : string :=
  if counter =? 0 then "00000" else showZ counter.

Definition fileNameOf (theDay counter : Z) : string :=
  pageCacheCrunchingPrefix +:+ "/r" +:+ showZ rev +:+ "/"
    +:+ formatDay theDay +:+ "-" +:+ offsetLabel counter +:+ ".jsonl".

Definition dayRecords (theDay : Z) : list Crawled :=
  let dayStart := theDay * msPerDay in          (* theDay.toDate() *)
  let dayEnd := (theDay + 1) * msPerDay in      (* theDay.add(1, 'day').toDate() *)
  List.filter (fun r => (dayStart <=? createdAt r) && (createdAt r <? dayEnd)) db.

(** [.where('createdAt', '>=', theDay).where('createdAt', '<', theDay + 1 day)
     .orderBy('createdAt', 'asc').offset(offset).limit(batchSize)] *)
Definition query (theDay offset : Z) : list Crawled :=
  take (Z.to_nat pageCacheCrunchingBatchSize)
       (drop (Z.to_nat offset) (dayRecords theDay)).

(** [crunchCacheRecords]: one line per record whose snapshot could be
    formatted, appended to the file as the downloads complete;
    [await throttle.nextDrain()] lets the last callback finish before
    the file is closed. *)
Definition crunchCacheRecords (records : list Crawled) : list string :=
  omap crunchLine (completionOrder records).

(** Every download of a batch settles, and settles once: the order of
    completion is an arrangement of the records of the batch. *)
Definition settlesOnce : Prop :=
  forall records : list Crawled, completionOrder records ≡ₚ records.

Definition fileExists (fileName : string) (r : Run) : bool :=
  bool_decide (is_Some (store r !! fileName)).

Definition sse_write (data : string) (r : Run) : Run :=
  mkRun (store r) (uploads r) (queries r) (sse r ++ [data]).

Definition log_query (theDay offset : Z) (r : Run) : Run :=
  mkRun (store r) (uploads r) (queries r ++ [(theDay, offset)]) (sse r).

(** Body of [for await (const { fileName, records } of ...)]. *)
Definition crunch_and_upload (fileName : string) (records : list Crawled)
           (r : Run) : Run :=
  let r := sse_write ("Crunching " +:+ fileName +:+ "...") r in
  let fileOnDrive := crunchCacheRecords records in
  mkRun (<[fileName := fileOnDrive]> (store r))
        (uploads r ++ [(fileName, fileOnDrive)]) (queries r) (sse r).

(** The [while (theDay.isBefore(startOfToday))] loop of
    [iterPageCacheCrunching], with the consumer's loop body inlined at
    the [yield]: the generator is resumed only after the upload has
    completed. *)
Fixpoint crunchLoop (fuel : nat) (today theDay counter : Z) (r : Run)
  : option Run :=
  match fuel with
  | O => None
  | S fuel' =>
      if theDay <? today then
        let fileName := fileNameOf theDay counter in
        let offset := counter in
        let counter := counter + pageCacheCrunchingBatchSize in
        if fileExists fileName r then
          crunchLoop fuel' today theDay counter r
        else
          let records := query theDay offset in
          let r := log_query theDay offset r in
          if (length records =? 0)%nat then
            crunchLoop fuel' today (theDay + 1) 0 r
          else
            crunchLoop fuel' today theDay counter
                       (crunch_and_upload fileName records r)
      else Some r
  end.

Definition crunchPageCache (fuel : nat) (now : Z)
           (storage : gmap string (list string)) : option Run :=
  let r := sse_write "Crunching page cache..." (mkRun storage [] [] []) in
  match crunchLoop fuel (startOfToday now) (startingPoint now) 0 r with
  | Some r => Some (sse_write "Crunching page cache done." r)
  | None => None
  end.

(** A day is saturated when every batch of it either has its file in
    storage or is empty. *)
Definition saturated_day (st : gmap string (list string)) (theDay : Z) : Prop :=
  forall j, 0 <= j ->
    is_Some (st !! fileNameOf theDay (j * pageCacheCrunchingBatchSize))
    \/ query theDay (j * pageCacheCrunchingBatchSize) = [].

(** The progress event written before an upload. *)
Definition progressOf (u : string * list string) : string :=
  "Crunching " +:+ u.1 +:+ "...".

(** The order in which the loop visits (day, offset) pairs. *)
Definition before (a b : Z * Z) : Prop :=
  a.1 < b.1 \/ (a.1 = b.1 /\ a.2 < b.2).

Fixpoint ordered (l : list (Z * Z)) : Prop :=
  match l with
  | [] => True
  | a :: rest => Forall (before a) rest /\ ordered rest
  end.

(** The batches of a day: as many as it takes to hold its records. *)
Definition batchCount (theDay : Z) : nat :=
  Z.to_nat ((Z.of_nat (length (dayRecords theDay)) + 9999) / 10000).

Definition batchOf (theDay : Z) (j : nat) : string * list string :=
  (fileNameOf theDay (Z.of_nat j * 10000),
   crunchCacheRecords (query theDay (Z.of_nat j * 10000))).

Definition dayBatches (theDay : Z) : list (string * list string) :=
  List.map (batchOf theDay) (seq 0 (batchCount theDay)).

(** The days a run looks at: the 31 days from the starting point on. *)
Definition windowDays (now : Z) : list Z :=
  List.map (fun i => startingPoint now + Z.of_nat i) (seq 0 31).

(** What a stretch of the loop adds to a run. *)
Record extends (r0 r : Run) (new : list (string * list string)) : Prop := mkExtends {
  ext_uploads : uploads r = uploads r0 ++ new;
  ext_sse : sse r = sse r0 ++ List.map progressOf new;
  ext_nodup : NoDup new.*1;
  ext_fresh : forall n l, (n, l) ∈ new -> store r0 !! n = None /\ store r !! n = Some l;
  ext_kept : forall n, n ∉ new.*1 -> store r !! n = store r0 !! n
}.

(** ** File names *)

Lemma string_length_app (s t : string) :
  String.length (s +:+ t) = (String.length s + String.length t)%nat.
Proof. induction s as [|a s IH]; simpl; [ reflexivity | now rewrite IH ]. Qed.

Lemma append_inv_tail (t s1 s2 : string) :
  s1 +:+ t = s2 +:+ t -> s1 = s2.
Proof.
  revert s2. induction s1 as [|a s1 IH]; intros [|b s2] H; simpl in *.
  - reflexivity.
  - apply (f_equal String.length) in H.
    rewrite ?string_length_app in H. simpl in H.
    rewrite ?string_length_app in H. lia.
  - apply (f_equal String.length) in H.
    rewrite ?string_length_app in H. simpl in H.
    rewrite ?string_length_app in H. lia.
  - injection H as -> H. f_equal. apply IH, H.
Qed.

Lemma showZ_inj (a b : Z) : showZ a = showZ b -> a = b.
Proof.
  unfold showZ. intros H.
  apply (f_equal NilEmpty.int_of_string) in H.
  rewrite !NilEmpty.isi in H. injection H as H.
  rewrite <- (DecimalZ.of_to a), <- (DecimalZ.of_to b). now rewrite H.
Qed.

Lemma showZ_five_zeros (b : Z) : showZ b = "00000" -> b = 0.
Proof.
  unfold showZ. intros H.
  apply (f_equal NilEmpty.int_of_string) in H.
  rewrite NilEmpty.isi in H.
  set (rhs := NilEmpty.int_of_string "00000") in H.
  vm_compute in rhs. subst rhs. injection H as H.
  rewrite <- (DecimalZ.of_to b), H. reflexivity.
Qed.

Lemma offsetLabel_inj (a b : Z) : offsetLabel a = offsetLabel b -> a = b.
Proof.
  unfold offsetLabel.
  destruct (Z.eqb_spec a 0) as [-> | Ha], (Z.eqb_spec b 0) as [-> | Hb]; intros H.
  - reflexivity.
  - symmetry in H. now apply showZ_five_zeros in H.
  - now apply showZ_five_zeros in H.
  - now apply showZ_inj.
Qed.

Lemma fileNameOf_inj_counter (theDay a b : Z) :
  fileNameOf theDay a = fileNameOf theDay b -> a = b.
Proof.
  unfold fileNameOf. intros H.
  repeat (apply String.app_inj in H).
  apply append_inv_tail in H. now apply offsetLabel_inj.
Qed.

(** ** One pass of the loop *)

Lemma crunchLoop_S (fuel : nat) (today theDay counter : Z) (r : Run) :
  crunchLoop (S fuel) today theDay counter r =
  if theDay <? today then
    if fileExists (fileNameOf theDay counter) r then
      crunchLoop fuel today theDay (counter + pageCacheCrunchingBatchSize) r
    else if (length (query theDay counter) =? 0)%nat then
      crunchLoop fuel today (theDay + 1) 0 (log_query theDay counter r)
    else
      crunchLoop fuel today theDay (counter + pageCacheCrunchingBatchSize)
        (crunch_and_upload (fileNameOf theDay counter) (query theDay counter)
                           (log_query theDay counter r))
  else Some r.
Proof. reflexivity. Qed.

Lemma fileExists_true (n : string) (r : Run) :
  fileExists n r = true <-> is_Some (store r !! n).
Proof. unfold fileExists. apply bool_decide_eq_true. Qed.

Lemma fileExists_false (n : string) (r : Run) :
  fileExists n r = false <-> store r !! n = None.
Proof.
  unfold fileExists. rewrite bool_decide_eq_false, <- eq_None_not_Some.
  reflexivity.
Qed.

Lemma query_empty_iff (theDay c : Z) :
  (length (query theDay c) =? 0)%nat = true <->
  (length (dayRecords theDay) <= Z.to_nat c)%nat.
Proof.
  unfold query. rewrite Nat.eqb_eq, length_take, length_drop.
  unfold pageCacheCrunchingBatchSize. lia.
Qed.

Lemma query_empty_nil (theDay c : Z) :
  (length (query theDay c) =? 0)%nat = true -> query theDay c = [].
Proof. rewrite Nat.eqb_eq. apply nil_length_inv. Qed.

Lemma query_beyond_end (theDay c c' : Z) :
  (length (query theDay c) =? 0)%nat = true -> c <= c' ->
  query theDay c' = [].
Proof.
  intros H Hc. apply query_empty_nil, query_empty_iff.
  apply query_empty_iff in H. lia.
Qed.

(** ** Termination: a pass over one day ends, and so does the job *)

Lemma day_pass_terminates (today theDay : Z) :
  theDay < today ->
  forall (m : nat) (c : Z) (r : Run) (X : gset string),
    0 <= c ->
    (size X + length (drop (Z.to_nat c) (dayRecords theDay)) <= m)%nat ->
    (forall c', c <= c' -> is_Some (store r !! fileNameOf theDay c') ->
                fileNameOf theDay c' ∈ X) ->
    exists (k : nat) (r' : Run),
      forall f, crunchLoop (k + f) today theDay c r
                = crunchLoop f today (theDay + 1) 0 r'.
Proof.
  intros Hd. apply Z.ltb_lt in Hd.
  induction m as [|m IH]; intros c r X Hc Hm HX.
  - (* nothing exists at or after [c], no record at or after [c] *)
    exists 1%nat, (log_query theDay c r). intros f.
    change (1 + f)%nat with (S f). rewrite crunchLoop_S, Hd.
    destruct (fileExists _ r) eqn:E.
    + apply fileExists_true, (HX c) in E; [ | lia ].
      assert (size X = 0%nat) as H0 by lia.
      apply size_empty_inv in H0. set_solver.
    + assert ((length (query theDay c) =? 0)%nat = true) as ->; [ | reflexivity ].
      apply query_empty_iff. rewrite length_drop in Hm. lia.
  - destruct (fileExists (fileNameOf theDay c) r) eqn:E.
    + (* the file exists: skip *)
      pose proof E as Hin. apply fileExists_true, (HX c) in Hin; [ | lia ].
      destruct (IH (c + pageCacheCrunchingBatchSize) r (X ∖ {[fileNameOf theDay c]}))
        as (k & r' & Hk).
      * unfold pageCacheCrunchingBatchSize. lia.
      * assert (size (X ∖ {[fileNameOf theDay c]}) = (size X - 1)%nat) as ->.
        { rewrite size_difference by set_solver. now rewrite size_singleton. }
        assert (size X <> 0%nat).
        { intros H0. apply size_empty_inv in H0. set_solver. }
        rewrite !length_drop in *. unfold pageCacheCrunchingBatchSize. lia.
      * intros c' Hc' Hs. apply elem_of_difference. split.
        -- apply HX; [ unfold pageCacheCrunchingBatchSize in Hc'; lia | exact Hs ].
        -- intros Heq. apply elem_of_singleton in Heq.
           apply fileNameOf_inj_counter in Heq.
           unfold pageCacheCrunchingBatchSize in Hc'. lia.
      * exists (S k), r'. intros f. change (S k + f)%nat with (S (k + f)).
        rewrite crunchLoop_S, Hd, E. apply Hk.
    + destruct ((length (query theDay c) =? 0)%nat) eqn:Q.
      * exists 1%nat, (log_query theDay c r). intros f.
        change (1 + f)%nat with (S f). now rewrite crunchLoop_S, Hd, E, Q.
      * (* a batch is uploaded *)
        destruct (IH (c + pageCacheCrunchingBatchSize)
                     (crunch_and_upload (fileNameOf theDay c) (query theDay c)
                                        (log_query theDay c r)) X)
          as (k & r' & Hk).
        -- unfold pageCacheCrunchingBatchSize. lia.
        -- assert (~ (length (dayRecords theDay) <= Z.to_nat c)%nat) as Hne.
           { rewrite <- query_empty_iff, Q. discriminate. }
           rewrite !length_drop in *. unfold pageCacheCrunchingBatchSize. lia.
        -- intros c' Hc' Hs. apply HX.
           ++ unfold pageCacheCrunchingBatchSize in Hc'. lia.
           ++ simpl in Hs. rewrite lookup_insert_ne in Hs; [ exact Hs | ].
              intros Heq. apply fileNameOf_inj_counter in Heq.
              unfold pageCacheCrunchingBatchSize in Hc'. lia.
        -- exists (S k), r'. intros f. change (S k + f)%nat with (S (k + f)).
           rewrite crunchLoop_S, Hd, E, Q. apply Hk.
Qed.

Lemma crunchLoop_terminates (today : Z) :
  forall (n : nat) (theDay : Z) (r : Run),
    today - theDay <= Z.of_nat n ->
    exists (fuel : nat) (r' : Run), crunchLoop fuel today theDay 0 r = Some r'.
Proof.
  induction n as [|n IH]; intros theDay r Hn.
  - exists 1%nat, r. rewrite crunchLoop_S.
    assert ((theDay <? today) = false) as -> by (apply Z.ltb_ge; lia).
    reflexivity.
  - destruct (Z.ltb_spec theDay today) as [Hlt | Hge].
    + destruct (day_pass_terminates today theDay Hlt
                  (size (dom (store r)) + length (drop (Z.to_nat 0) (dayRecords theDay)))
                  0 r (dom (store r))) as (k & r1 & Hk).
      * lia.
      * lia.
      * intros c' _ Hs. now apply elem_of_dom.
      * destruct (IH (theDay + 1) r1) as (f & r' & Hf); [ lia | ].
        exists (k + f)%nat, r'. now rewrite Hk.
    + exists 1%nat, r. rewrite crunchLoop_S.
      assert ((theDay <? today) = false) as -> by (apply Z.ltb_ge; lia).
    reflexivity.
Qed.

(** ** Idempotence *)

Lemma saturated_day_insert (st : gmap string (list string)) (theDay : Z)
      (n : string) (v : list string) :
  saturated_day st theDay -> saturated_day (<[n := v]> st) theDay.
Proof.
  intros H j Hj. destruct (H j Hj) as [Hs | Hq]; [ left | right; exact Hq ].
  apply lookup_insert_is_Some'. right. exact Hs.
Qed.

Lemma run_saturates (today start : Z) :
  forall (fuel : nat) (theDay c : Z) (r r' : Run),
    crunchLoop fuel today theDay c r = Some r' ->
    (forall d, start <= d < theDay -> saturated_day (store r) d) ->
    (exists j, 0 <= j /\ c = j * pageCacheCrunchingBatchSize
               /\ forall i, 0 <= i < j ->
                    is_Some (store r !! fileNameOf theDay (i * pageCacheCrunchingBatchSize))) ->
    forall d, start <= d < today -> saturated_day (store r') d.
Proof.
  induction fuel as [|fuel IH]; intros theDay c r r' Hrun Hprev (j & Hj & -> & Hfiles);
    [ discriminate | ].
  rewrite crunchLoop_S in Hrun. destruct (Z.ltb_spec theDay today) as [Hlt | Hge].
  2: { injection Hrun as <-. intros d Hd. apply Hprev. lia. }
  destruct (fileExists _ r) eqn:E.
  - eapply IH; [ exact Hrun | exact Hprev | ].
    exists (j + 1). split; [ lia | ]. split; [ lia | ].
    intros i Hi. destruct (decide (i = j)) as [-> | Hne].
    + apply fileExists_true, E.
    + apply Hfiles. lia.
  - destruct ((length (query theDay (j * pageCacheCrunchingBatchSize)) =? 0)%nat) eqn:Q.
    + eapply IH; [ exact Hrun | | ].
      * intros d Hd. cbn [store log_query].
        destruct (decide (d = theDay)) as [-> | Hne]; [ | apply Hprev; lia ].
        intros i Hi. destruct (Z.lt_ge_cases i j) as [Hij | Hij].
        -- left. apply Hfiles. lia.
        -- right. eapply query_beyond_end; [ exact Q | ].
           unfold pageCacheCrunchingBatchSize. lia.
      * exists 0. split; [ lia | ]. split; [ reflexivity | ]. intros i Hi. lia.
    + eapply IH; [ exact Hrun | | ].
      * intros d Hd. cbn [store crunch_and_upload sse_write log_query].
        apply saturated_day_insert, Hprev. lia.
      * exists (j + 1). split; [ lia | ]. split; [ lia | ].
        intros i Hi. cbn [store crunch_and_upload sse_write log_query].
        apply lookup_insert_is_Some'.
        destruct (decide (i = j)) as [-> | Hne]; [ left; reflexivity | right ].
        apply Hfiles. lia.
Qed.

Lemma saturated_noop (today : Z) :
  forall (fuel : nat) (theDay c : Z) (r r' : Run),
    crunchLoop fuel today theDay c r = Some r' ->
    (forall d, theDay <= d < today -> saturated_day (store r) d) ->
    (exists j, 0 <= j /\ c = j * pageCacheCrunchingBatchSize) ->
    store r' = store r
    /\ uploads r' = uploads r
    /\ forall d o, (d, o) ∈ queries r' ->
                   (d, o) ∈ queries r \/ store r !! fileNameOf d o = None.
Proof.
  induction fuel as [|fuel IH]; intros theDay c r r' Hrun Hsat (j & Hj & ->);
    [ discriminate | ].
  rewrite crunchLoop_S in Hrun. destruct (Z.ltb_spec theDay today) as [Hlt | Hge].
  2: { injection Hrun as <-. auto. }
  destruct (fileExists _ r) eqn:E.
  - eapply IH; [ exact Hrun | exact Hsat | ].
    exists (j + 1). split; lia.
  - destruct ((length (query theDay (j * pageCacheCrunchingBatchSize)) =? 0)%nat) eqn:Q.
    + apply IH in Hrun.
      * destruct Hrun as (Hs & Hu & Hq). cbn [store uploads queries log_query] in *.
        split; [ exact Hs | split; [ exact Hu | ] ].
        intros d o Hin. destruct (Hq d o Hin) as [H | H]; [ | right; exact H ].
        apply elem_of_app in H as [H | H]; [ left; exact H | right ].
        apply list_elem_of_singleton in H. injection H as -> ->.
        apply fileExists_false, E.
      * intros d Hd. apply Hsat. lia.
      * exists 0. split; [ lia | reflexivity ].
    + exfalso. destruct (Hsat theDay ltac:(lia) j Hj) as [Hs | Hq].
      * apply fileExists_true in Hs. congruence.
      * rewrite Hq in Q. discriminate.
Qed.

(** C7.  Running the job a second time over the same window, the same
    records and the storage left by the first run terminates, leaves
    the storage as it is and uploads nothing; every Firestore query of
    the second run is for a (day, offset) whose file does not exist, so
    pairs whose file exists are skipped without query or upload. *)
Theorem crunchPageCache_second_run_uploads_nothing
        (now : Z) (storage : gmap string (list string))
        (fuel : nat) (r1 : Run) :
  crunchPageCache fuel now storage = Some r1 ->
  exists (fuel2 : nat) (r2 : Run),
    crunchPageCache fuel2 now (store r1) = Some r2
    /\ store r2 = store r1
    /\ uploads r2 = []
    /\ forall d o, (d, o) ∈ queries r2 -> store r1 !! fileNameOf d o = None.
Proof.
  unfold crunchPageCache. intros H1.
  destruct (crunchLoop fuel _ _ 0 _) as [r1'|] eqn:Hrun1; [ | discriminate ].
  injection H1 as <-. cbn [store sse_write].
  set (r0 := sse_write _ (mkRun (store r1') [] [] [])).
  destruct (crunchLoop_terminates (startOfToday now)
              (Z.to_nat (startOfToday now - startingPoint now))
              (startingPoint now) r0 ltac:(lia)) as (fuel2 & r2 & Hrun2).
  exists fuel2, (sse_write "Crunching page cache done." r2).
  rewrite Hrun2. split; [ reflexivity | ].
  assert (forall d, startingPoint now <= d < startOfToday now ->
                    saturated_day (store r0) d) as Hsat.
  { change (store r0) with (store r1').
    eapply run_saturates; [ exact Hrun1 | intros d Hd; lia | ].
    exists 0. split; [ lia | ]. split; [ reflexivity | ]. intros i Hi. lia. }
  destruct (saturated_noop _ _ _ _ _ _ Hrun2 Hsat) as (Hs & Hu & Hq).
  { exists 0. split; [ lia | reflexivity ]. }
  cbn [store uploads queries sse_write]. split; [ exact Hs | ].
  split; [ exact Hu | ].
  intros d o Hin. destruct (Hq d o Hin) as [H | H]; [ | exact H ].
  cbn in H. apply elem_of_nil in H. contradiction.
Qed.

Lemma crunchPageCache_terminates (now : Z) (storage : gmap string (list string)) :
  exists (fuel : nat) (r : Run), crunchPageCache fuel now storage = Some r.
Proof.
  unfold crunchPageCache.
  destruct (crunchLoop_terminates (startOfToday now)
              (Z.to_nat (startOfToday now - startingPoint now))
              (startingPoint now)
              (sse_write "Crunching page cache..." (mkRun storage [] [] []))
              ltac:(lia)) as (fuel & r & Hrun).
  exists fuel, (sse_write "Crunching page cache done." r). now rewrite Hrun.
Qed.

(** ** Object names and batches *)

Lemma fileNameOf_shape (theDay j : Z) :
  fileNameOf theDay (j * 10000)
  = "crunched-pages/r2/" +:+ formatDay theDay +:+ "-"
      +:+ (if j =? 0 then "00000" else showZ (j * 10000)) +:+ ".jsonl".
Proof.
  unfold fileNameOf, offsetLabel.
  replace (j * 10000 =? 0) with (j =? 0); [ reflexivity | ].
  destruct (Z.eqb_spec j 0), (Z.eqb_spec (j * 10000) 0); lia.
Qed.

Lemma omap_all_length {A B} (f : A -> option B) (l : list A) :
  (forall x, x ∈ l -> is_Some (f x)) -> length (omap f l) = length l.
Proof.
  induction l as [|x l IH]; intros H.
  - reflexivity.
  - cbn. destruct (H x) as [y ->]; [ left | ]. cbn. f_equal.
    apply IH. intros z Hz. apply H. now right.
Qed.

Lemma crunchCacheRecords_length (records : list Crawled) :
  settlesOnce ->
  (forall x, x ∈ records -> is_Some (crunchLine x)) ->
  length (crunchCacheRecords records) = length records.
Proof.
  intros Hs H. unfold crunchCacheRecords. rewrite omap_all_length.
  - apply Permutation_length, Hs.
  - intros x Hx. apply H. now rewrite <- (Hs records).
Qed.

Lemma query_subseteq (theDay c : Z) (x : Crawled) :
  x ∈ query theDay c -> x ∈ dayRecords theDay.
Proof.
  unfold query. intros H. apply subseteq_take in H. now apply subseteq_drop in H.
Qed.

Lemma query_length (theDay c : Z) :
  0 <= c ->
  Z.of_nat (length (query theDay c))
  = Z.min 10000 (Z.max 0 (Z.of_nat (length (dayRecords theDay)) - c)).
Proof.
  intros Hc. unfold query. rewrite length_take, length_drop.
  unfold pageCacheCrunchingBatchSize. lia.
Qed.

Lemma uploads_shape (today : Z) :
  forall (fuel : nat) (theDay c : Z) (r r' : Run),
    crunchLoop fuel today theDay c r = Some r' ->
    (exists j, 0 <= j /\ c = j * 10000) ->
    forall u, u ∈ uploads r' ->
      u ∈ uploads r
      \/ exists d j, theDay <= d < today /\ 0 <= j
                     /\ u = (fileNameOf d (j * 10000),
                             crunchCacheRecords (query d (j * 10000))).
Proof.
  induction fuel as [|fuel IH]; intros theDay c r r' Hrun (j & Hj & ->) u Hu;
    [ discriminate | ].
  rewrite crunchLoop_S in Hrun. destruct (Z.ltb_spec theDay today) as [Hlt | Hge].
  2: { injection Hrun as <-. now left. }
  assert (exists j', 0 <= j' /\ j * 10000 + pageCacheCrunchingBatchSize = j' * 10000)
    as Hnext by (exists (j + 1); unfold pageCacheCrunchingBatchSize; lia).
  destruct (fileExists _ r) eqn:E.
  - destruct (IH _ _ _ _ Hrun Hnext u Hu) as [H | (d & j' & Hd & Hj' & ->)];
      [ now left | right; exists d, j'; split; [ lia | auto ] ].
  - destruct ((length (query theDay (j * 10000)) =? 0)%nat) eqn:Q.
    + destruct (IH _ _ _ _ Hrun (ex_intro _ 0 (conj (Z.le_refl 0) eq_refl)) u Hu)
        as [H | (d & j' & Hd & Hj' & ->)];
        [ now left | right; exists d, j'; split; [ lia | auto ] ].
    + destruct (IH _ _ _ _ Hrun Hnext u Hu) as [H | (d & j' & Hd & Hj' & ->)].
      * cbn [uploads crunch_and_upload sse_write log_query] in H.
        apply elem_of_app in H as [H | H]; [ now left | right ].
        apply list_elem_of_singleton in H. subst u.
        exists theDay, j. split; [ lia | auto ].
      * right. exists d, j'. split; [ lia | auto ].
Qed.

(** ** The job as a whole *)

Lemma crunchLoop_more_fuel (today : Z) :
  forall (fuel : nat) (theDay c : Z) (r r' : Run),
    crunchLoop fuel today theDay c r = Some r' ->
    forall k, crunchLoop (fuel + k) today theDay c r = Some r'.
Proof.
  induction fuel as [|fuel IH]; intros theDay c r r' H k; [ discriminate | ].
  change (S fuel + k)%nat with (S (fuel + k)). rewrite crunchLoop_S in *.
  destruct (theDay <? today); [ | exact H ].
  destruct (fileExists _ r); [ now apply IH | ].
  destruct (_ =? _)%nat; now apply IH.
Qed.

(** X8.  The job ends, whatever the storage, the records and the clock:
    the pass over a day stops at the first offset whose file is missing
    and whose query is empty, and storage holds finitely many files.
    From some amount of fuel on the result is always the same run. *)
Theorem crunchPageCache_always_completes (now : Z) (storage : gmap string (list string)) :
  exists (fuel : nat) (r : Run),
    forall fuel', (fuel <= fuel')%nat -> crunchPageCache fuel' now storage = Some r.
Proof.
  unfold crunchPageCache.
  destruct (crunchLoop_terminates (startOfToday now)
              (Z.to_nat (startOfToday now - startingPoint now))
              (startingPoint now)
              (sse_write "Crunching page cache..." (mkRun storage [] [] []))
              ltac:(lia)) as (fuel & r & Hrun).
  exists fuel, (sse_write "Crunching page cache done." r). intros fuel' Hle.
  replace fuel' with (fuel + (fuel' - fuel))%nat by lia.
  now rewrite (crunchLoop_more_fuel _ _ _ _ _ _ Hrun).
Qed.

Lemma extends_refl (r : Run) : extends r r [].
Proof.
  constructor; cbn; rewrite ?app_nil_r; try reflexivity.
  - apply NoDup_nil_2.
  - intros n l H. now apply elem_of_nil in H.
Qed.

Lemma extends_log_query (theDay c : Z) (r0 r : Run) (new : list (string * list string)) :
  extends (log_query theDay c r0) r new -> extends r0 r new.
Proof. intros [H1 H2 H3 H4 H5]. constructor; assumption. Qed.

Lemma extends_upload (fileName : string) (records : list Crawled) (theDay c : Z)
      (r0 r : Run) (new : list (string * list string)) :
  store r0 !! fileName = None ->
  extends (crunch_and_upload fileName records (log_query theDay c r0)) r new ->
  extends r0 r ((fileName, crunchCacheRecords records) :: new).
Proof.
  intros Hnone [H1 H2 H3 H4 H5].
  cbn [crunch_and_upload sse_write log_query uploads sse store] in *.
  assert (fileName ∉ new.*1) as Hnotin.
  { intros Hin. apply list_elem_of_fmap in Hin as ([n l] & -> & Hin).
    destruct (H4 _ _ Hin) as [Hn _]. cbn in Hn. now rewrite lookup_insert_eq in Hn. }
  constructor.
  - rewrite H1, <- app_assoc. reflexivity.
  - rewrite H2, <- !app_assoc. reflexivity.
  - cbn. apply NoDup_cons. split; assumption.
  - intros n l Hin. apply elem_of_cons in Hin as [Heq | Hin].
    + injection Heq as -> ->. split; [ exact Hnone | ].
      rewrite (H5 _ Hnotin). apply lookup_insert_eq.
    + destruct (H4 _ _ Hin) as [Hn Hs]. split; [ | exact Hs ].
      destruct (decide (n = fileName)) as [-> | Hne]; [ exact Hnone | ].
      now rewrite lookup_insert_ne in Hn.
  - intros n Hn. cbn in Hn. apply not_elem_of_cons in Hn as [Hne Hn].
    rewrite (H5 _ Hn). now apply lookup_insert_ne.
Qed.

Lemma crunchLoop_extends (today : Z) :
  forall (fuel : nat) (theDay c : Z) (r0 r : Run),
    crunchLoop fuel today theDay c r0 = Some r ->
    exists new, extends r0 r new.
Proof.
  induction fuel as [|fuel IH]; intros theDay c r0 r H; [ discriminate | ].
  rewrite crunchLoop_S in H. destruct (theDay <? today).
  2: { injection H as <-. exists []. apply extends_refl. }
  destruct (fileExists _ r0) eqn:E; [ now apply IH in H | ].
  apply fileExists_false in E.
  destruct (_ =? _)%nat.
  - apply IH in H as [new H]. exists new. eapply extends_log_query, H.
  - apply IH in H as [new H]. eexists. eapply extends_upload; [ exact E | exact H ].
Qed.

Lemma crunchPageCache_extends (fuel : nat) (now : Z)
      (storage : gmap string (list string)) (r : Run) :
  crunchPageCache fuel now storage = Some r ->
  extends (mkRun storage [] [] ["Crunching page cache..."])
          (mkRun (store r) (uploads r) (queries r) (removelast (sse r)))
          (uploads r)
  /\ last (sse r) = Some "Crunching page cache done.".
Proof.
  unfold crunchPageCache. intros H.
  destruct (crunchLoop fuel _ _ 0 _) as [r1|] eqn:Hrun; [ | discriminate ].
  injection H as <-. cbn [store uploads queries sse sse_write].
  rewrite removelast_last, last_snoc. split; [ | reflexivity ].
  apply crunchLoop_extends in Hrun as [new [H1 H2 H3 H4 H5]].
  cbn [uploads sse store sse_write app] in *. subst new.
  constructor; cbn; auto.
Qed.

(** X9.  A run never overwrites an object: the names it uploads are
    pairwise different, none of them was in storage when the run
    started, and afterwards storage holds exactly what it held before
    plus the uploaded files. *)
Theorem crunchPageCache_never_overwrites
        (fuel : nat) (now : Z) (storage : gmap string (list string)) (r : Run) :
  crunchPageCache fuel now storage = Some r ->
  NoDup (uploads r).*1
  /\ (forall n l, (n, l) ∈ uploads r -> storage !! n = None /\ store r !! n = Some l)
  /\ (forall n, n ∉ (uploads r).*1 -> store r !! n = storage !! n).
Proof.
  intros H. destruct (crunchPageCache_extends _ _ _ _ H) as [[_ _ H3 H4 H5] _].
  cbn in *. auto.
Qed.

(** X10.  The progress stream of a run names exactly its uploads, in
    order, between the opening and the closing event. *)
Theorem crunchPageCache_progress_events
        (fuel : nat) (now : Z) (storage : gmap string (list string)) (r : Run) :
  crunchPageCache fuel now storage = Some r ->
  sse r = ["Crunching page cache..."] ++ List.map progressOf (uploads r)
            ++ ["Crunching page cache done."].
Proof.
  intros H. destruct (crunchPageCache_extends _ _ _ _ H) as [[_ H2 _ _ _] Hlast].
  cbn [sse] in H2.
  destruct (sse r) as [|x l] eqn:E using rev_ind; [ discriminate Hlast | ].
  rewrite last_snoc in Hlast. injection Hlast as ->.
  rewrite removelast_last in H2. rewrite H2, <- app_assoc. reflexivity.
Qed.
(** ** A whole day *)

Lemma batchCount_spec (theDay : Z) (j : nat) :
  (j < batchCount theDay)%nat
  <-> Z.of_nat j * 10000 < Z.of_nat (length (dayRecords theDay)).
Proof.
  unfold batchCount. set (n := Z.of_nat (length (dayRecords theDay))).
  assert (0 <= n) by lia.
  pose proof (Z.div_mod (n + 9999) 10000 ltac:(lia)) as Hdm.
  pose proof (Z.mod_pos_bound (n + 9999) 10000 ltac:(lia)) as Hb.
  assert (0 <= (n + 9999) / 10000) by (apply Z.div_pos; lia).
  split; intros Hj; nia.
Qed.

Lemma query_nonempty (theDay : Z) (j : nat) :
  (length (query theDay (Z.of_nat j * 10000)) =? 0)%nat
  = negb (j <? batchCount theDay)%nat.
Proof.
  destruct (Nat.ltb_spec j (batchCount theDay)) as [Hlt | Hge]; cbn.
  - apply batchCount_spec in Hlt. apply Nat.eqb_neq. intros H0.
    apply Nat.eqb_eq, query_empty_iff in H0. lia.
  - apply query_empty_iff.
    assert (~ (j < batchCount theDay)%nat) as Hn by lia.
    rewrite batchCount_spec in Hn. lia.
Qed.

Lemma day_pass_fresh (today theDay : Z) :
  theDay < today ->
  forall (m j : nat) (r : Run),
    batchCount theDay = (j + m)%nat ->
    (forall c, Z.of_nat j * 10000 <= c -> store r !! fileNameOf theDay c = None) ->
    exists r',
      (forall f, crunchLoop (m + 1 + f) today theDay (Z.of_nat j * 10000) r
                 = crunchLoop f today (theDay + 1) 0 r')
      /\ uploads r' = uploads r ++ List.map (batchOf theDay) (seq j m)
      /\ (forall n, (forall c, n <> fileNameOf theDay c) ->
                    store r' !! n = store r !! n).
Proof.
  intros Hd. apply Z.ltb_lt in Hd.
  induction m as [|m IH]; intros j r Hcount Hfresh.
  - exists (log_query theDay (Z.of_nat j * 10000) r). split; [ | split ].
    + intros f. change (0 + 1 + f)%nat with (S f). rewrite crunchLoop_S, Hd.
      replace (fileExists _ r) with false
        by (symmetry; apply fileExists_false, Hfresh; lia).
      rewrite query_nonempty.
      replace (j <? batchCount theDay)%nat with false
        by (symmetry; apply Nat.ltb_ge; lia).
      reflexivity.
    + cbn. now rewrite app_nil_r.
    + intros n _. reflexivity.
  - set (c := Z.of_nat j * 10000).
    set (r1 := crunch_and_upload (fileNameOf theDay c) (query theDay c)
                                 (log_query theDay c r)).
    destruct (IH (S j) r1) as (r' & Hrun & Hup & Hstore); [ lia | | ].
    { intros c' Hc'. unfold r1. cbn [store crunch_and_upload sse_write log_query].
      rewrite lookup_insert_ne; [ apply Hfresh; lia | ].
      intros Heq. apply fileNameOf_inj_counter in Heq. unfold c in Heq. lia. }
    exists r'. split; [ | split ].
    + intros f. change (S m + 1 + f)%nat with (S (m + 1 + f)).
      rewrite crunchLoop_S, Hd.
      replace (fileExists _ r) with false
        by (symmetry; apply fileExists_false, Hfresh; lia).
      fold c. unfold c at 1. rewrite query_nonempty.
      replace (j <? batchCount theDay)%nat with true
        by (symmetry; apply Nat.ltb_lt; lia).
      cbn [negb]. fold c. fold r1.
      replace (c + pageCacheCrunchingBatchSize) with (Z.of_nat (S j) * 10000)
        by (unfold c, pageCacheCrunchingBatchSize; lia).
      apply Hrun.
    + rewrite Hup. unfold r1.
      cbn [uploads crunch_and_upload sse_write log_query seq List.map].
      rewrite <- app_assoc. reflexivity.
    + intros n Hn. rewrite (Hstore n Hn). unfold r1.
      cbn [store crunch_and_upload sse_write log_query].
      apply lookup_insert_ne. intros Heq. now apply (Hn c).
Qed.

Lemma concat_batches {A} (b : nat) (l : list A) :
  (0 < b)%nat ->
  forall (k j : nat),
    (length l <= (j + k) * b)%nat ->
    concat (List.map (fun i => take b (drop (i * b) l)) (seq j k)) = drop (j * b) l.
Proof.
  intros Hb. induction k as [|k IH]; intros j Hlen.
  - cbn. symmetry. apply drop_ge. lia.
  - cbn [seq List.map concat]. rewrite IH by lia.
    replace (S j * b)%nat with (j * b + b)%nat by lia.
    rewrite <- drop_drop. apply take_drop.
Qed.

Lemma omap_concat {A B} (f : A -> option B) (ls : list (list A)) :
  omap f (concat ls) = concat (List.map (omap f) ls).
Proof.
  induction ls as [|l ls IH]; [ reflexivity | ].
  cbn. now rewrite omap_app, IH.
Qed.

Lemma batches_cover (theDay : Z) :
  concat (List.map (fun j => omap crunchLine (query theDay (Z.of_nat j * 10000)))
                   (seq 0 (batchCount theDay)))
  = omap crunchLine (dayRecords theDay).
Proof.
  set (b := Z.to_nat pageCacheCrunchingBatchSize).
  assert (length (dayRecords theDay) <= (0 + batchCount theDay) * b)%nat as Hlen.
  { destruct (Nat.le_gt_cases (length (dayRecords theDay)) (batchCount theDay * b))
      as [H | H]; [ lia | exfalso ].
    assert (~ (batchCount theDay < batchCount theDay)%nat) as Hn by lia.
    rewrite batchCount_spec in Hn. unfold b, pageCacheCrunchingBatchSize in H. lia. }
  pose proof (concat_batches b (dayRecords theDay)
                ltac:(unfold b, pageCacheCrunchingBatchSize; lia)
                (batchCount theDay) 0 Hlen) as Hcat.
  rewrite drop_0 in Hcat.
  rewrite <- Hcat at 1. rewrite omap_concat, List.map_map. f_equal.
  apply map_ext_in. intros j _. unfold query.
  f_equal. fold b. f_equal. f_equal. unfold b, pageCacheCrunchingBatchSize. lia.
Qed.

Lemma concat_map_Permutation {A B} (f g : A -> list B) (l : list A) :
  (forall x, f x ≡ₚ g x) -> concat (List.map f l) ≡ₚ concat (List.map g l).
Proof.
  intros H. induction l as [|x l IH]; [ reflexivity | ].
  cbn. now rewrite (H x), IH.
Qed.

Lemma dayBatches_lines (theDay : Z) :
  concat (dayBatches theDay).*2
  = concat (List.map (fun j => crunchCacheRecords (query theDay (Z.of_nat j * 10000)))
                     (seq 0 (batchCount theDay))).
Proof.
  unfold dayBatches.
  change (concat (List.map (batchOf theDay) (seq 0 (batchCount theDay))).*2)
    with (concat (List.map snd (List.map (batchOf theDay) (seq 0 (batchCount theDay))))).
  rewrite List.map_map. reflexivity.
Qed.

(** Taken together, the files of a day hold the lines of the day's
    records, each as often as its record occurs. *)
Lemma dayBatches_cover (theDay : Z) :
  settlesOnce ->
  concat (dayBatches theDay).*2 ≡ₚ omap crunchLine (dayRecords theDay).
Proof.
  intros Hs. rewrite dayBatches_lines, <- batches_cover.
  apply concat_map_Permutation. intros j. unfold crunchCacheRecords.
  now rewrite (Hs _).
Qed.

Lemma dayBatches_lookup (theDay : Z) (j : nat) :
  (j < batchCount theDay)%nat ->
  dayBatches theDay !! j
  = Some (fileNameOf theDay (Z.of_nat j * 10000),
          crunchCacheRecords (query theDay (Z.of_nat j * 10000))).
Proof.
  intros Hj. unfold dayBatches.
  rewrite list_lookup_fmap, lookup_seq_lt by exact Hj. reflexivity.
Qed.

(** ** The order of the queries *)

Lemma startingPoint_eq (now : Z) : startingPoint now = startOfToday now - 31.
Proof.
  unfold startingPoint, startOfToday, pageCacheCrunchingTMinus, msPerDay.
  replace (now - 31 * 24 * 60 * 60 * 1000)
    with (now + (-31) * (24 * 60 * 60 * 1000)) by lia.
  rewrite Z.div_add by lia. lia.
Qed.

Lemma before_trans (a b c : Z * Z) : before a b -> before b c -> before a c.
Proof. unfold before. lia. Qed.

Lemma ordered_snoc (l : list (Z * Z)) (x : Z * Z) :
  ordered l -> Forall (fun a => before a x) l -> ordered (l ++ [x]).
Proof.
  induction l as [|a l IH]; intros Ho Hall; cbn.
  - split; [ constructor | exact I ].
  - destruct Ho as [Ha Ho]. apply Forall_cons in Hall as [Hax Hall].
    split; [ | now apply IH ].
    apply Forall_app. split; [ exact Ha | ]. now constructor.
Qed.

Lemma ordered_NoDup (l : list (Z * Z)) : ordered l -> NoDup l.
Proof.
  induction l as [|a l IH]; intros Ho; [ apply NoDup_nil_2 | ].
  destruct Ho as [Ha Ho]. apply NoDup_cons. split; [ | now apply IH ].
  intros Hin. rewrite Forall_forall in Ha. specialize (Ha _ Hin).
  unfold before in Ha. lia.
Qed.

(** What the loop keeps true of its queries, at position [(theDay, c)]. *)
Lemma crunchLoop_queries (today start : Z) :
  forall (fuel : nat) (theDay c : Z) (r r' : Run),
    crunchLoop fuel today theDay c r = Some r' ->
    start <= theDay ->
    (exists j, 0 <= j /\ c = j * 10000) ->
    ordered (queries r) ->
    Forall (fun q => before q (theDay, c)) (queries r) ->
    Forall (fun q => start <= q.1 < today /\ exists j, 0 <= j /\ q.2 = j * 10000)
           (queries r) ->
    ordered (queries r')
    /\ Forall (fun q => start <= q.1 < today /\ exists j, 0 <= j /\ q.2 = j * 10000)
              (queries r').
Proof.
  induction fuel as [|fuel IH]; intros theDay c r r' Hrun Hstart (j & Hj & ->) Ho Hb Hw;
    [ discriminate | ].
  rewrite crunchLoop_S in Hrun. destruct (Z.ltb_spec theDay today) as [Hlt | Hge].
  2: { injection Hrun as <-. auto. }
  assert (forall q, before q (theDay, j * 10000) ->
                    before q (theDay, j * 10000 + pageCacheCrunchingBatchSize)) as Hnext.
  { intros q Hq. eapply before_trans; [ exact Hq | ].
    right. cbn. unfold pageCacheCrunchingBatchSize. lia. }
  assert (exists j', 0 <= j' /\ j * 10000 + pageCacheCrunchingBatchSize = j' * 10000)
    as Hmul by (exists (j + 1); unfold pageCacheCrunchingBatchSize; lia).
  assert (ordered (queries r ++ [(theDay, j * 10000)])) as Ho'
      by (now apply ordered_snoc).
  assert (Forall (fun q => start <= q.1 < today /\ exists j, 0 <= j /\ q.2 = j * 10000)
                 (queries r ++ [(theDay, j * 10000)])) as Hw'.
  { apply Forall_app. split; [ exact Hw | ]. constructor; [ | constructor ].
    cbn. split; [ lia | eauto ]. }
  destruct (fileExists _ r).
  - eapply IH; [ exact Hrun | exact Hstart | exact Hmul | exact Ho | | exact Hw ].
    eapply Forall_impl; [ exact Hb | exact Hnext ].
  - destruct (_ =? _)%nat.
    + eapply IH; [ exact Hrun | lia | exists 0; lia | exact Ho' | | exact Hw' ].
      cbn [queries log_query]. apply Forall_app. split.
      * eapply Forall_impl; [ exact Hb | ]. intros q Hq.
        eapply before_trans; [ exact Hq | ]. left. cbn. lia.
      * constructor; [ left; cbn; lia | constructor ].
    + eapply IH; [ exact Hrun | exact Hstart | exact Hmul | exact Ho' | | exact Hw' ].
      cbn [queries crunch_and_upload sse_write log_query]. apply Forall_app. split.
      * eapply Forall_impl; [ exact Hb | exact Hnext ].
      * constructor; [ | constructor ]. right. cbn.
        unfold pageCacheCrunchingBatchSize. lia.
Qed.

(** X12.  Every Firestore query of a run is for one of the 31 whole
    days before today (today itself is never read) and for an offset
    that is a multiple of the batch size; the queries are issued in
    strictly increasing (day, offset) order, so none is issued twice. *)
Theorem crunchPageCache_queries_in_order
        (fuel : nat) (now : Z) (storage : gmap string (list string)) (r : Run) :
  crunchPageCache fuel now storage = Some r ->
  ordered (queries r)
  /\ NoDup (queries r)
  /\ forall d o, (d, o) ∈ queries r ->
        startOfToday now - 31 <= d < startOfToday now
        /\ exists j, 0 <= j /\ o = j * 10000.
Proof.
  unfold crunchPageCache. intros H.
  destruct (crunchLoop fuel _ _ 0 _) as [r1|] eqn:Hrun; [ | discriminate ].
  injection H as <-. cbn [queries sse_write].
  assert (exists j, 0 <= j /\ 0 = j * 10000) as Hzero by (exists 0; lia).
  destruct (crunchLoop_queries _ (startingPoint now) _ _ _ _ _ Hrun
              (Z.le_refl _) Hzero I (Forall_nil_2 _) (Forall_nil_2 _)) as [Ho Hw].
  split; [ exact Ho | ]. split; [ now apply ordered_NoDup | ].
  intros d o Hin. rewrite Forall_forall in Hw. specialize (Hw _ Hin).
  cbn in Hw. rewrite startingPoint_eq in Hw. exact Hw.
Qed.



(** ** A first run over the whole window *)

Lemma append_inv_head (s1 s2 t1 t2 : string) :
  String.length s1 = String.length s2 -> s1 +:+ t1 = s2 +:+ t2 -> s1 = s2.
Proof.
  revert s2. induction s1 as [|a s1 IH]; intros [|b s2] Hlen H;
    try discriminate Hlen; [ reflexivity | ].
  simpl in H. injection H as -> H. f_equal. apply IH; [ | exact H ].
  simpl in Hlen. lia.
Qed.

(** Files of different days have different names, when the formatter
    gives dates of one length and tells the days apart. *)
Lemma fileNameOf_inj_day (d d' c c' : Z) :
  String.length (formatDay d) = String.length (formatDay d') ->
  fileNameOf d c = fileNameOf d' c' -> formatDay d = formatDay d'.
Proof.
  unfold fileNameOf. intros Hlen H.
  repeat (apply String.app_inj in H).
  eapply append_inv_head; eassumption.
Qed.

Lemma window_pass (today : Z) :
  forall (n : nat) (theDay : Z) (r : Run),
    today - theDay = Z.of_nat n ->
    (forall d d', theDay <= d < today -> theDay <= d' < today ->
                  String.length (formatDay d) = String.length (formatDay d')
                  /\ (formatDay d = formatDay d' -> d = d')) ->
    (forall d c, theDay <= d < today -> store r !! fileNameOf d c = None) ->
    exists (k : nat) (r' : Run),
      (forall f, crunchLoop (k + f) today theDay 0 r = crunchLoop f today today 0 r')
      /\ uploads r'
         = uploads r
             ++ concat (List.map dayBatches
                                 (List.map (fun i => theDay + Z.of_nat i) (seq 0 n))).
Proof.
  induction n as [|n IH]; intros theDay r Hn Hfmt Hfresh.
  - exists 0%nat, r. assert (theDay = today) as -> by lia. split; [ reflexivity | ].
    cbn. now rewrite app_nil_r.
  - assert (theDay < today) as Hd by lia.
    destruct (day_pass_fresh today theDay Hd (batchCount theDay) 0 r eq_refl)
      as (r1 & Hrun1 & Hup1 & Hstore1).
    { intros c _. apply Hfresh. lia. }
    destruct (IH (theDay + 1) r1) as (k & r' & Hrun & Hup).
    + lia.
    + intros d d' Hd1 Hd2. apply Hfmt; lia.
    + intros d c Hdc. rewrite Hstore1; [ apply Hfresh; lia | ].
      intros c' Heq.
      destruct (Hfmt d theDay ltac:(lia) ltac:(lia)) as [Hlen Hinj].
      apply fileNameOf_inj_day in Heq; [ | exact Hlen ].
      apply Hinj in Heq. lia.
    + exists (batchCount theDay + 1 + k)%nat, r'. split.
      * intros f. rewrite <- Nat.add_assoc. change (Z.of_nat 0 * 10000) with 0 in Hrun1.
        rewrite Hrun1. apply Hrun.
      * rewrite Hup, Hup1, <- app_assoc. f_equal.
        change (seq 0 (S n)) with (0%nat :: seq 1 n). cbn [List.map concat].
        replace (theDay + Z.of_nat 0) with theDay by lia.
        fold (dayBatches theDay). f_equal.
        rewrite <- seq_shift, !List.map_map. f_equal.
        apply map_ext. intros i. f_equal. lia.
Qed.

Lemma elem_of_windowDays (now d : Z) :
  d ∈ windowDays now <-> startingPoint now <= d < startOfToday now.
Proof.
  unfold windowDays. rewrite startingPoint_eq. split.
  - intros H. apply list_elem_of_In, in_map_iff in H as (i & <- & Hi).
    apply in_seq in Hi. lia.
  - intros H. apply list_elem_of_In, in_map_iff.
    exists (Z.to_nat (d - (startOfToday now - 31))). split; [ lia | ].
    apply in_seq. lia.
Qed.

Lemma concat_snd_concat {A B} (ls : list (list (A * B))) :
  (concat ls).*2 = concat (List.map (fun l => l.*2) ls).
Proof.
  induction ls as [|l ls IH]; [ reflexivity | ].
  cbn. rewrite fmap_app, IH. reflexivity.
Qed.

Lemma concat_concat_map {A} (ls : list (list (list A))) :
  concat (concat ls) = concat (List.map (@concat A) ls).
Proof.
  induction ls as [|l ls IH]; [ reflexivity | ].
  cbn. rewrite concat_app, IH. reflexivity.
Qed.

(** ** A day within a run *)

(** What a stretch of the loop uploads are batches of the days it
    passes. *)
Lemma crunchLoop_new_uploads (today : Z) :
  forall (fuel : nat) (theDay c : Z) (r0 r : Run),
    crunchLoop fuel today theDay c r0 = Some r ->
    (exists j, 0 <= j /\ c = j * 10000) ->
    exists new,
      extends r0 r new
      /\ Forall (fun u => exists d j, theDay <= d < today /\ 0 <= j
                            /\ u = (fileNameOf d (j * 10000),
                                    crunchCacheRecords (query d (j * 10000))))
                new.
Proof.
  induction fuel as [|fuel IH]; intros theDay c r0 r H (j & Hj & ->);
    [ discriminate | ].
  rewrite crunchLoop_S in H. destruct (Z.ltb_spec theDay today) as [Hlt | Hge].
  2: { injection H as <-. exists []. split; [ apply extends_refl | constructor ]. }
  assert (exists j', 0 <= j' /\ j * 10000 + pageCacheCrunchingBatchSize = j' * 10000)
    as Hnext by (exists (j + 1); unfold pageCacheCrunchingBatchSize; lia).
  destruct (fileExists _ r0) eqn:E.
  - destruct (IH _ _ _ _ H Hnext) as (new & Hext & Hall).
    exists new. split; [ exact Hext | exact Hall ].
  - apply fileExists_false in E. destruct (_ =? _)%nat.
    + destruct (IH _ _ _ _ H (ex_intro _ 0 (conj (Z.le_refl 0) eq_refl)))
        as (new & Hext & Hall).
      exists new. split; [ eapply extends_log_query, Hext | ].
      eapply Forall_impl; [ exact Hall | ].
      intros u (d & j' & Hd & Hj' & ->). exists d, j'. split; [ lia | auto ].
    + destruct (IH _ _ _ _ H Hnext) as (new & Hext & Hall).
      eexists. split; [ eapply extends_upload; [ exact E | exact Hext ] | ].
      constructor; [ | exact Hall ].
      exists theDay, j. split; [ lia | auto ].
Qed.

(** A run up to [bound] is the beginning of a run up to a later day. *)
Lemma crunchLoop_reaches (today bound : Z) :
  bound <= today ->
  forall (k : nat) (d c : Z) (r r1 : Run),
    crunchLoop k bound d c r = Some r1 ->
    d < bound \/ (d = bound /\ c = 0) ->
    exists k2, forall f,
      crunchLoop (k + f) today d c r = crunchLoop (k2 + f) today bound 0 r1.
Proof.
  intros Hb. induction k as [|k IH]; intros d c r r1 H Hd; [ discriminate | ].
  rewrite crunchLoop_S in H.
  destruct (Z.ltb_spec d bound) as [Hlt | Hge].
  - assert ((d <? today) = true) as Ht by (apply Z.ltb_lt; lia).
    destruct (fileExists (fileNameOf d c) r) eqn:E.
    + destruct (IH _ _ _ _ H) as [k2 Hk]; [ left; exact Hlt | ].
      exists k2. intros f. change (S k + f)%nat with (S (k + f)).
      rewrite crunchLoop_S, Ht, E. apply Hk.
    + destruct ((length (query d c) =? 0)%nat) eqn:Q.
      * destruct (IH _ _ _ _ H) as [k2 Hk]; [ lia | ].
        exists k2. intros f. change (S k + f)%nat with (S (k + f)).
        rewrite crunchLoop_S, Ht, E, Q. apply Hk.
      * destruct (IH _ _ _ _ H) as [k2 Hk]; [ left; exact Hlt | ].
        exists k2. intros f. change (S k + f)%nat with (S (k + f)).
        rewrite crunchLoop_S, Ht, E, Q. apply Hk.
  - destruct Hd as [Hd | [-> ->]]; [ lia | ].
    injection H as <-. exists (S k). reflexivity.
Qed.

(** In a run that finds no file of a day of its window in storage, the
    batches of that day are uploaded one after the other, between the
    files of the days before and those of the days after. *)
Lemma day_in_run (now : Z) (storage : gmap string (list string)) (theDay : Z) :
  theDay ∈ windowDays now ->
  (forall d d', d ∈ windowDays now -> d' ∈ windowDays now ->
                String.length (formatDay d) = String.length (formatDay d')
                /\ (formatDay d = formatDay d' -> d = d')) ->
  (forall c, storage !! fileNameOf theDay c = None) ->
  exists (fuel : nat) (r : Run) (pre post : list (string * list string)),
    crunchPageCache fuel now storage = Some r
    /\ uploads r = pre ++ dayBatches theDay ++ post
    /\ (forall n l c, (n, l) ∈ pre ++ post -> n <> fileNameOf theDay c).
Proof.
  intros Hin Hfmt Hfresh. apply elem_of_windowDays in Hin.
  assert (forall d c c', startingPoint now <= d < startOfToday now -> d <> theDay ->
                         fileNameOf d c <> fileNameOf theDay c') as Hother.
  { intros d c c' Hd Hne Heq.
    destruct (Hfmt d theDay) as [Hlen Hinj]; try (apply elem_of_windowDays; lia).
    apply fileNameOf_inj_day in Heq; [ | exact Hlen ]. apply Hinj in Heq. contradiction. }
  assert (exists j, 0 <= j /\ 0 = j * 10000) as Hzero by (exists 0; lia).
  set (r0 := sse_write "Crunching page cache..." (mkRun storage [] [] [])).
  destruct (crunchLoop_terminates theDay (Z.to_nat (theDay - startingPoint now))
              (startingPoint now) r0 ltac:(lia)) as (k1 & r1 & Hrun1).
  destruct (crunchLoop_new_uploads _ _ _ _ _ _ Hrun1 Hzero) as (pre & Hext1 & Hpre).
  destruct (crunchLoop_reaches (startOfToday now) theDay ltac:(lia) _ _ _ _ _ Hrun1
              ltac:(lia)) as [k2 Hk2].
  rewrite Forall_forall in Hpre.
  assert (forall c, store r1 !! fileNameOf theDay c = None) as Hfresh1.
  { intros c. destruct Hext1 as [_ _ _ _ Hkept]. rewrite Hkept; [ apply Hfresh | ].
    intros Hmem. apply list_elem_of_fmap in Hmem as ([n l] & Hn & Hmem). cbn in Hn.
    destruct (Hpre _ Hmem) as (d & j & Hd & Hj & Heq). injection Heq as -> ->.
    symmetry in Hn. revert Hn. apply Hother; lia. }
  destruct (day_pass_fresh (startOfToday now) theDay ltac:(lia)
              (batchCount theDay) 0 r1 eq_refl)
    as (r2 & Hrun2 & Hup2 & _); [ intros c _; apply Hfresh1 | ].
  destruct (crunchLoop_terminates (startOfToday now)
              (Z.to_nat (startOfToday now - (theDay + 1))) (theDay + 1) r2 ltac:(lia))
    as (k3 & r3 & Hrun3).
  destruct (crunchLoop_new_uploads _ _ _ _ _ _ Hrun3 Hzero) as (post & Hext3 & Hpost).
  rewrite Forall_forall in Hpost.
  exists (k1 + (batchCount theDay + 1 + k3 + k2))%nat,
    (sse_write "Crunching page cache done." r3), pre, post.
  split; [ | split ].
  - unfold crunchPageCache. fold r0. rewrite Hk2.
    replace (k2 + (batchCount theDay + 1 + k3 + k2))%nat
      with ((batchCount theDay + 1 + k3) + (k2 + k2))%nat by lia.
    erewrite crunchLoop_more_fuel; [ reflexivity | ].
    change 0 with (Z.of_nat 0 * 10000) at 1. rewrite Hrun2. exact Hrun3.
  - cbn [uploads sse_write].
    destruct Hext3 as [-> _ _ _ _]. rewrite Hup2.
    destruct Hext1 as [-> _ _ _ _]. cbn [uploads r0 sse_write app].
    rewrite <- app_assoc. reflexivity.
  - intros n l c Hmem. apply elem_of_app in Hmem as [Hmem | Hmem].
    + destruct (Hpre _ Hmem) as (d & j & Hd & Hj & Heq). injection Heq as -> ->.
      apply Hother; lia.
    + destruct (Hpost _ Hmem) as (d & j & Hd & Hj & Heq). injection Heq as -> ->.
      apply Hother; lia.
Qed.

(** C8.  The job completes, and every file it uploads is named
    "crunched-pages/r2/<YYYY-MM-DD>-<label>.jsonl" for a day of the
    window and a batch offset j * 10000, the label being the literal
    "00000" for offset 0 and the decimal offset otherwise, and holds
    the lines of that batch.  When a day of the window has 24 999
    records, all of them giving a line, and none of its files is in
    storage yet, the job uploads for this day exactly the files
    labelled 00000, 10000 and 20000, in this order and one after the
    other, of 10 000, 10 000 and 4 999 lines. *)
Theorem crunch_object_names_and_batches :
  (forall (now : Z) (storage : gmap string (list string)),
      exists (fuel : nat) (r : Run),
        crunchPageCache fuel now storage = Some r
        /\ forall (name : string) (lines : list string),
             (name, lines) ∈ uploads r ->
             exists d j,
               startingPoint now <= d < startOfToday now /\ 0 <= j
               /\ name = "crunched-pages/r2/" +:+ formatDay d +:+ "-"
                           +:+ (if j =? 0 then "00000" else showZ (j * 10000))
                           +:+ ".jsonl"
               /\ lines = crunchCacheRecords (query d (j * 10000)))
  /\ (forall (now : Z) (storage : gmap string (list string)) (theDay : Z),
        theDay ∈ windowDays now ->
        Z.of_nat (length (dayRecords theDay)) = 24999 ->
        (forall x, x ∈ dayRecords theDay -> is_Some (crunchLine x)) ->
        settlesOnce ->
        (forall d d', d ∈ windowDays now -> d' ∈ windowDays now ->
                      String.length (formatDay d) = String.length (formatDay d')
                      /\ (formatDay d = formatDay d' -> d = d')) ->
        (forall c, storage !! fileNameOf theDay c = None) ->
        exists (fuel : nat) (r : Run) (pre post : list (string * list string))
               (l1 l2 l3 : list string),
          crunchPageCache fuel now storage = Some r
          /\ uploads r = pre ++
               [ ("crunched-pages/r2/" +:+ formatDay theDay +:+ "-00000.jsonl", l1);
                 ("crunched-pages/r2/" +:+ formatDay theDay +:+ "-10000.jsonl", l2);
                 ("crunched-pages/r2/" +:+ formatDay theDay +:+ "-20000.jsonl", l3) ]
               ++ post
          /\ (forall n l c, (n, l) ∈ pre ++ post -> n <> fileNameOf theDay c)
          /\ Z.of_nat (length l1) = 10000
          /\ Z.of_nat (length l2) = 10000
          /\ Z.of_nat (length l3) = 4999).
Proof.
  split.
  - intros now storage.
    destruct (crunchPageCache_terminates now storage) as (fuel & r & Hrun).
    exists fuel, r. split; [ exact Hrun | ]. intros name lines Hin.
    unfold crunchPageCache in Hrun.
    destruct (crunchLoop fuel _ _ 0 _) as [r1|] eqn:Hloop; [ | discriminate ].
    injection Hrun as <-. cbn [uploads sse_write] in Hin.
    destruct (uploads_shape _ _ _ _ _ _ Hloop
                (ex_intro _ 0 (conj (Z.le_refl 0) eq_refl)) _ Hin)
      as [H | (d & j & Hd & Hj & Heq)].
    + cbn in H. apply elem_of_nil in H. contradiction.
    + injection Heq as -> ->. exists d, j.
      split; [ exact Hd | split; [ exact Hj | split; [ | reflexivity ] ] ].
      apply fileNameOf_shape.
  - intros now storage theDay Hin Hlen Hall Hs Hfmt Hfresh.
    destruct (day_in_run now storage theDay Hin Hfmt Hfresh)
      as (fuel & r & pre & post & Hrun & Hup & Hrest).
    assert (forall c, 0 <= c ->
              Z.of_nat (length (crunchCacheRecords (query theDay c)))
              = Z.min 10000 (Z.max 0 (24999 - c))) as Hlines.
    { intros c Hc. rewrite crunchCacheRecords_length.
      - rewrite query_length, Hlen by exact Hc. reflexivity.
      - exact Hs.
      - intros x Hx. apply Hall. eapply query_subseteq, Hx. }
    assert (batchCount theDay = 3%nat) as Hcount
        by (unfold batchCount; rewrite Hlen; reflexivity).
    exists fuel, r, pre, post,
      (crunchCacheRecords (query theDay 0)),
      (crunchCacheRecords (query theDay 10000)),
      (crunchCacheRecords (query theDay 20000)).
    split; [ exact Hrun | ]. split; [ | split; [ exact Hrest | ] ].
    + rewrite Hup. unfold dayBatches. rewrite Hcount. reflexivity.
    + split; [ | split ]; rewrite Hlines; lia.
Qed.

(** X11.  A day of the window none of whose files is in storage yet is
    archived completely by the job: one after the other it uploads one
    file per batch of 10 000 records, in offset order, as many as it
    takes and no more, and no other file for that day; each file holds
    the lines of its batch in the order in which the downloads
    completed, and taken together the files hold the lines of the
    records of the day, each exactly once. *)
Theorem fresh_day_is_archived_completely
        (now : Z) (storage : gmap string (list string)) (theDay : Z) :
  theDay ∈ windowDays now ->
  (forall d d', d ∈ windowDays now -> d' ∈ windowDays now ->
                String.length (formatDay d) = String.length (formatDay d')
                /\ (formatDay d = formatDay d' -> d = d')) ->
  (forall c, storage !! fileNameOf theDay c = None) ->
  exists (fuel : nat) (r : Run) (pre post : list (string * list string)),
    crunchPageCache fuel now storage = Some r
    /\ uploads r = pre ++ dayBatches theDay ++ post
    /\ (forall n l c, (n, l) ∈ pre ++ post -> n <> fileNameOf theDay c)
    /\ Z.of_nat (length (dayBatches theDay))
       = (Z.of_nat (length (dayRecords theDay)) + 9999) / 10000
    /\ (forall j : nat,
          (j < length (dayBatches theDay))%nat ->
          dayBatches theDay !! j
          = Some (fileNameOf theDay (Z.of_nat j * 10000),
                  crunchCacheRecords (query theDay (Z.of_nat j * 10000))))
    /\ (settlesOnce ->
        concat (dayBatches theDay).*2 ≡ₚ omap crunchLine (dayRecords theDay)).
Proof.
  intros Hin Hfmt Hfresh.
  destruct (day_in_run now storage theDay Hin Hfmt Hfresh)
    as (fuel & r & pre & post & Hrun & Hup & Hrest).
  assert (length (dayBatches theDay) = batchCount theDay) as Hlen
      by (unfold dayBatches; now rewrite length_map, length_seq).
  exists fuel, r, pre, post.
  split; [ exact Hrun | ]. split; [ exact Hup | ]. split; [ exact Hrest | ].
  split; [ | split ].
  - rewrite Hlen. unfold batchCount. apply Z2Nat.id, Z.div_pos; lia.
  - intros j Hj. apply dayBatches_lookup. lia.
  - apply dayBatches_cover.
Qed.

(** X13.  When storage holds no file of the window yet (and the date
    formatter gives the days of the window pairwise different names of
    one length), a run archives the whole window: it uploads the batches
    of the 31 days in day order, each day in offset order, and the
    uploaded files taken together hold the lines of the records of all
    these days, each exactly once; within a file the lines stand in the
    order in which the downloads completed. *)
Theorem first_run_archives_the_window
        (now : Z) (storage : gmap string (list string)) :
  (forall d d', d ∈ windowDays now -> d' ∈ windowDays now ->
                String.length (formatDay d) = String.length (formatDay d')
                /\ (formatDay d = formatDay d' -> d = d')) ->
  (forall d c, d ∈ windowDays now -> storage !! fileNameOf d c = None) ->
  exists (fuel : nat) (r : Run),
    crunchPageCache fuel now storage = Some r
    /\ uploads r = concat (List.map dayBatches (windowDays now))
    /\ (settlesOnce ->
        concat (uploads r).*2
        ≡ₚ omap crunchLine (concat (List.map dayRecords (windowDays now)))).
Proof.
  intros Hfmt Hfresh.
  destruct (window_pass (startOfToday now) 31 (startingPoint now)
              (sse_write "Crunching page cache..." (mkRun storage [] [] [])))
    as (k & r' & Hrun & Hup).
  - rewrite startingPoint_eq. lia.
  - intros d d' Hd Hd'. apply Hfmt; now apply elem_of_windowDays.
  - intros d c Hd. cbn. apply Hfresh. now apply elem_of_windowDays.
  - assert (uploads r' = concat (List.map dayBatches (windowDays now))) as Hup'
        by exact Hup.
    exists (k + 1)%nat, (sse_write "Crunching page cache done." r').
    split; [ | split ].
    + unfold crunchPageCache. rewrite Hrun. cbn [Nat.add].
      rewrite crunchLoop_S, Z.ltb_irrefl. reflexivity.
    + exact Hup'.
    + intros Hs. cbn [uploads sse_write].
      rewrite Hup', concat_snd_concat, concat_concat_map, omap_concat.
      rewrite !List.map_map. apply concat_map_Permutation. intros d.
      now apply dayBatches_cover.
Qed.


End WithEnvironment.

(** ** A concrete night *)

Example format_epoch : format_YYYY_MM_DD 0 = "1970-01-01".
Proof. reflexivity. Qed.

Example format_leap_day : format_YYYY_MM_DD 19782 = "2024-02-29".
Proof. reflexivity. Qed.

Example fileName_first_batch :
  fileNameOf format_YYYY_MM_DD 19844 0 = "crunched-pages/r2/2024-05-01-00000.jsonl".
Proof. reflexivity. Qed.

Example fileName_second_batch :
  fileNameOf format_YYYY_MM_DD 19844 10000 = "crunched-pages/r2/2024-05-01-10000.jsonl".
Proof. reflexivity. Qed.

Example demo_first_run_uploads :
  option_map uploads
    (crunchPageCache format_YYYY_MM_DD demo_db demo_line demo_order 40 demo_now ∅)
  = Some [ ("crunched-pages/r2/2024-04-30-00000.jsonl", ["{c}"; "{b}"; "{a}"]);
           ("crunched-pages/r2/2024-05-01-00000.jsonl", ["{e}"; "{d}"]) ].
Proof. vm_compute. reflexivity. Qed.

Example busy_day_uploads :
  option_map (fun r => List.map (fun u => (fst u, Z.of_nat (length (snd u)))) (uploads r))
    (crunchPageCache format_YYYY_MM_DD busy_db demo_line demo_order 40 demo_now ∅)
  = Some [ ("crunched-pages/r2/2024-05-01-00000.jsonl", 10000);
           ("crunched-pages/r2/2024-05-01-10000.jsonl", 10000);
           ("crunched-pages/r2/2024-05-01-20000.jsonl", 4999) ].
Proof. vm_compute. reflexivity. Qed.

Lemma crunchPageCache_second_run_uploads_nothing_witness :
  exists r1 : Run,
    crunchPageCache format_YYYY_MM_DD demo_db demo_line demo_order 40 demo_now ∅ = Some r1
    /\ exists (fuel2 : nat) (r2 : Run),
         crunchPageCache format_YYYY_MM_DD demo_db demo_line demo_order fuel2 demo_now (store r1)
         = Some r2
         /\ store r2 = store r1 /\ uploads r2 = [].
Proof.
  destruct (crunchPageCache format_YYYY_MM_DD demo_db demo_line demo_order 40 demo_now ∅)
    as [r1|] eqn:E.
  - exists r1. split; [ reflexivity | ].
    destruct (crunchPageCache_second_run_uploads_nothing
                format_YYYY_MM_DD demo_db demo_line demo_order demo_now ∅ 40 r1 E)
      as (fuel2 & r2 & H1 & H2 & H3 & _).
    exists fuel2, r2. auto.
  - vm_compute in E. discriminate E.
Defined.

(** The days of a window are told apart by the formatter: a check that
    can be run. *)
Lemma window_names_check (fmt : Z -> string) (days : list Z) :
  forallb (fun d =>
             forallb (fun d' =>
                        Nat.eqb (String.length (fmt d)) (String.length (fmt d'))
                        && implb (String.eqb (fmt d) (fmt d')) (d =? d'))
                     days) days = true ->
  forall d d', d ∈ days -> d' ∈ days ->
               String.length (fmt d) = String.length (fmt d')
               /\ (fmt d = fmt d' -> d = d').
Proof.
  intros H d d' Hd Hd'. rewrite forallb_forall in H.
  apply list_elem_of_In in Hd, Hd'. specialize (H d Hd).
  rewrite forallb_forall in H. specialize (H d' Hd').
  apply andb_true_iff in H as [H1 H2]. apply Nat.eqb_eq in H1.
  split; [ exact H1 | ]. intros Heq. apply String.eqb_eq in Heq.
  rewrite Heq in H2. cbn in H2. now apply Z.eqb_eq.
Qed.

Lemma demo_settlesOnce : settlesOnce demo_order.
Proof. intros records. apply reverse_Permutation. Qed.

Lemma crunch_object_names_and_batches_witness :
  (exists (fuel : nat) (r : Run),
      crunchPageCache format_YYYY_MM_DD demo_db demo_line demo_order fuel demo_now ∅
      = Some r
      /\ forall (name : string) (lines : list string),
           (name, lines) ∈ uploads r ->
           exists d j,
             startingPoint demo_now <= d < startOfToday demo_now /\ 0 <= j
             /\ name = "crunched-pages/r2/" +:+ format_YYYY_MM_DD d +:+ "-"
                         +:+ (if j =? 0 then "00000" else showZ (j * 10000))
                         +:+ ".jsonl"
             /\ lines = crunchCacheRecords demo_line demo_order
                          (query demo_db d (j * 10000)))
  /\ exists (fuel : nat) (r : Run) (pre post : list (string * list string))
            (l1 l2 l3 : list string),
       crunchPageCache format_YYYY_MM_DD busy_db demo_line demo_order fuel demo_now ∅
       = Some r
       /\ uploads r = pre ++
            [ ("crunched-pages/r2/" +:+ format_YYYY_MM_DD 19844 +:+ "-00000.jsonl", l1);
              ("crunched-pages/r2/" +:+ format_YYYY_MM_DD 19844 +:+ "-10000.jsonl", l2);
              ("crunched-pages/r2/" +:+ format_YYYY_MM_DD 19844 +:+ "-20000.jsonl", l3) ]
            ++ post
       /\ Z.of_nat (length l1) = 10000
       /\ Z.of_nat (length l2) = 10000
       /\ Z.of_nat (length l3) = 4999.
Proof.
  destruct (crunch_object_names_and_batches format_YYYY_MM_DD demo_db demo_line demo_order)
    as [Hnames _].
  destruct (crunch_object_names_and_batches format_YYYY_MM_DD busy_db demo_line demo_order)
    as [_ Hday].
  split; [ exact (Hnames demo_now ∅) | ].
  destruct (Hday demo_now ∅ 19844)
    as (fuel & r & pre & post & l1 & l2 & l3 & Hrun & Hup & _ & H1 & H2 & H3).
  - apply elem_of_windowDays. vm_compute. split; [ discriminate | reflexivity ].
  - vm_compute. reflexivity.
  - intros x _. unfold demo_line. eauto.
  - exact demo_settlesOnce.
  - apply window_names_check. vm_compute. reflexivity.
  - intros c. apply lookup_empty.
  - exists fuel, r, pre, post, l1, l2, l3. auto.
Defined.

Lemma demo_first_run :
  exists r : Run,
    crunchPageCache format_YYYY_MM_DD demo_db demo_line demo_order 40 demo_now ∅ = Some r.
Proof.
  destruct (crunchPageCache format_YYYY_MM_DD demo_db demo_line demo_order 40 demo_now ∅)
    as [r|] eqn:E; [ now exists r | vm_compute in E; discriminate E ].
Defined.

Lemma crunchPageCache_never_overwrites_witness :
  exists r : Run,
    crunchPageCache format_YYYY_MM_DD demo_db demo_line demo_order 40 demo_now ∅ = Some r
    /\ NoDup (uploads r).*1
    /\ (forall n l, (n, l) ∈ uploads r ->
          (∅ : gmap string (list string)) !! n = None /\ store r !! n = Some l)
    /\ (forall n, n ∉ (uploads r).*1 ->
          store r !! n = (∅ : gmap string (list string)) !! n).
Proof.
  destruct demo_first_run as [r E]. exists r. split; [ exact E | ].
  exact (crunchPageCache_never_overwrites
           format_YYYY_MM_DD demo_db demo_line demo_order 40 demo_now ∅ r E).
Defined.

Lemma crunchPageCache_progress_events_witness :
  exists r : Run,
    crunchPageCache format_YYYY_MM_DD demo_db demo_line demo_order 40 demo_now ∅ = Some r
    /\ sse r = ["Crunching page cache..."]
                 ++ List.map (progressOf) (uploads r)
                 ++ ["Crunching page cache done."].
Proof.
  destruct demo_first_run as [r E]. exists r. split; [ exact E | ].
  exact (crunchPageCache_progress_events
           format_YYYY_MM_DD demo_db demo_line demo_order 40 demo_now ∅ r E).
Defined.

Lemma fresh_day_is_archived_completely_witness :
  exists (fuel : nat) (r : Run) (pre post : list (string * list string)),
    crunchPageCache format_YYYY_MM_DD demo_db demo_line demo_order fuel demo_now ∅
    = Some r
    /\ uploads r
       = pre ++ [ ("crunched-pages/r2/2024-05-01-00000.jsonl", ["{e}"; "{d}"]) ] ++ post
    /\ (forall n l c, (n, l) ∈ pre ++ post ->
                      n <> fileNameOf format_YYYY_MM_DD 19844 c)
    /\ ["{e}"; "{d}"] ≡ₚ ["{d}"; "{e}"].
Proof.
  destruct (fresh_day_is_archived_completely
              format_YYYY_MM_DD demo_db demo_line demo_order demo_now ∅ 19844)
    as (fuel & r & pre & post & Hrun & Hup & Hrest & _ & _ & Hperm).
  - apply elem_of_windowDays. vm_compute. split; [ discriminate | reflexivity ].
  - apply window_names_check. vm_compute. reflexivity.
  - intros c. apply lookup_empty.
  - exists fuel, r, pre, post. split; [ exact Hrun | ].
    split; [ exact Hup | ]. split; [ exact Hrest | ].
    exact (Hperm demo_settlesOnce).
Defined.

Lemma crunchPageCache_queries_in_order_witness :
  exists r : Run,
    crunchPageCache format_YYYY_MM_DD demo_db demo_line demo_order 40 demo_now ∅ = Some r
    /\ ordered (queries r)
    /\ NoDup (queries r)
    /\ forall d o, (d, o) ∈ queries r ->
         startOfToday demo_now - 31 <= d < startOfToday demo_now
         /\ exists j, 0 <= j /\ o = j * 10000.
Proof.
  destruct demo_first_run as [r E]. exists r. split; [ exact E | ].
  exact (crunchPageCache_queries_in_order
           format_YYYY_MM_DD demo_db demo_line demo_order 40 demo_now ∅ r E).
Defined.

Lemma first_run_archives_the_window_witness :
  exists (fuel : nat) (r : Run),
    crunchPageCache format_YYYY_MM_DD demo_db demo_line demo_order fuel demo_now ∅
    = Some r
    /\ uploads r
       = concat (List.map (dayBatches format_YYYY_MM_DD demo_db demo_line demo_order)
                          (windowDays demo_now))
    /\ concat (uploads r).*2
       ≡ₚ omap demo_line (concat (List.map (dayRecords demo_db) (windowDays demo_now))).
Proof.
  destruct (first_run_archives_the_window
              format_YYYY_MM_DD demo_db demo_line demo_order demo_now ∅)
    as (fuel & r & Hrun & Hup & Hperm).
  - apply window_names_check. vm_compute. reflexivity.
  - intros d c _. apply lookup_empty.
  - exists fuel, r. split; [ exact Hrun | ]. split; [ exact Hup | ].
    exact (Hperm demo_settlesOnce).
Defined.

End Cruncher.

(* ===================================================================== *)
(** * 6. Markdown expansion ([InterrogatorHost.expandMarkdown]) *)
(* ===================================================================== *)

Module Markdown.

(** A JavaScript string is a sequence of UTF-16 code units. *)
Definition jsstring : Type := list N.

Definition lit (s : string) : jsstring :=
  List.map N_of_ascii (list_ascii_of_string s).

(** The characters [.] does not match (no [s] flag): LF, CR, LS, PS. *)
Definition isLineTerminator (c : N) : bool :=
  ((c =? 10) || (c =? 13) || (c =? 8232) || (c =? 8233))%N.

Definition nonEmpty (s : jsstring) : bool :=
  match s with [] => false | _ => true end.

(** [startsWith p s]: the rest of [s] after the literal [p]. *)
Fixpoint startsWith (p s : jsstring) : option jsstring :=
  match p, s with
  | [], _ => Some s
  | a :: p', b :: s' => if (a =? b)%N then startsWith p' s' else None
  | _ :: _, [] => None
  end.

(** The lazy group [(.*?)] followed by the literal [stop]: the shortest
    run of non-terminator characters after which [stop] occurs. *)
Fixpoint lazyUntil (stop s : jsstring) : option (jsstring * jsstring) :=
  match startsWith stop s with
  | Some rest => Some ([], rest)
  | None =>
      match s with
      | [] => None
      | c :: s' =>
          if isLineTerminator c then None
          else match lazyUntil stop s' with
               | Some (m, rest) => Some (c :: m, rest)
               | None => None
               end
      end
  end.

Record ImageMatch : Type := mkImageMatch {
  altText : jsstring;     (* match[1] *)
  imageUrl : jsstring     (* match[2] *)
}.

(** [match[0]] *)
Definition matchText (m : ImageMatch) : jsstring :=
  lit "![" ++ altText m ++ lit "](" ++ imageUrl m ++ lit ")".

(** [/!\[(.*?)\]\((.*?)\)/] anchored at the head of [s]. *)
Definition matchAt (s : jsstring) : option (ImageMatch * jsstring) :=
  match startsWith (lit "![") s with
  | None => None
  | Some s1 =>
      match lazyUntil (lit "](") s1 with
      | None => None
      | Some (alt, s2) =>
          match lazyUntil (lit ")") s2 with
          | None => None
          | Some (url, s3) => Some (mkImageMatch alt url, s3)
          end
      end
  end.

(** [imageRegex.exec(input)] with the [g] flag, on the part of the input
    from [lastIndex] on: the text before the leftmost match, the match,
    and the text after it. *)
Fixpoint exec (s : jsstring) : option (jsstring * ImageMatch * jsstring) :=
  match matchAt s with
  | Some (m, rest) => Some ([], m, rest)
  | None =>
      match s with
      | [] => None
      | c :: s' =>
          match exec s' with
          | Some (before, m, rest) => Some (c :: before, m, rest)
          | None => None
          end
      end
  end.

Record URLObject : Type := mkURL {
  protocol : jsstring;
  pathname : jsstring;
  href : jsstring
}.

Definition Buffer : Type := list N.

Inductive PromptChunk : Type :=
| Str (s : jsstring)
| Url (u : URLObject)
| Buf (b : Buffer).

Definition isStr (c : PromptChunk) : bool :=
  match c with Str _ => true | _ => false end.

(** The names every plain object inherits from [Object.prototype]:
    [files[k]] is a function or an object for them, hence truthy, also
    when [files] has no entry of its own under that name. *)
Definition objectPrototypeNames : list string :=
  [ "constructor"; "__defineGetter__"; "__defineSetter__"; "hasOwnProperty";
    "__lookupGetter__"; "__lookupSetter__"; "isPrototypeOf";
    "propertyIsEnumerable"; "toString"; "valueOf"; "__proto__";
    "toLocaleString" ].

Definition inheritedName (k : jsstring) : bool :=
  bool_decide (k ∈ List.map lit objectPrototypeNames).

(** A platform for the examples: URLs with a scheme parse to that scheme,
    everything else resolves against [file://]. *)
Definition demo_parseURL (u : jsstring) : option URLObject :=
  match startsWith (lit "https://") u with
  | Some rest => Some (mkURL (lit "https:") (lit "/") u)
  | None => Some (mkURL (lit "file:") (lit "/" ++ u) (lit "file:///" ++ u))
  end.

Section WithPlatform.

(** [new URL(imageUrl, 'file://')]; [None] when it throws. *)
Variable parseURL : jsstring -> option URLObject.

(** [decodeURI], [encodeURI]; [None] when they throw [URIError]. *)
Variable decodeURI : jsstring -> option jsstring.
Variable encodeURI : jsstring -> option jsstring.

Variable UploadedFile : Type.

(** [readFile(await file.filePath)]; [None] when it is rejected. *)
Variable readFile : UploadedFile -> option Buffer.

Definition jsstring_eqb (a b : jsstring) : bool := bool_decide (a = b).

(** The value of [files[k]]: an uploaded file, a member of
    [Object.prototype], or [undefined]. *)
Inductive FileSlot : Type :=
| OwnFile (f : UploadedFile)
| InheritedMember
| NoFile.

Definition filesGet (files : gmap jsstring UploadedFile) (k : jsstring) : FileSlot :=
  match files !! k with
  | Some f => OwnFile f
  | None => if inheritedName k then InheritedMember else NoFile
  end.

(** [a || b] on values that are truthy unless [undefined]. *)
Definition orElse (a b : FileSlot) : FileSlot :=
  match a with NoFile => b | _ => a end.

(** The body of the [while] loop after the text before the match has
    been pushed: the resolved form (inside [try]), then the image
    markdown itself. *)
Definition resolveImage (files : gmap jsstring UploadedFile) (m : ImageMatch)
  : list PromptChunk :=
  let resolved :=
    match parseURL (imageUrl m) with
    | None => [Str (matchText m)]
    | Some urlObject =>
        if jsstring_eqb (protocol urlObject) (lit "file:") then
          let origFileName := drop 1 (pathname urlObject) in
          match decodeURI origFileName, encodeURI origFileName with
          | Some fileNameDecoded, Some fileNameEncoded =>
              let file :=
                orElse (filesGet files origFileName)
                       (orElse (filesGet files fileNameDecoded)
                               (filesGet files fileNameEncoded)) in
              match file with
              | OwnFile f =>
                  match readFile f with
                  | Some buff => [Buf buff]
                  | None => [Str (matchText m)]
                  end
              | InheritedMember =>
                  (* file.filePath is undefined and readFile(undefined) throws *)
                  [Str (matchText m)]
              | NoFile => []
              end
          | _, _ => [Str (matchText m)]
          end
        else [Url urlObject]
    end in
  resolved ++ [Str (matchText m)].

(** The [while ((match = imageRegex.exec(input)) !== null)] loop and the
    push of the remaining text; [s] is [input.substring(lastIndex)].
    A match consumes at least five code units, so [length s] bounds the
    number of iterations. *)
Fixpoint collect (fuel : nat) (files : gmap jsstring UploadedFile)
         (s : jsstring) : list PromptChunk :=
  match fuel with
  | O => []
  | S fuel' =>
      match exec s with
      | None => if nonEmpty s then [Str s] else []
      | Some (before, m, rest) =>
          (if nonEmpty before then [Str before] else [])
            ++ resolveImage files m ++ collect fuel' files rest
      end
  end.

(** The loop [for (const item of result)] that merges consecutive
    strings, and the final flush of [tempString]. *)
Definition flush (tempString : jsstring) (mergedResult : list PromptChunk)
  : list PromptChunk :=
  if nonEmpty tempString then mergedResult ++ [Str tempString] else mergedResult.

Fixpoint mergeLoop (result : list PromptChunk) (tempString : jsstring)
         (mergedResult : list PromptChunk) : list PromptChunk :=
  match result with
  | [] => flush tempString mergedResult
  | Str s :: rest => mergeLoop rest (tempString ++ s) mergedResult
  | item :: rest => mergeLoop rest [] (flush tempString mergedResult ++ [item])
  end.

Definition expandMarkdown (input : jsstring) (files : gmap jsstring UploadedFile)
  : list PromptChunk :=
  mergeLoop (collect (S (length input)) files input) [] [].

(** The text of a chunk list: its strings, concatenated. *)
Fixpoint textOnly (chunks : list PromptChunk) : jsstring :=
  match chunks with
  | [] => []
  | Str s :: rest => s ++ textOnly rest
  | _ :: rest => textOnly rest
  end.



Definition endsWithStr (l : list PromptChunk) : bool :=
  match last l with Some c => isStr c | None => false end.

(** The image tokens the [while] loop visits, in order. *)
Fixpoint imagesFrom (fuel : nat) (s : jsstring) : list ImageMatch :=
  match fuel with
  | O => []
  | S fuel' =>
      match exec s with
      | None => []
      | Some (_, m, rest) => m :: imagesFrom fuel' rest
      end
  end.

Definition images (input : jsstring) : list ImageMatch :=
  imagesFrom (S (length input)) input.

(** Whether the [try] block of the loop body throws for an image: in
    [new URL], [decodeURI], [encodeURI], or the read of the file. *)
Definition resolutionThrows (files : gmap jsstring UploadedFile) (m : ImageMatch)
  : bool :=
  match parseURL (imageUrl m) with
  | None => true
  | Some urlObject =>
      if jsstring_eqb (protocol urlObject) (lit "file:") then
        let origFileName := drop 1 (pathname urlObject) in
        match decodeURI origFileName, encodeURI origFileName with
        | Some fileNameDecoded, Some fileNameEncoded =>
            match orElse (filesGet files origFileName)
                         (orElse (filesGet files fileNameDecoded)
                                 (filesGet files fileNameEncoded)) with
            | OwnFile f => match readFile f with Some _ => false | None => true end
            | InheritedMember => true
            | NoFile => false
            end
        | _, _ => true
        end
      else false
  end.

(** Every URL or buffer of the list is directly followed by a
    non-empty string. *)
Fixpoint mediaThenText (l : list PromptChunk) : bool :=
  match l with
  | [] => true
  | Str _ :: tl => mediaThenText tl
  | _ :: tl =>
      match tl with
      | Str s :: _ => nonEmpty s && mediaThenText tl
      | _ => false
      end
  end.

(** ** The matcher finds exactly the image tokens *)

Local Abbreviation plain := (Forall (fun c => isLineTerminator c = false)).

Lemma startsWith_sound (p s rest : jsstring) :
  startsWith p s = Some rest -> s = p ++ rest.
Proof.
  revert s. induction p as [|a p IH]; intros [|b s] H; simpl in *;
    try congruence.
  destruct (N.eqb_spec a b); [ subst | discriminate ].
  now rewrite (IH _ H).
Qed.


Lemma lazyUntil_sound (stop : jsstring) :
  forall s m rest, lazyUntil stop s = Some (m, rest) ->
                   s = m ++ stop ++ rest /\ plain m.
Proof.
  induction s as [|c s IH]; intros m rest H; simpl in H.
  - destruct (startsWith stop []) eqn:E; [ | discriminate ].
    injection H as <- <-. apply startsWith_sound in E. auto.
  - destruct (startsWith stop (c :: s)) eqn:E.
    + injection H as <- <-. apply startsWith_sound in E. auto.
    + destruct (isLineTerminator c) eqn:L; [ discriminate | ].
      destruct (lazyUntil stop s) as [[m' rest']|] eqn:R; [ | discriminate ].
      injection H as <- <-. destruct (IH _ _ eq_refl) as [-> Hm].
      split; [ reflexivity | constructor; assumption ].
Qed.




Lemma matchAt_sound (s rest : jsstring) (m : ImageMatch) :
  matchAt s = Some (m, rest) ->
  s = matchText m ++ rest /\ plain (altText m) /\ plain (imageUrl m).
Proof.
  unfold matchAt. intros H.
  destruct (startsWith (lit "![") s) as [s1|] eqn:E1; [ | discriminate ].
  destruct (lazyUntil (lit "](") s1) as [[alt s2]|] eqn:E2; [ | discriminate ].
  destruct (lazyUntil (lit ")") s2) as [[url s3]|] eqn:E3; [ | discriminate ].
  injection H as <- <-.
  apply startsWith_sound in E1. apply lazyUntil_sound in E2, E3.
  destruct E2 as [-> Ha], E3 as [-> Hu]. subst s.
  unfold matchText. cbn [altText imageUrl].
  split; [ now rewrite <- !app_assoc | auto ].
Qed.


Lemma exec_sound :
  forall s before m rest,
    exec s = Some (before, m, rest) ->
    s = before ++ matchText m ++ rest
    /\ plain (altText m) /\ plain (imageUrl m).
Proof.
  induction s as [|c s IH]; intros before m rest H; cbn [exec] in H.
  - destruct (matchAt []) as [[m' r']|] eqn:E; [ | discriminate ].
    injection H as <- <- <-. now apply matchAt_sound in E.
  - destruct (matchAt (c :: s)) as [[m' r']|] eqn:E.
    + injection H as <- <- <-. now apply matchAt_sound in E.
    + destruct (exec s) as [[[b' m'] r']|] eqn:R; [ | discriminate ].
      injection H as <- <- <-.
      destruct (IH _ _ _ eq_refl) as (-> & Ha & Hu). auto.
Qed.



(** ** The fuel of [collect] is enough *)

Lemma exec_rest_shorter (s before rest : jsstring) (m : ImageMatch) :
  exec s = Some (before, m, rest) -> (length rest < length s)%nat.
Proof.
  intros H. apply exec_sound in H as [-> _].
  unfold matchText. rewrite !length_app. simpl. lia.
Qed.

Lemma collect_enough_fuel (files : gmap jsstring UploadedFile) :
  forall (fuel fuel' : nat) (s : jsstring),
    (length s < fuel)%nat -> (length s < fuel')%nat ->
    collect fuel files s = collect fuel' files s.
Proof.
  induction fuel as [|fuel IH]; intros [|fuel'] s H H'; try lia.
  cbn [collect]. destruct (exec s) as [[[before m] rest]|] eqn:E; [ | reflexivity ].
  apply exec_rest_shorter in E. f_equal. f_equal. apply IH; lia.
Qed.

(** ** Merging *)





Lemma textOnly_app (l1 l2 : list PromptChunk) :
  textOnly (l1 ++ l2) = textOnly l1 ++ textOnly l2.
Proof.
  induction l1 as [|[s | u | b] l1 IH]; cbn; rewrite ?IH, ?app_assoc; reflexivity.
Qed.

Lemma textOnly_flush (tempString : jsstring) (merged : list PromptChunk) :
  textOnly (flush tempString merged) = textOnly merged ++ tempString.
Proof.
  unfold flush. destruct tempString; cbn [nonEmpty].
  - now rewrite app_nil_r.
  - rewrite textOnly_app. cbn. now rewrite app_nil_r.
Qed.

(** Merging moves no text. *)
Lemma mergeLoop_textOnly :
  forall (result : list PromptChunk) (tempString : jsstring)
         (merged : list PromptChunk),
    textOnly (mergeLoop result tempString merged)
    = textOnly merged ++ tempString ++ textOnly result.
Proof.
  induction result as [|item result IH]; intros tempString merged.
  - cbn [mergeLoop textOnly]. now rewrite textOnly_flush, app_nil_r.
  - destruct item as [s | u | b]; cbn [mergeLoop textOnly]; rewrite IH.
    + now rewrite <- !app_assoc.
    + rewrite textOnly_app, textOnly_flush. cbn. now rewrite app_nil_r, <- app_assoc.
    + rewrite textOnly_app, textOnly_flush. cbn. now rewrite app_nil_r, <- app_assoc.
Qed.


(** ** The shape of the result *)

Lemma flush_acc (tempString : jsstring) (merged : list PromptChunk) :
  flush tempString merged = merged ++ flush tempString [].
Proof. unfold flush. destruct (nonEmpty tempString); now rewrite ?app_nil_r. Qed.

(** The accumulator of [mergeLoop] is only ever appended to. *)
Lemma mergeLoop_acc :
  forall (result : list PromptChunk) (tempString : jsstring)
         (merged : list PromptChunk),
    mergeLoop result tempString merged = merged ++ mergeLoop result tempString [].
Proof.
  induction result as [|item result IH]; intros tempString merged.
  - apply flush_acc.
  - destruct item as [s | u | b]; cbn [mergeLoop].
    + apply IH.
    + rewrite IH, (IH _ (flush tempString [] ++ _)), (flush_acc _ merged).
      now rewrite <- !app_assoc.
    + rewrite IH, (IH _ (flush tempString [] ++ _)), (flush_acc _ merged).
      now rewrite <- !app_assoc.
Qed.

Lemma mergeLoop_media (item : PromptChunk) (result : list PromptChunk)
      (tempString : jsstring) :
  isStr item = false ->
  mergeLoop (item :: result) tempString []
  = flush tempString [] ++ item :: mergeLoop result [] [].
Proof.
  intros H. destruct item as [s | u | b]; [ discriminate | | ]; cbn [mergeLoop];
    rewrite mergeLoop_acc, <- app_assoc; reflexivity.
Qed.

Lemma mergeLoop_head (result : list PromptChunk) :
  forall tempString : jsstring,
    nonEmpty tempString = true ->
    exists s tl, mergeLoop result tempString [] = Str s :: tl /\ nonEmpty s = true.
Proof.
  induction result as [|item result IH]; intros tempString H.
  - exists tempString, []. cbn [mergeLoop]. unfold flush. now rewrite H.
  - destruct (isStr item) eqn:E.
    + destruct item as [s | |]; try discriminate. cbn [mergeLoop].
      apply IH. destruct tempString; [ discriminate | reflexivity ].
    + rewrite (mergeLoop_media _ _ _ E). unfold flush. rewrite H.
      exists tempString. eexists. split; [ reflexivity | exact H ].
Qed.

Lemma mediaThenText_flush (tempString : jsstring) (l : list PromptChunk) :
  mediaThenText (flush tempString [] ++ l) = mediaThenText l.
Proof. unfold flush. destruct (nonEmpty tempString); reflexivity. Qed.

Lemma mergeLoop_mediaThenText :
  forall (result : list PromptChunk) (tempString : jsstring),
    mediaThenText result = true ->
    mediaThenText (mergeLoop result tempString []) = true.
Proof.
  induction result as [|item result IH]; intros tempString H.
  - cbn [mergeLoop]. unfold flush. destruct (nonEmpty tempString); reflexivity.
  - destruct (isStr item) eqn:E.
    + destruct item as [s | |]; try discriminate. cbn [mergeLoop]. now apply IH.
    + rewrite (mergeLoop_media _ _ _ E), mediaThenText_flush.
      assert (exists s rest, result = Str s :: rest /\ nonEmpty s = true
                             /\ mediaThenText result = true) as (s & rest & -> & Hs & Hr).
      { destruct item as [? | u | b]; try discriminate;
          destruct result as [|[s | |] rest]; cbn in H; try discriminate;
          apply andb_prop in H as [Hs Hr]; exists s, rest; auto. }
      specialize (IH [] Hr).
      cbn [mergeLoop] in IH |- *.
      destruct (mergeLoop_head rest ([] ++ s)) as (s' & tl & Heq & Hs'); [ exact Hs | ].
      rewrite Heq in IH |- *.
      destruct item as [? | u | b]; try discriminate; cbn; now rewrite Hs'.
Qed.

Lemma mergeLoop_no_empty_string :
  forall (result : list PromptChunk) (tempString : jsstring),
    Str [] ∉ mergeLoop result tempString [].
Proof.
  induction result as [|item result IH]; intros tempString.
  - cbn [mergeLoop]. unfold flush. destruct tempString; cbn.
    + apply not_elem_of_nil.
    + intros H. apply list_elem_of_singleton in H. discriminate.
  - destruct (isStr item) eqn:E.
    + destruct item as [s | |]; try discriminate. cbn [mergeLoop]. apply IH.
    + rewrite (mergeLoop_media _ _ _ E). intros H.
      apply elem_of_app in H as [H | H].
      * unfold flush in H. destruct tempString; cbn in H.
        -- now apply not_elem_of_nil in H.
        -- apply list_elem_of_singleton in H. discriminate.
      * apply elem_of_cons in H as [H | H]; [ subst; discriminate | ].
        now apply IH in H.
Qed.

Lemma matchText_nonEmpty (m : ImageMatch) : nonEmpty (matchText m) = true.
Proof. reflexivity. Qed.

Lemma resolveImage_mediaThenText (files : gmap jsstring UploadedFile)
      (m : ImageMatch) (l : list PromptChunk) :
  mediaThenText (resolveImage files m ++ l) = mediaThenText l.
Proof.
  unfold resolveImage. cbv zeta. repeat case_match; reflexivity.
Qed.

Lemma collect_mediaThenText (files : gmap jsstring UploadedFile) :
  forall (fuel : nat) (s : jsstring), mediaThenText (collect fuel files s) = true.
Proof.
  induction fuel as [|fuel IH]; intros s; [ reflexivity | ].
  cbn [collect]. destruct (exec s) as [[[before m] rest]|].
  - destruct (nonEmpty before); cbn [app mediaThenText];
      rewrite resolveImage_mediaThenText; apply IH.
  - destruct (nonEmpty s); reflexivity.
Qed.

Lemma mediaThenText_endsWithStr (l : list PromptChunk) :
  mediaThenText l = true -> l <> [] -> endsWithStr l = true.
Proof.
  induction l as [|c l IH]; intros H Hne; [ congruence | ].
  destruct l as [|d l].
  - destruct c; [ reflexivity | discriminate | discriminate ].
  - change (endsWithStr (c :: d :: l)) with (endsWithStr (d :: l)).
    apply IH; [ | discriminate ].
    destruct c; [ exact H | | ]; cbn in H; destruct d; try discriminate;
      apply andb_prop in H as [_ H]; exact H.
Qed.

(** ** The text of the result *)

Lemma textOnly_resolveImage (files : gmap jsstring UploadedFile) (m : ImageMatch) :
  textOnly (resolveImage files m)
  = (if resolutionThrows files m then matchText m else []) ++ matchText m.
Proof.
  unfold resolveImage, resolutionThrows. cbv zeta.
  repeat case_match; cbn; now rewrite app_nil_r.
Qed.

(** The text collected from [s]: [s] itself, with the markdown of
    every image whose resolution throws written twice. *)
Lemma textOnly_collect (files : gmap jsstring UploadedFile) :
  forall (fuel : nat) (s : jsstring),
    (length s < fuel)%nat ->
    (Forall (fun m => resolutionThrows files m = false) (imagesFrom fuel s) ->
     textOnly (collect fuel files s) = s)
    /\ length (textOnly (collect fuel files s))
       = (length s
          + sum_list_with
              (fun m => if resolutionThrows files m then length (matchText m) else O)
              (imagesFrom fuel s))%nat.
Proof.
  induction fuel as [|fuel IH]; intros s Hlen; [ lia | ].
  cbn [collect imagesFrom].
  destruct (exec s) as [[[before m] rest]|] eqn:E.
  - pose proof (exec_rest_shorter _ _ _ _ E) as Hrest.
    destruct (exec_sound _ _ _ _ E) as [Hs _].
    destruct (IH rest ltac:(lia)) as [IHeq IHlen].
    assert (textOnly (if nonEmpty before then [Str before] else []) = before) as Hb.
    { destruct before; cbn; now rewrite ?app_nil_r. }
    rewrite !textOnly_app, Hb, textOnly_resolveImage. split.
    + intros Hall. apply Forall_cons in Hall as [Hm Hall].
      rewrite Hm, (IHeq Hall). cbn [app]. symmetry. exact Hs.
    + cbn [sum_list_with]. rewrite !length_app, IHlen.
      apply (f_equal (@length N)) in Hs. rewrite !length_app in Hs.
      destruct (resolutionThrows files m); cbn [length]; lia.
  - cbn [sum_list_with]. destruct s; cbn; rewrite ?app_nil_r; split; auto; lia.
Qed.

(** ** Where the non-string chunks come from *)

Lemma mergeLoop_media_elements (c : PromptChunk) :
  isStr c = false ->
  forall (result : list PromptChunk) (tempString : jsstring),
    c ∈ mergeLoop result tempString [] <-> c ∈ result.
Proof.
  intros Hc. induction result as [|item result IH]; intros tempString.
  - cbn [mergeLoop]. unfold flush. destruct (nonEmpty tempString); [ | reflexivity ].
    split; intros H; [ | now apply not_elem_of_nil in H ].
    apply list_elem_of_singleton in H. subst c. discriminate.
  - destruct (isStr item) eqn:E.
    + destruct item as [s | |]; try discriminate. cbn [mergeLoop].
      rewrite IH, elem_of_cons. split; [ auto | ].
      intros [-> | H]; [ discriminate | exact H ].
    + rewrite (mergeLoop_media _ _ _ E), elem_of_app, !elem_of_cons, IH.
      split; [ | tauto ]. intros [H | H]; [ | exact H ].
      unfold flush in H. destruct (nonEmpty tempString).
      * apply list_elem_of_singleton in H. subst c. discriminate.
      * now apply not_elem_of_nil in H.
Qed.

Lemma collect_media_elements (files : gmap jsstring UploadedFile) (c : PromptChunk) :
  isStr c = false ->
  forall (fuel : nat) (s : jsstring),
    c ∈ collect fuel files s
    <-> exists m, m ∈ imagesFrom fuel s /\ c ∈ resolveImage files m.
Proof.
  intros Hc. induction fuel as [|fuel IH]; intros s.
  - cbn. split; [ intros H; now apply not_elem_of_nil in H | ].
    intros (m & H & _). now apply not_elem_of_nil in H.
  - cbn [collect imagesFrom]. destruct (exec s) as [[[before m] rest]|].
    + rewrite !elem_of_app, IH. split.
      * intros [H | [H | (m' & H1 & H2)]].
        -- destruct (nonEmpty before); [ | now apply not_elem_of_nil in H ].
           apply list_elem_of_singleton in H. subst c. discriminate.
        -- exists m. split; [ apply elem_of_cons; auto | exact H ].
        -- exists m'. split; [ apply elem_of_cons; auto | exact H2 ].
      * intros (m' & H1 & H2). apply elem_of_cons in H1 as [-> | H1]; [ auto | ].
        right. right. eauto.
    + split.
      * intros H. destruct (nonEmpty s); [ | now apply not_elem_of_nil in H ].
        apply list_elem_of_singleton in H. subst c. discriminate.
      * intros (m & H & _). now apply not_elem_of_nil in H.
Qed.

Lemma resolveImage_url (files : gmap jsstring UploadedFile) (m : ImageMatch)
      (u : URLObject) :
  Url u ∈ resolveImage files m
  <-> parseURL (imageUrl m) = Some u /\ protocol u <> lit "file:".
Proof.
  unfold resolveImage, jsstring_eqb.
  rewrite elem_of_app, list_elem_of_singleton.
  destruct (parseURL _) as [u'|].
  2: { rewrite list_elem_of_singleton. split; [ intros [H | H]; discriminate | ].
       intros [H _]. discriminate. }
  destruct (bool_decide_reflect (protocol u' = lit "file:")) as [Hp | Hp].
  - cbv zeta. split.
    + intros [H | H]; [ | discriminate ]. exfalso.
      repeat case_match;
        try (apply list_elem_of_singleton in H; discriminate);
        now apply not_elem_of_nil in H.
    + intros [H Hne]. injection H as ->. contradiction.
  - rewrite list_elem_of_singleton. split.
    + intros [H | H]; [ | discriminate ]. injection H as ->. auto.
    + intros [H _]. injection H as ->. auto.
Qed.

Lemma orElse_own (a b : FileSlot) (f : UploadedFile) :
  orElse a b = OwnFile f -> a = OwnFile f \/ b = OwnFile f.
Proof. destruct a; cbn; auto. Qed.

Lemma filesGet_own (files : gmap jsstring UploadedFile) (k : jsstring)
      (f : UploadedFile) :
  filesGet files k = OwnFile f -> files !! k = Some f.
Proof.
  unfold filesGet. destruct (files !! k); [ congruence | ].
  destruct (inheritedName k); discriminate.
Qed.

Lemma resolveImage_buffer (files : gmap jsstring UploadedFile) (m : ImageMatch)
      (b : Buffer) :
  Buf b ∈ resolveImage files m ->
  exists u k f,
    parseURL (imageUrl m) = Some u /\ protocol u = lit "file:"
    /\ files !! k = Some f /\ readFile f = Some b.
Proof.
  unfold resolveImage, jsstring_eqb.
  rewrite elem_of_app, list_elem_of_singleton.
  intros [H | H]; [ | discriminate ].
  destruct (parseURL _) as [u|]; [ | apply list_elem_of_singleton in H; discriminate ].
  destruct (bool_decide_reflect (protocol u = lit "file:")) as [Hp | Hp];
    [ | apply list_elem_of_singleton in H; discriminate ].
  cbv zeta in H.
  destruct (decodeURI _) as [d|];
    [ | apply list_elem_of_singleton in H; discriminate ].
  destruct (encodeURI _) as [e|];
    [ | apply list_elem_of_singleton in H; discriminate ].
  destruct (orElse _ _) as [f | |] eqn:Efile;
    try (apply list_elem_of_singleton in H; discriminate);
    try (now apply not_elem_of_nil in H).
  destruct (readFile f) as [buff|] eqn:Eread;
    apply list_elem_of_singleton in H; [ | discriminate ].
  injection H as ->.
  assert (exists k, files !! k = Some f) as [k Hk].
  { apply orElse_own in Efile as [E | E]; [ | apply orElse_own in E as [E | E] ];
      apply filesGet_own in E; exact (ex_intro _ _ E). }
  exists u, k, f. auto.
Qed.

Lemma expandMarkdown_text_kept
      (input : jsstring) (files : gmap jsstring UploadedFile) :
  (forall m, m ∈ images input -> resolutionThrows files m = false) ->
  textOnly (expandMarkdown input files) = input.
Proof.
  intros H. unfold expandMarkdown. rewrite mergeLoop_textOnly. cbn [textOnly app].
  apply textOnly_collect; [ lia | ]. apply Forall_forall. exact H.
Qed.

Lemma expandMarkdown_url_from_image
      (input : jsstring) (files : gmap jsstring UploadedFile) (u : URLObject) :
  Url u ∈ expandMarkdown input files
  <-> exists m, m ∈ images input
                /\ parseURL (imageUrl m) = Some u
                /\ protocol u <> lit "file:".
Proof.
  unfold expandMarkdown, images.
  rewrite mergeLoop_media_elements, collect_media_elements by reflexivity.
  split; intros (m & Hm & H); exists m; (split; [ exact Hm | ]).
  - exact (proj1 (resolveImage_url files m u) H).
  - exact (proj2 (resolveImage_url files m u) H).
Qed.

Lemma expandMarkdown_buffer_from_upload
      (input : jsstring) (files : gmap jsstring UploadedFile) (b : Buffer) :
  Buf b ∈ expandMarkdown input files ->
  exists m u k f,
    m ∈ images input
    /\ parseURL (imageUrl m) = Some u /\ protocol u = lit "file:"
    /\ files !! k = Some f /\ readFile f = Some b.
Proof.
  unfold expandMarkdown, images.
  rewrite mergeLoop_media_elements, collect_media_elements by reflexivity.
  intros (m & Hm & H). apply resolveImage_buffer in H as (u & k & f & H).
  exists m, u, k, f. auto.
Qed.

(** X14.  In the result of [expandMarkdown] every URL and every buffer
    is directly followed by a non-empty string, no chunk is the empty
    string, and the result ends with a string unless the input is
    empty. *)
Theorem expandMarkdown_media_is_followed_by_text
        (input : jsstring) (files : gmap jsstring UploadedFile) :
  mediaThenText (expandMarkdown input files) = true
  /\ (Str [] ∉ expandMarkdown input files)
  /\ endsWithStr (expandMarkdown input files) = nonEmpty input.
Proof.
  assert (mediaThenText (expandMarkdown input files) = true) as Hshape.
  { apply mergeLoop_mediaThenText, collect_mediaThenText. }
  split; [ exact Hshape | ]. split; [ apply mergeLoop_no_empty_string | ].
  destruct input as [|c input]; [ reflexivity | ].
  apply mediaThenText_endsWithStr; [ exact Hshape | ].
  intros Hnil. apply (f_equal textOnly) in Hnil.
  unfold expandMarkdown in Hnil. rewrite mergeLoop_textOnly in Hnil.
  apply (f_equal (@length N)) in Hnil.
  destruct (textOnly_collect files (S (length (c :: input))) (c :: input))
    as [_ Hlen]; [ lia | ].
  cbn [textOnly app] in Hnil. rewrite Hlen in Hnil. cbn in Hnil. lia.
Qed.

(** X15.  The strings of the result, concatenated, are the input
    exactly when the resolution of no image of the input throws; the
    markdown of an image whose resolution throws is written twice, so
    the text is then longer than the input by the markdown of these
    images. *)
Theorem expandMarkdown_keeps_the_text
        (input : jsstring) (files : gmap jsstring UploadedFile) :
  (textOnly (expandMarkdown input files) = input
   <-> forall m, m ∈ images input -> resolutionThrows files m = false)
  /\ length (textOnly (expandMarkdown input files))
     = (length input
        + sum_list_with
            (fun m => if resolutionThrows files m then length (matchText m) else O)
            (images input))%nat.
Proof.
  unfold expandMarkdown, images. rewrite mergeLoop_textOnly. cbn [textOnly app].
  destruct (textOnly_collect files (S (length input)) input) as [Heq Hlen]; [ lia | ].
  split; [ | exact Hlen ]. split.
  - intros H. rewrite H in Hlen.
    assert (sum_list_with
              (fun m => if resolutionThrows files m then length (matchText m) else O)
              (imagesFrom (S (length input)) input) = O) as Hzero by lia.
    clear -Hzero. induction (imagesFrom _ _) as [|m l IH]; intros m' Hin.
    + now apply not_elem_of_nil in Hin.
    + cbn [sum_list_with] in Hzero. apply elem_of_cons in Hin as [-> | Hin].
      * destruct (resolutionThrows files m); [ | reflexivity ].
        unfold matchText in Hzero. rewrite !length_app in Hzero. cbn in Hzero. lia.
      * apply IH; [ lia | exact Hin ].
  - intros H. apply Heq, Forall_forall. exact H.
Qed.

(** X16.  The URL chunks of the result are exactly the parsed URLs of
    the images of the input whose protocol is not [file:]; every
    buffer chunk is the content of a file of the upload map, read for
    an image whose URL has protocol [file:]. *)
Theorem expandMarkdown_media_provenance
        (input : jsstring) (files : gmap jsstring UploadedFile) :
  (forall u, Url u ∈ expandMarkdown input files
             <-> exists m, m ∈ images input
                           /\ parseURL (imageUrl m) = Some u
                           /\ protocol u <> lit "file:")
  /\ (forall b, Buf b ∈ expandMarkdown input files ->
                exists m u k f,
                  m ∈ images input
                  /\ parseURL (imageUrl m) = Some u /\ protocol u = lit "file:"
                  /\ files !! k = Some f /\ readFile f = Some b).
Proof.
  split.
  - intros u. apply expandMarkdown_url_from_image.
  - intros b. apply expandMarkdown_buffer_from_upload.
Qed.

End WithPlatform.

(** ** Examples *)

Local Abbreviation demo_expand input files :=
  (expandMarkdown demo_parseURL Some Some Buffer Some (lit input) files).

Example expand_plain :
  demo_expand "no image here, only [a link](https://a.test)" ∅
  = [Str (lit "no image here, only [a link](https://a.test)")].
Proof. vm_compute. reflexivity. Qed.

Example expand_remote_image :
  demo_expand "see ![fig](https://a.test/f.png) here" ∅
  = [ Str (lit "see ");
      Url (mkURL (lit "https:") (lit "/") (lit "https://a.test/f.png"));
      Str (lit "![fig](https://a.test/f.png) here") ].
Proof. vm_compute. reflexivity. Qed.

(** An image named after a member of [Object.prototype] is taken for an
    upload, cannot be read, and its markdown is pushed twice. *)
Example expand_inherited_name :
  demo_expand "![x](toString)" ∅ = [ Str (lit "![x](toString)![x](toString)") ].
Proof. vm_compute. reflexivity. Qed.

Example expand_uploaded_image :
  demo_expand "![a](x.png)![b](y.png)" {[ lit "x.png" := [1; 2; 3]%N ]}
  = [ Buf [1; 2; 3]%N; Str (lit "![a](x.png)![b](y.png)") ].
Proof. vm_compute. reflexivity. Qed.


(** Two images: a remote one, and one whose URL does not parse. *)
Example expand_two_images :
  expandMarkdown (fun u => if bool_decide (u = lit "http://") then None
                           else demo_parseURL u)
                 Some Some Buffer Some
                 (lit "a ![p](https://a.test/p.png) b ![q](http://)") ∅
  = [ Str (lit "a ");
      Url (mkURL (lit "https:") (lit "/") (lit "https://a.test/p.png"));
      Str (lit "![p](https://a.test/p.png) b ![q](http://)![q](http://)") ].
Proof. vm_compute. reflexivity. Qed.

End Markdown.

(* ===================================================================== *)
(** * 7. The prompt of [InterrogatorHost.interrogate] *)
(* ===================================================================== *)

Module Interrogate.
Import Markdown.

Definition LF : N := 10%N.

(** ['===== Start Of Webpage Content =====\n'] *)
Definition startOfContent : jsstring :=
  lit "===== Start Of Webpage Content =====" ++ [LF].

(** ['===== End Of Webpage Content =====\n\n'] *)
Definition endOfContent : jsstring :=
  lit "===== End Of Webpage Content =====" ++ [LF; LF].

Section WithPlatform.

Variable parseURL : jsstring -> option URLObject.
Variable decodeURI : jsstring -> option jsstring.
Variable encodeURI : jsstring -> option jsstring.
Variable UploadedFile : Type.
Variable readFile : UploadedFile -> option Buffer.

Local Abbreviation expand := (expandMarkdown parseURL decodeURI encodeURI UploadedFile readFile).
Local Abbreviation throws := (resolutionThrows parseURL decodeURI encodeURI UploadedFile readFile).

(** The chunks handed to [mdl.exec]: the page, expanded when
    [expandImages] is truthy ([expandMarkdown] is called without a file
    map, so with [{}]), between the two markers, then the question. *)
Definition promptChunks (expandImages : bool) (content prompt : jsstring)
  : list PromptChunk :=
  let promptChunks := if expandImages then expand content ∅ else [Str content] in
  let promptChunks := Str startOfContent :: promptChunks in
  let promptChunks := promptChunks ++ [Str endOfContent] in
  promptChunks ++ [Str prompt].

(** X17.  The prompt [interrogate] sends to the model never holds a
    buffer, and a URL only for an image of the page whose URL has
    another protocol than [file:], and only when image expansion was
    requested; its strings, concatenated, are the start marker, the
    page, the end marker and the question whenever expansion is off or
    the resolution of no image of the page throws. *)
Theorem interrogate_prompt (expandImages : bool) (content prompt : jsstring) :
  (forall b, Buf b ∉ promptChunks expandImages content prompt)
  /\ (forall u, Url u ∈ promptChunks expandImages content prompt ->
                expandImages = true /\ protocol u <> lit "file:"
                /\ exists m, m ∈ images content /\ parseURL (imageUrl m) = Some u)
  /\ ((expandImages = true ->
       forall m, m ∈ images content -> throws ∅ m = false) ->
      textOnly (promptChunks expandImages content prompt)
      = startOfContent ++ content ++ endOfContent ++ prompt).
Proof.
  unfold promptChunks. cbv zeta. split; [ | split ].
  - intros b H. rewrite !elem_of_app, elem_of_cons, !list_elem_of_singleton in H.
    destruct H as [[[H | H] | H] | H]; try discriminate.
    destruct expandImages; [ | apply list_elem_of_singleton in H; discriminate ].
    apply expandMarkdown_buffer_from_upload in H as (m & u & k & f & _ & _ & _ & Hk & _).
    rewrite lookup_empty in Hk. discriminate.
  - intros u H. rewrite !elem_of_app, elem_of_cons, !list_elem_of_singleton in H.
    destruct H as [[[H | H] | H] | H]; try discriminate.
    destruct expandImages; [ | apply list_elem_of_singleton in H; discriminate ].
    apply expandMarkdown_url_from_image in H as (m & Hm & Hu & Hp). eauto.
  - intros Hok. cbn [textOnly]. rewrite !textOnly_app. cbn [textOnly].
    rewrite !app_nil_r. destruct expandImages.
    + rewrite (expandMarkdown_text_kept _ _ _ _ _ content ∅ (Hok eq_refl)).
      now rewrite <- !app_assoc.
    + cbn [textOnly]. now rewrite app_nil_r, <- !app_assoc.
Qed.

End WithPlatform.

Lemma interrogate_prompt_witness :
  textOnly (promptChunks demo_parseURL Some Some Buffer Some true
                         (lit "see ![fig](https://a.test/f.png)")
                         (lit "What is shown?"))
  = startOfContent ++ lit "see ![fig](https://a.test/f.png)"
      ++ endOfContent ++ lit "What is shown?".
Proof.
  apply (interrogate_prompt demo_parseURL Some Some Buffer Some true).
  intros _ m Hm.
  assert (images (lit "see ![fig](https://a.test/f.png)")
          = [mkImageMatch (lit "fig") (lit "https://a.test/f.png")]) as E
      by (vm_compute; reflexivity).
  rewrite E in Hm. apply list_elem_of_singleton in Hm. subst m.
  vm_compute. reflexivity.
Defined.

End Interrogate.

(* ===================================================================== *)
(** * 8. Interrogator loop ([InterrogatorHost.chatWithReader]) *)
(* ===================================================================== *)

Module Chat.

(** ** JavaScript values *)

(** Values that travel through the loop: JSON data plus [undefined].
    Numbers are carried around but never computed with; only their
    truthiness and their string form are observed.  [JNum] holds the
    whole numbers below 1e21 in absolute value, the range in which
    [String] gives the plain decimal form. *)
#[local] Unset Elimination Schemes.
Inductive JsVal : Type :=
| JUndefined
| JNull
| JBool (b : bool)
| JNum (n : Z)
| JStr (s : string)
| JArr (items : list JsVal)
| JObj (fields : list (string * JsVal)).
#[local] Set Elimination Schemes.

(** [if (v)], [!v], [v || d], [v ? a : b] *)
Definition truthy (v : JsVal) : bool :=
  match v with
  | JUndefined | JNull => false
  | JBool b => b
  | JNum n => negb (n =? 0)
  | JStr s => negb (String.eqb s "")
  | JArr _ | JObj _ => true
  end.

(** [v && typeof v === 'object'] *)
Definition isObjectLike (v : JsVal) : bool :=
  match v with
  | JArr _ | JObj _ => true
  | _ => false
  end.

Fixpoint assoc (k : string) (fields : list (string * JsVal)) : JsVal :=
  match fields with
  | [] => JUndefined
  | (k', v) :: rest => if String.eqb k k' then v else assoc k rest
  end.

(** [v?.k]: property read that yields [undefined] on [null] and
    [undefined]; own data properties of plain objects only. *)
Definition js_get (v : JsVal) (k : string) : JsVal :=
  match v with
  | JObj fields => assoc k fields
  | _ => JUndefined
  end.

(** [v === 'text'] *)
Definition strictEqualsString (v : JsVal) (text : string) : bool :=
  match v with
  | JStr s => String.eqb s text
  | _ => false
  end.

(** [v.k] throws a TypeError on [null] and [undefined]. *)
Definition isNullish (v : JsVal) : bool :=
  match v with
  | JUndefined | JNull => true
  | _ => false
  end.

(** [String(v)], as used by template literals. *)
Fixpoint js_toString (v : JsVal) : string :=
  match v with
  | JUndefined => "undefined"
  | JNull => "null"
  | JBool true => "true"
  | JBool false => "false"
  | JNum n => Cruncher.showZ n
  | JStr s => s
  | JArr items =>
      (fix join (l : list JsVal) : string :=
         match l with
         | [] => ""
         | x :: rest =>
             (if isNullish x then "" else js_toString x)
               +:+ match rest with [] => "" | _ => "," +:+ join rest end
         end) items
  | JObj _ => "[object Object]"
  end.

(** A thrown value: an [Error] object or anything else. *)
Inductive Thrown : Type :=
| ErrorObject (name message : string)
| ThrownValue (v : JsVal).

(** [`${err}`]: [Error.prototype.toString] for error objects. *)
Definition thrown_toString (e : Thrown) : string :=
  match e with
  | ErrorObject name message =>
      if String.eqb name "" then message
      else if String.eqb message "" then name
      else name +:+ ": " +:+ message
  | ThrownValue v => js_toString v
  end.

(** ** Messages, requests, events *)

Record Message : Type := mkMessage {
  role : string;
  content : JsVal;
  name : JsVal;             (* [undefined] when absent *)
  tool_call_id : JsVal      (* [undefined] when absent *)
}.

Record LLMOptions : Type := mkOptions {
  system : option string;
  messages : list Message;
  functions : option (list JsVal)
}.

(** Frames written to [sseStream]. *)
Inductive SseFrame : Type :=
| EvChunk (data : string)
| EvN1 (data : JsVal)
| EvN2 (data : JsVal)
| EvSnapshot (data : JsVal)
| EvStructured (data : JsVal)
| EvCall (name arguments id : JsVal)
| EvText (text : string)
| EvReturn (name content id : JsVal)
| EvInjectHistory (data : Message)
| EvHistory (data : Message)
| EvError (data : string).

(** [OutputOpenAIChatCompletionResponseStream]: the frames delivered so
    far and whether [end()] has been called.  A write after [end()]
    delivers nothing. *)
Record SseStream : Type := mkSse {
  frames : list SseFrame;
  writableEnded : bool
}.

Definition sse_write (f : SseFrame) (s : SseStream) : SseStream :=
  if writableEnded s then s else mkSse (frames s ++ [f]) false.

Definition sse_end (last : option SseFrame) (s : SseStream) : SseStream :=
  if writableEnded s then s
  else mkSse (frames s ++ match last with Some f => [f] | None => [] end) true.

(** ** The model, the tools, and what a turn's stream does *)

Record Model : Type := mkModel {
  mdl_name : string;                (* the [model] the request names *)
  streamingSupported : bool;
  functionCallingSupported : bool;
  systemSupported : bool
}.

(** [this.llmToolsRegistry.getPromptMixin(options)] *)
Record PromptMixin : Type := mkMixin {
  mixin_system : option string;
  mixin_functions : option (list JsVal)
}.

Inductive ToolOutcome : Type :=
| ToolReturns (result : JsVal)
| ToolThrows (err : Thrown).

(** What the event loop delivers while a turn's stream is open. *)
Inductive StreamEvent : Type :=
| Data (chunk : JsVal)                   (* retStream 'data' *)
| NativeCall (params callId : JsVal)     (* retStream 'call', from the model driver *)
| ParserN1 (data : JsVal)                (* jsonParserStream 'n1' *)
| ParserN2 (data : JsVal)                (* jsonParserStream 'n2' *)
| ParserData (snapshot : JsVal)          (* jsonAccumulationStream 'data' *)
| Settle (task : nat).                   (* the tool promise [waitList[task]] settles *)

(** How the wait for the ['close'] of both streams ends.  The promise of
    [once(emitter, 'close')] is rejected when the emitter emits ['error']
    while it is awaited. *)
Inductive Finish : Type :=
| StreamEnd                              (* retStream 'end', then both close *)
| StreamError (name message : string)    (* retStream 'error' *)
| ParserError (err : Thrown)             (* jsonAccumulationStream 'error' *)
| NeverCloses.                           (* neither: the wait goes on for ever *)

Record StreamScript : Type := mkScript {
  timeline : list StreamEvent;
  finish : Finish;
  final : option JsVal;          (* payload of jsonAccumulationStream 'final', if emitted *)
  beforeClose : list nat;        (* tool promises settling before both streams close *)
  streamHistory : option Message;(* Reflect.get(retStream, 'history'), when set *)
  afterClose : list nat          (* tool promises settling during Promise.all(waitList) *)
}.

Inductive ExecResult : Type :=
| ExecThrows (err : Thrown)      (* mdl.exec rejects *)
| ExecNotAStream                 (* Readable.isReadable(retStream) is false *)
| ExecStream (script : StreamScript).

(** A tool call that passed the [params?.name] check. *)
Record Task : Type := mkTask {
  task_name : JsVal;                    (* params.name *)
  task_callId : JsVal;                  (* callId *)
  task_args : JsVal + Thrown            (* parsedArgs, or what parseJSON threw *)
}.

Record State : Type := mkState {
  sseStream : SseStream;
  tailMessages : list Message;
  callRoundsLeft : Q;
  keepLooping : bool;
  requests : list LLMOptions;           (* arguments of the mdl.exec calls so far *)
  resp : JsVal;                         (* let resp = '' *)
  waitList : list (Task * bool);        (* promises of this turn; settled? *)
  n1Seen : bool;                        (* once('n1') has fired *)
  n2Seen : bool                         (* once('n2') has fired *)
}.

(** How one iteration of the loop ends. *)
Inductive TurnResult : Type :=
| TurnDone (st : State)                 (* the next iteration is considered *)
| TurnHung (st : State)                 (* an awaited promise never settles *)
| TurnThrew (err : Thrown) (st : State). (* an [await] of the body throws *)

Inductive Outcome : Type :=
| Returned (st : State)                 (* return sseStream *)
| Rejected (err : Thrown) (st : State)  (* the async function throws *)
| Hung (st : State)                     (* awaits a promise that never settles *)
| OutOfFuel.

(** ** Numbers and parameter validation *)

(** A JavaScript number: the finite ones are rationals, and there are
    [NaN] and the two infinities.  [maxAdditionalTurns] is declared with
    [type: Number], so that fractions are numbers like any other. *)
Inductive JsNumber : Type :=
| Finite (q : Q)
| NaN
| Infinity (negative : bool).

(** [x > y] on finite numbers *)
Definition gtb (x y : Q) : bool := negb (Qle_bool x y).

(** [validate(turns: number) { return turns >= 0 && turns <= 50; }]:
    a comparison with [NaN] is false, [-Infinity >= 0] is false and
    [Infinity <= 50] is false. *)
Definition validate_maxAdditionalTurns (turns : JsNumber) : bool :=
  match turns with
  | Finite q => Qle_bool 0 q && Qle_bool q 50
  | NaN | Infinity _ => false
  end.

Definition default_maxAdditionalTurns : JsNumber := Finite 5.

(** ** The conversation of the examples *)

(** A plain [JSON.stringify] for the examples (no escaping is needed for
    the strings used here). *)
Definition dq : string := String (Ascii.ascii_of_nat 34) "".

Fixpoint demo_stringify (v : JsVal) : string :=
  match v with
  | JUndefined => "undefined"
  | JNull => "null"
  | JBool true => "true"
  | JBool false => "false"
  | JNum n => Cruncher.showZ n
  | JStr s => dq +:+ s +:+ dq
  | JArr items =>
      "[" +:+ (fix go (l : list JsVal) : string :=
                 match l with
                 | [] => ""
                 | x :: rest =>
                     demo_stringify x
                       +:+ match rest with [] => "" | _ => "," +:+ go rest end
                 end) items +:+ "]"
  | JObj fields =>
      "{" +:+ (fix go (l : list (string * JsVal)) : string :=
                 match l with
                 | [] => ""
                 | (k, x) :: rest =>
                     dq +:+ k +:+ dq +:+ ":" +:+ demo_stringify x
                       +:+ match rest with [] => "" | _ => "," +:+ go rest end
                 end) fields +:+ "}"
  end.

(** A model without native function calling that accepts a system prompt. *)
Definition demo_model : Model := mkModel "demo-llm" true false true.

Definition browseDescriptor : JsVal :=
  JObj [ ("name", JStr "browse");
         ("description", JStr "Browse and return the content of a specific url.") ].

Definition demo_mixin : PromptMixin :=
  mkMixin (Some "Being a smart assistant, there are several tools made available to you")
          (Some [browseDescriptor]).

Definition demo_question : list Message :=
  [ mkMessage "user" (JStr "What does https://a.test say?") JUndefined JUndefined ].

(** The JSON envelope of the scenario. *)
Definition useToolsEnvelope : JsVal :=
  JObj [ ("intention", JStr "USE_TOOLS");
         ("thoughts", JStr "x");
         ("tools", JArr [ JObj [ ("name", JStr "browse");
                                 ("arguments", JObj [("url", JStr "https://a.test")]);
                                 ("id", JStr "T1") ] ]) ].

(** The stream of the scenario: the envelope as text, then the end; the
    parser reports the object and delivers it as its final value.  The
    promise of the first tool call settles while the loop awaits
    [Promise.all(waitList)]. *)
Definition envelopeStream : StreamScript :=
  mkScript [ Data (JStr (demo_stringify useToolsEnvelope));
             ParserN1 (JStr ""); ParserData useToolsEnvelope ]
           StreamEnd (Some useToolsEnvelope) [] None [0%nat].

Definition answerStream : StreamScript :=
  mkScript [ Data (JStr "The page says hello.") ] StreamEnd None [] None [].

Definition demo_exec (turn : nat) (opts : LLMOptions) : ExecResult :=
  match turn with
  | O => ExecStream envelopeStream
  | _ => ExecStream answerStream
  end.

Definition demo_tools (name args : JsVal) : ToolOutcome :=
  if strictEqualsString name "browse" then ToolReturns (JStr "# Hello")
  else ToolThrows (ErrorObject "Error" "no such tool").

Definition failing_tools (name args : JsVal) : ToolOutcome :=
  ToolThrows (ErrorObject "TimeoutError" "Navigation timeout of 30000 ms exceeded").

(** A model with native function calling whose first answer is a call
    of [browse]; the promise of the call settles while the loop awaits
    [Promise.all(waitList)]. *)
Definition native_model : Model := mkModel "native-llm" true true true.

Definition browseCall : JsVal :=
  JObj [ ("name", JStr "browse");
         ("arguments", JObj [("url", JStr "https://a.test")]) ].

Definition nativeCallStream : StreamScript :=
  mkScript [ NativeCall browseCall (JStr "call_1") ] StreamEnd None [] None [0%nat].

Definition native_exec (turn : nat) (opts : LLMOptions) : ExecResult :=
  match turn with
  | O => ExecStream nativeCallStream
  | _ => ExecStream answerStream
  end.

Definition demo_parseJSON (text : string) : JsVal + Thrown :=
  inr (ErrorObject "SyntaxError" "Unexpected end of JSON input").

Definition demo_options : LLMOptions := mkOptions None demo_question None.

Definition frameKind (f : SseFrame) : string :=
  match f with
  | EvChunk _ => "chunk"
  | EvN1 _ => "n1"
  | EvN2 _ => "n2"
  | EvSnapshot _ => "snapshot"
  | EvStructured _ => "structured"
  | EvCall _ _ _ => "call"
  | EvText _ => "text"
  | EvReturn _ _ _ => "return"
  | EvInjectHistory _ => "injectHistory"
  | EvHistory _ => "history"
  | EvError _ => "error"
  end.



Section WithEnvironment.

(** [this.llmManager.assertModel(model)] *)
Variable mdl : Model.

(** [this.llmToolsRegistry.getPromptMixin(options)] *)
Variable functionsMixin : PromptMixin.

(** [trimMessages('', options, mdl.windowSize - options.max_tokens)] *)
Variable trimmedMessages : list Message.

(** [mdl.exec('', thisOptions)] on the turn with the given index. *)
Variable mdl_exec : nat -> LLMOptions -> ExecResult.

(** [this.llmToolsRegistry.exec(name, parsedArgs)] *)
Variable toolExec : JsVal -> JsVal -> ToolOutcome.

(** [parseJSON(text, { expectControlCharacterInString: true,
    expectContaminated: 'object' })] *)
Variable parseJSON : string -> JsVal + Thrown.

(** [JSON.stringify(v)] and [JSON.stringify(v, undefined, 2)] *)
Variable JSON_stringify : JsVal -> string.
Variable JSON_stringify_pretty : JsVal -> string.

(** [\n] in a template literal: a line feed. *)
Definition LF : string := String (Ascii.ascii_of_nat 10) "".

(** A template-literal hole filled with a possibly undefined string. *)
Definition hole (s : option string) : string :=
  match s with Some s => s | None => "undefined" end.

Definition nonEmptyString (s : option string) : bool :=
  match s with Some s => negb (String.eqb s "") | None => false end.

(** [if (!mdl.functionCallingSupported) options.system =
     `${options.system ? `${options.system}\n\n` : ''}${functionsMixin.system}`] *)
Definition initialSystem (system : option string) : option string :=
  if functionCallingSupported mdl then system
  else Some ((if nonEmptyString system then hole system +:+ LF +:+ LF else "")
               +:+ hole (mixin_system functionsMixin)).

(** ** State updates *)

Definition write (f : SseFrame) (st : State) : State :=
  mkState (sse_write f (sseStream st)) (tailMessages st) (callRoundsLeft st)
          (keepLooping st) (requests st) (resp st) (waitList st)
          (n1Seen st) (n2Seen st).

Definition pushTail (m : Message) (st : State) : State :=
  mkState (sseStream st) (tailMessages st ++ [m]) (callRoundsLeft st)
          (keepLooping st) (requests st) (resp st) (waitList st)
          (n1Seen st) (n2Seen st).

Definition setWaitList (w : list (Task * bool)) (st : State) : State :=
  mkState (sseStream st) (tailMessages st) (callRoundsLeft st)
          (keepLooping st) (requests st) (resp st) w
          (n1Seen st) (n2Seen st).

Definition setKeepLooping (b : bool) (st : State) : State :=
  mkState (sseStream st) (tailMessages st) (callRoundsLeft st)
          b (requests st) (resp st) (waitList st)
          (n1Seen st) (n2Seen st).

(** ** The 'call' listener *)

(** [callId ? { role: 'tool', content: result, tool_call_id: callId }
            : { role: 'function', content: result, name: params.name }] *)
Definition historyItem (name callId result : JsVal) : Message :=
  if truthy callId then mkMessage "tool" result JUndefined callId
  else mkMessage "function" result name JUndefined.

(** The value of [result] when the promise body reaches [historyItem]. *)
Definition taskResult (t : Task) : JsVal :=
  match task_args t with
  | inr err => JStr (thrown_toString err)
  | inl parsedArgs =>
      match toolExec (task_name t) parsedArgs with
      | ToolReturns result => result
      | ToolThrows err => JStr (thrown_toString err)
      end
  end.

Definition taskHistoryItem (t : Task) : Message :=
  historyItem (task_name t) (task_callId t) (taskResult t).

(** The part of the promise body after the [try]/[catch]:
    push the history item, announce it, resolve. *)
Definition recordResult (t : Task) (st : State) : State :=
  write (EvInjectHistory (taskHistoryItem t)) (pushTail (taskHistoryItem t) st).

(** The promise body from the point where its [try] block is left: when
    [this.llmToolsRegistry.exec] has returned, the 'return' frame is
    written; when it (or [parseJSON]) has thrown, the [catch] sets
    [result = `${err}`]; then the result is recorded. *)
Definition finishTask (t : Task) (st : State) : State :=
  let st :=
    match task_args t with
    | inl parsedArgs =>
        match toolExec (task_name t) parsedArgs with
        | ToolReturns result =>
            write (EvReturn (task_name t) result (task_callId t)) st
        | ToolThrows _ => st
        end
    | inr _ => st
    end in
  recordResult t st.

Fixpoint markSettled (i : nat) (w : list (Task * bool)) : list (Task * bool) :=
  match w, i with
  | [], _ => []
  | (t, _) :: rest, O => (t, true) :: rest
  | x :: rest, S i' => x :: markSettled i' rest
  end.

(** The event loop resumes the promise of [waitList[i]], if it is still
    pending. *)
Definition settle (i : nat) (st : State) : State :=
  match nth_error (waitList st) i with
  | Some (t, false) => setWaitList (markSettled i (waitList st)) (finishTask t st)
  | _ => st
  end.

(** [typeof params.arguments === 'string' ? parseJSON(params.arguments,
    {...}) : (params.arguments || {})] *)
Definition parsedArguments (params : JsVal) : JsVal + Thrown :=
  let arguments := js_get params "arguments" in
  match arguments with
  | JStr text => parseJSON text
  | _ => inl (if truthy arguments then arguments else JObj [])
  end.

(** [retStream.on('call', (params, callId) => { ... })] up to the first
    [await]. *)
Definition onCall (params callId : JsVal) (st : State) : State :=
  let name := js_get params "name" in
  if negb (truthy name) then st
  else
    let parsed := parsedArguments params in
    let t := mkTask name callId parsed in
    match parsed with
    | inr _ =>
        (* parseJSON threw: the catch block and the rest run at once *)
        setWaitList (waitList st ++ [(t, true)]) (finishTask t st)
    | inl parsedArgs =>
        let st := write (EvCall name parsedArgs callId) st in
        let st := write (EvText ("Calling tool " +:+ js_toString name
                                   +:+ " with arguments: "
                                   +:+ JSON_stringify_pretty parsedArgs)) st in
        setWaitList (waitList st ++ [(t, false)]) st
    end.

(** ** The listeners of the pseudo function calling block *)

(** [for (const toolCall of toolCalls) retStream.emit('call', toolCall,
    toolCall.id)]; reading [.id] of [null] or [undefined] throws inside
    the listener and ends it (what the exception then does to the
    emitting stream is left to the parser library). *)
Fixpoint emitCalls (toolCalls : list JsVal) (st : State) : State :=
  match toolCalls with
  | [] => st
  | toolCall :: rest =>
      if isNullish toolCall then st
      else emitCalls rest (onCall toolCall (js_get toolCall "id") st)
  end.

(** [jsonAccumulationStream.once('final', (final) => { ... })] *)
Definition onFinal (softwareFunctionCallingInAction : bool) (final : JsVal)
           (st : State) : State :=
  if negb (truthy final && isObjectLike final) then st
  else
    let st := write (EvStructured final) st in
    if negb (strictEqualsString (js_get final "intention") "USE_TOOLS") then st
    else
      match js_get final "tools" with
      | JArr toolCalls =>
          if softwareFunctionCallingInAction then
            emitCalls toolCalls
              (pushTail (mkMessage "assistant" (JStr (JSON_stringify final))
                                   JUndefined JUndefined) st)
          else st
      | _ => st
      end.

(** [retStream.on('data', (chunk) => { ... })] *)
Definition onData (chunk : JsVal) (st : State) : State :=
  match chunk with
  | JStr text =>
      let st := mkState (sseStream st) (tailMessages st) (callRoundsLeft st)
                        (keepLooping st) (requests st)
                        (JStr (js_toString (resp st) +:+ text)) (waitList st)
                        (n1Seen st) (n2Seen st) in
      write (EvChunk text) st
  | _ =>
      mkState (sseStream st) (tailMessages st) (callRoundsLeft st)
              (keepLooping st) (requests st) chunk (waitList st)
              (n1Seen st) (n2Seen st)
  end.

(** [jsonAccumulationStream.on('data', (snapshot) => { ... })] *)
Definition onSnapshot (snapshot : JsVal) (st : State) : State :=
  if negb (truthy snapshot && isObjectLike snapshot) then st
  else write (EvSnapshot snapshot) st.

(** [jsonParserStream.once('n1', ...)], [jsonParserStream.once('n2', ...)] *)
Definition onN1 (data : JsVal) (st : State) : State :=
  if n1Seen st then st
  else write (EvN1 data)
         (mkState (sseStream st) (tailMessages st) (callRoundsLeft st)
                  (keepLooping st) (requests st) (resp st) (waitList st)
                  true (n2Seen st)).

Definition onN2 (data : JsVal) (st : State) : State :=
  if n2Seen st then st
  else write (EvN2 data)
         (mkState (sseStream st) (tailMessages st) (callRoundsLeft st)
                  (keepLooping st) (requests st) (resp st) (waitList st)
                  (n1Seen st) true).

Definition onStreamEvent (st : State) (ev : StreamEvent) : State :=
  match ev with
  | Data chunk => onData chunk st
  | NativeCall params callId => onCall params callId st
  | ParserN1 data => onN1 data st
  | ParserN2 data => onN2 data st
  | ParserData snapshot => onSnapshot snapshot st
  | Settle i => settle i st
  end.

(** [retStream.once('error', (err) => { keepLooping = false;
    jsonParserStream.end(); if (!sseStream.writableEnded) sseStream.end({
    event: 'error', data: `${err.name}: ${err.message}` }); })] *)
Definition onError (name message : string) (st : State) : State :=
  let st := setKeepLooping false st in
  mkState (sse_end (Some (EvError (name +:+ ": " +:+ message))) (sseStream st))
          (tailMessages st) (callRoundsLeft st) (keepLooping st) (requests st)
          (resp st) (waitList st) (n1Seen st) (n2Seen st).

Definition settleAll (order : list nat) (st : State) : State :=
  fold_left (fun st i => settle i st) order st.

Definition allSettled (st : State) : bool :=
  forallb snd (waitList st).

(** ** One iteration of the [while] loop *)

(** [thisOptions], built at the top of the loop body. *)
Definition softwareFunctionCalling (st : State) : bool :=
  match mixin_functions functionsMixin with
  | Some _ =>
      gtb (callRoundsLeft st) 1
        && negb (functionCallingSupported mdl) && systemSupported mdl
  | None => false
  end.

Definition thisOptions (options : LLMOptions) (st : State) : LLMOptions :=
  let attach :=
    match mixin_functions functionsMixin with
    | Some _ => gtb (callRoundsLeft st) 1
    | None => false
    end in
  mkOptions
    (if softwareFunctionCalling st then
       Some (hole (if nonEmptyString (system options) then system options else Some "")
               +:+ (if nonEmptyString (system options) then LF +:+ LF else "")
               +:+ hole (mixin_system functionsMixin))
     else system options)
    (trimmedMessages ++ tailMessages st)
    (if attach then mixin_functions functionsMixin else functions options).

(** The loop body from the registration of the listeners on, stage by
    stage.  First the events delivered while the stream is open. *)
Definition afterTimeline (script : StreamScript) (st : State) : State :=
  fold_left onStreamEvent (timeline script) st.

(** The stream has ended (['end'] only ends the JSON parser); the
    parser, once ended, may deliver its final value. *)
Definition afterFinal (softwareFC : bool) (script : StreamScript) (st : State) : State :=
  match final script with
  | Some v => onFinal softwareFC v (afterTimeline script st)
  | None => afterTimeline script st
  end.

(** [await Promise.all([once(retStream, 'close'),
    once(jsonAccumulationStream, 'close')]);
    if (!waitList.length) keepLooping = false;] *)
Definition atClose (softwareFC : bool) (script : StreamScript) (st : State) : State :=
  let st := settleAll (beforeClose script) (afterFinal softwareFC script st) in
  if (length (waitList st) =? 0)%nat then setKeepLooping false st else st.

(** [Reflect.get(retStream, 'history') || { role: 'assistant', content: resp }] *)
Definition turnHistory (script : StreamScript) (st : State) : Message :=
  match streamHistory script with
  | Some h => h
  | None => mkMessage "assistant" (resp st) JUndefined JUndefined
  end.

(** [if (keepLooping) { if (!softwareFunctionCallingInAction)
    tailMessages.push(history); write injectHistory } else write history] *)
Definition afterHistory (softwareFC : bool) (script : StreamScript) (st : State) : State :=
  let st := atClose softwareFC script st in
  if keepLooping st then
    write (EvInjectHistory (turnHistory script st))
          (if softwareFC then st else pushTail (turnHistory script st) st)
  else write (EvHistory (turnHistory script st)) st.

(** [await Promise.all(waitList);] *)
Definition turnEnd (softwareFC : bool) (script : StreamScript) (st : State) : State :=
  settleAll (afterClose script) (afterHistory softwareFC script st).

(** The loop body from the registration of the listeners to
    [waitList.length = 0].  An ['error'] of the model's stream runs the
    ['error'] listener and rejects [once(retStream, 'close')]; an
    ['error'] of the JSON streams rejects
    [once(jsonAccumulationStream, 'close')]; either way the [await]
    throws, and what the listeners do afterwards is no longer seen by the
    caller.  Otherwise the turn completes when every promise of
    [waitList] has settled, and [Promise.all(waitList)] never resolves
    when one does not. *)
Definition runStream (softwareFC : bool) (script : StreamScript) (st : State)
  : TurnResult :=
  match finish script with
  | StreamError name message =>
      TurnThrew (ErrorObject name message)
                (onError name message (afterTimeline script st))
  | ParserError err => TurnThrew err (afterTimeline script st)
  | NeverCloses => TurnHung (afterTimeline script st)
  | StreamEnd =>
      let st := turnEnd softwareFC script st in
      if allSettled st then TurnDone st else TurnHung st
  end.

(** [sseStream.end()] *)
Definition endStream (st : State) : State :=
  mkState (sse_end None (sseStream st)) (tailMessages st) (callRoundsLeft st)
          (keepLooping st) (requests st) (resp st) (waitList st)
          (n1Seen st) (n2Seen st).

(** The state after [mdl.exec] has returned a stream: [callRoundsLeft--],
    the fresh [resp], [waitList] and listeners of the iteration.  On the
    numbers the validator admits the subtraction is exact in binary64 as
    long as its result is not below -1/2; a result below that may be
    rounded but stays negative, and only its sign is read afterwards. *)
Definition beginTurn (opts : LLMOptions) (st : State) : State :=
  mkState (sseStream st) (tailMessages st) (callRoundsLeft st - 1)%Q
          (keepLooping st) (requests st ++ [opts]) (JStr "") []
          false false.

Fixpoint turnLoop (fuel : nat) (options : LLMOptions) (st : State) : Outcome :=
  match fuel with
  | O => OutOfFuel
  | S fuel' =>
      if keepLooping st && gtb (callRoundsLeft st) 0 then
        let softwareFC := softwareFunctionCalling st in
        let opts := thisOptions options st in
        match mdl_exec (length (requests st)) opts with
        | ExecThrows err =>
            Rejected err
              (mkState (sseStream st) (tailMessages st) (callRoundsLeft st)
                       (keepLooping st) (requests st ++ [opts]) (resp st)
                       (waitList st) (n1Seen st) (n2Seen st))
        | ExecNotAStream =>
            Rejected (ErrorObject "AssertionFailureError" "Model did not return a stream")
                     (beginTurn opts st)
        | ExecStream script =>
            match runStream softwareFC script (beginTurn opts st) with
            | TurnDone st' => turnLoop fuel' options (setWaitList [] st')
            | TurnHung st' => Hung st'
            | TurnThrew err st' => Rejected err st'
            end
        end
      else
        (* sseStream.end(); return sseStream; *)
        Returned (endStream st)
  end.

Definition initialState (maxAdditionalTurns : Q) : State :=
  mkState (mkSse [] false) [] maxAdditionalTurns true [] (JStr "") [] false false.

(** The body of [chatWithReader] from [const mdl = ...] on, for a request
    that passed authentication and rate limiting.  The counter loses 1
    per turn, so that the loop is over after as many turns as the least
    whole number that is not below [maxAdditionalTurns]. *)
Definition chatWithReader (options : LLMOptions) (maxAdditionalTurns : Q) : Outcome :=
  if negb (streamingSupported mdl) then
    Rejected (ErrorObject "AssertionFailureError"
                ("Model " +:+ mdl_name mdl +:+ " does not support streaming."))
             (initialState maxAdditionalTurns)
  else
    let options := mkOptions (initialSystem (system options)) (messages options)
                             (functions options) in
    turnLoop (S (Z.to_nat (Qceiling maxAdditionalTurns))) options
             (initialState maxAdditionalTurns).

(** The RPC entry point: the parameter defaults to 5 and is validated
    before the body runs; [None] stands for the request that is turned
    down.  A number that passes the validator is finite. *)
Definition chatWithReader_rpc (options : LLMOptions)
           (maxAdditionalTurns : option JsNumber) : option Outcome :=
  let turns := match maxAdditionalTurns with
               | Some t => t
               | None => default_maxAdditionalTurns
               end in
  if validate_maxAdditionalTurns turns then
    match turns with
    | Finite q => Some (chatWithReader options q)
    | _ => None
    end
  else None.

Definition resultState (r : TurnResult) : State :=
  match r with TurnDone st | TurnHung st | TurnThrew _ st => st end.

Definition outcomeState (o : Outcome) : option State :=
  match o with
  | Returned st | Rejected _ st | Hung st => Some st
  | OutOfFuel => None
  end.

Definition isStructured (f : SseFrame) : bool :=
  match f with EvStructured _ => true | _ => false end.
Definition isCall (f : SseFrame) : bool :=
  match f with EvCall _ _ _ => true | _ => false end.
Definition isReturn (f : SseFrame) : bool :=
  match f with EvReturn _ _ _ => true | _ => false end.
Definition isHistory (f : SseFrame) : bool :=
  match f with EvHistory _ => true | _ => false end.
Definition isError (f : SseFrame) : bool :=
  match f with EvError _ => true | _ => false end.

Definition countFrames (p : SseFrame -> bool) (s : SseStream) : Z :=
  Z.of_nat (length (List.filter p (frames s))).

(** ** Relations between the states of a turn *)

(** [grows P st st']: the turn counter, the request log, [keepLooping]
    and the ended flag are untouched, frames satisfying [P] were appended to the stream, and
    messages were appended to [tailMessages]. *)
Definition grows (P : SseFrame -> bool) (st st' : State) : Prop :=
  callRoundsLeft st' = callRoundsLeft st
  /\ requests st' = requests st
  /\ keepLooping st' = keepLooping st
  /\ writableEnded (sseStream st') = writableEnded (sseStream st)
  /\ (exists extra, frames (sseStream st') = frames (sseStream st) ++ extra
                    /\ forallb P extra = true)
  /\ (exists more, tailMessages st' = tailMessages st ++ more).

(** Frames a tool call may write. *)
Definition toolFrame (f : SseFrame) : bool :=
  match f with
  | EvCall _ _ _ | EvText _ | EvReturn _ _ _ | EvInjectHistory _ => true
  | _ => false
  end.

(** Frames the stream listeners write when no tool call is dispatched. *)
Definition plainFrame (f : SseFrame) : bool :=
  match f with
  | EvChunk _ | EvN1 _ | EvN2 _ | EvSnapshot _ => true
  | _ => false
  end.

Definition turnFrame (f : SseFrame) : bool := toolFrame f || plainFrame f.

Definition countStructured (st : State) : Z := countFrames isStructured (sseStream st).

(** [framesGrow P st st']: frames satisfying [P] were appended; the turn
    counter and the request log are untouched. *)
Definition framesGrow (P : SseFrame -> bool) (st st' : State) : Prop :=
  callRoundsLeft st' = callRoundsLeft st
  /\ requests st' = requests st
  /\ exists extra, frames (sseStream st') = frames (sseStream st) ++ extra
                   /\ forallb P extra = true.

(** Frames written by a turn outside of the [final] listener's
    [structured] frame. *)
Definition unstructured (f : SseFrame) : bool := negb (isStructured f).

(** Frames written after the parser's final value has been handled. *)
Definition closingFrame (f : SseFrame) : bool := toolFrame f || isHistory f.

(** What a whole turn does to the counters. *)
Record turnBound (st st' : State) : Prop := mkTurnBound {
  tb_rounds : callRoundsLeft st' = callRoundsLeft st;
  tb_requests : requests st' = requests st;
  tb_structured : countStructured st <= countStructured st' <= countStructured st + 1
}.

(** What can make the loop throw [err]: the model call rejects, it does
    not return a stream, the stream it returned emits ['error'], or the
    JSON streams reading it do. *)
Definition modelFailure (r : ExecResult) (err : Thrown) : Prop :=
  match r with
  | ExecThrows e => err = e
  | ExecNotAStream =>
      err = ErrorObject "AssertionFailureError" "Model did not return a stream"
  | ExecStream script =>
      match finish script with
      | StreamEnd => False
      | StreamError name message => err = ErrorObject name message
      | ParserError e => err = e
      | NeverCloses => False
      end
  end.

(** The calls dispatched in the turn, in the order of their dispatch. *)
Definition tasksOf (st : State) : list Task := List.map fst (waitList st).

(** Every settled promise has pushed its history item. *)
Definition settledRecorded (st : State) : Prop :=
  forall t, (t, true) ∈ waitList st -> taskHistoryItem t ∈ tailMessages st.

(** [advances st st']: within a turn, messages are only appended, calls
    stay in [waitList] in the order of their dispatch, and settled calls
    stay recorded. *)
Record advances (st st' : State) : Prop := mkAdvances {
  adv_tail : exists more, tailMessages st' = tailMessages st ++ more;
  adv_tasks : exists newer, tasksOf st' = tasksOf st ++ newer;
  adv_recorded : settledRecorded st -> settledRecorded st'
}.

(** A stream that carries text only: the model emits no native [call]. *)
Definition isNativeCall (ev : StreamEvent) : bool :=
  match ev with NativeCall _ _ => true | _ => false end.

Definition textOnly (events : list StreamEvent) : bool :=
  forallb (fun ev => negb (isNativeCall ev)) events.

(** The kinds of the frames written, in order. *)
Definition trace (o : Outcome) : list string :=
  match outcomeState o with
  | Some st => List.map frameKind (frames (sseStream st))
  | None => []
  end.


(** ** Whole-run properties *)

(** Whether the functions of the mixin are attached to a request made
    with [roundsLeft] rounds left:
    [functionsMixin.functions && callRoundsLeft > 1]. *)
Definition toolsOffered (roundsLeft : Q) : bool :=
  match mixin_functions functionsMixin with
  | Some _ => gtb roundsLeft 1
  | None => false
  end.

(** [softwareFunctionCallingInAction] in a turn that starts with
    [roundsLeft] rounds left. *)
Definition softwareFunctionCallingAt (roundsLeft : Q) : bool :=
  toolsOffered roundsLeft && negb (functionCallingSupported mdl) && systemSupported mdl.

(** The tool calls a turn dispatches, read off what the stream of the
    model delivers: a ['call'] event whose [params.name] is truthy, and,
    with software function calling in action, a named entry of the
    [tools] array of a final JSON value whose [intention] is
    ["USE_TOOLS"], as long as no entry before it is [null] or
    [undefined] (reading [.id] of such an entry ends the [for] loop over
    the entries). *)
Inductive dispatches (softwareFC : bool) (script : StreamScript) : Task -> Prop :=
| dispatches_native (earlier later : list StreamEvent) (params callId : JsVal) :
    timeline script = earlier ++ NativeCall params callId :: later ->
    truthy (js_get params "name") = true ->
    dispatches softwareFC script
               (mkTask (js_get params "name") callId (parsedArguments params))
| dispatches_envelope (v : JsVal) (before after : list JsVal) (toolCall : JsVal) :
    softwareFC = true ->
    final script = Some v ->
    truthy v && isObjectLike v = true ->
    strictEqualsString (js_get v "intention") "USE_TOOLS" = true ->
    js_get v "tools" = JArr (before ++ toolCall :: after) ->
    Forall (fun c => isNullish c = false) before ->
    truthy (js_get toolCall "name") = true ->
    dispatches softwareFC script
               (mkTask (js_get toolCall "name") (js_get toolCall "id")
                       (parsedArguments toolCall)).

(** The calls dispatched in the turn of request [i] of a run allowed
    [turns] turns: those of the stream [mdl.exec] returns for it. *)
Definition dispatchedIn (turns : Q) (i : nat) (ri : LLMOptions) (t : Task) : Prop :=
  exists script,
    mdl_exec i ri = ExecStream script
    /\ dispatches (softwareFunctionCallingAt (turns - inject_Z (Z.of_nat i))) script t.

(** The results of the calls of a turn are part of the next request. *)
Definition fedBack (turns : Q) (reqs : list LLMOptions) : Prop :=
  forall (i : nat) (ri rnext : LLMOptions) (t : Task),
    reqs !! i = Some ri -> reqs !! S i = Some rnext ->
    dispatchedIn turns i ri t ->
    taskHistoryItem t ∈ messages rnext.

(** What the loop keeps true of the results of the calls, at its head. *)
Record feedsBack (turns : Q) (st : State) : Prop := mkFeedsBack {
  fb_rounds :
    (callRoundsLeft st == turns - inject_Z (Z.of_nat (length (requests st))))%Q;
  fb_next : fedBack turns (requests st);
  fb_tail : forall i ri t,
      requests st !! i = Some ri -> dispatchedIn turns i ri t ->
      taskHistoryItem t ∈ tailMessages st;
  fb_goes_on : forall i ri t,
      requests st !! i = Some ri -> S i = length (requests st) ->
      dispatchedIn turns i ri t -> keepLooping st = true
}.

(** The same of an outcome: a run that returns has recorded every
    result, and has made the next request unless no round was left. *)
Definition fedBackAtEnd (turns : Q) (o : Outcome) : Prop :=
  match o with
  | Returned st =>
      fedBack turns (requests st)
      /\ forall i ri t,
           requests st !! i = Some ri -> dispatchedIn turns i ri t ->
           taskHistoryItem t ∈ tailMessages st
           /\ ((inject_Z (Z.of_nat i) + 1 < turns)%Q -> is_Some (requests st !! S i))
  | Rejected _ st | Hung st => fedBack turns (requests st)
  | OutOfFuel => True
  end.

(** The conversation has been opened: the first request carries the
    trimmed messages of the caller. *)
Definition opened (reqs : list LLMOptions) : Prop :=
  exists r0, reqs !! 0%nat = Some r0 /\ messages r0 = trimmedMessages.

(** The turn cap as the specification words it: no more [structured]
    frames than [maxAdditionalTurns]. *)
Definition turn_cap_as_stated : Prop :=
  forall (options : LLMOptions) (turns : Q) (o : Outcome) (st : State),
    chatWithReader_rpc options (Some (Finite turns)) = Some o ->
    outcomeState o = Some st ->
    (inject_Z (countFrames isStructured (sseStream st)) <= turns)%Q.

(** Feeding back as the specification words it: the string form of
    what a tool threw is sent to the model on the next turn. *)
Definition tool_failures_fed_back_as_stated : Prop :=
  forall (options : LLMOptions) (turns : Q) (st : State) (i : nat) (ri : LLMOptions)
         (t : Task) (args : JsVal) (err : Thrown),
    chatWithReader options turns = Returned st ->
    requests st !! i = Some ri ->
    dispatchedIn turns i ri t ->
    task_args t = inl args ->
    toolExec (task_name t) args = ToolThrows err ->
    exists rnext,
      requests st !! S i = Some rnext
      /\ historyItem (task_name t) (task_callId t) (JStr (thrown_toString err))
           ∈ messages rnext.

(** Frames a turn writes before it looks at [waitList]. *)
Definition bodyFrame (f : SseFrame) : bool := isStructured f || turnFrame f.

Definition noFrame (p : SseFrame -> bool) (l : list SseFrame) : Prop :=
  Forall (fun f => p f = false) l.

(** The requests logged so far form one conversation: the first one
    carries the trimmed messages of the caller, each later one extends
    the one before, and all are part of the conversation so far. *)
Record oneConversation (reqs : list LLMOptions) (tail : list Message) : Prop :=
  mkOneConversation {
    conv_fresh : reqs = [] -> tail = [];
    conv_first : forall r, reqs !! 0%nat = Some r -> messages r = trimmedMessages;
    conv_chain : forall i j ri rj,
        (i <= j)%nat -> reqs !! i = Some ri -> reqs !! j = Some rj ->
        messages ri `prefix_of` messages rj;
    conv_last : forall r, r ∈ reqs ->
                          messages r `prefix_of` trimmedMessages ++ tail
  }.

(** The request with index [i] was built by [thisOptions] with
    [turns - i] rounds left. *)
Definition builtInOrder (options : LLMOptions) (turns : Q) (reqs : list LLMOptions)
  : Prop :=
  forall (i : nat) r,
    reqs !! i = Some r ->
    exists st, r = thisOptions options st
               /\ (callRoundsLeft st == turns - inject_Z (Z.of_nat i))%Q.

(** The frames that close a stream. *)
Definition terminalFrame (f : SseFrame) : bool := isHistory f || isError f.

(** Every [return] frame comes after a [call] frame of the same name
    and id. *)
Definition returnsFollowCalls (l : list SseFrame) : Prop :=
  forall pre name content id post,
    l = pre ++ EvReturn name content id :: post ->
    exists arguments, EvCall name arguments id ∈ pre.

(** The calls still pending have been announced by a [call] frame. *)
Definition pendingAnnounced (st : State) : Prop :=
  forall t parsedArgs,
    (t, false) ∈ waitList st -> task_args t = inl parsedArgs ->
    EvCall (task_name t) parsedArgs (task_callId t) ∈ frames (sseStream st).

(** The stream of a state at the head of the loop. *)
Definition streamAtHead (st : State) : Prop :=
  writableEnded (sseStream st) = false
  /\ ((keepLooping st = true /\ noFrame terminalFrame (frames (sseStream st)))
      \/ (keepLooping st = false
          /\ exists pre h, frames (sseStream st) = pre ++ [EvHistory h]
                           /\ noFrame terminalFrame pre)).

(** The stream of an outcome. *)
Definition streamAtEnd (o : Outcome) : Prop :=
  match o with
  | Returned st =>
      writableEnded (sseStream st) = true
      /\ ((keepLooping st = false
           /\ exists pre h, frames (sseStream st) = pre ++ [EvHistory h]
                            /\ noFrame terminalFrame pre)
          \/ (keepLooping st = true /\ (callRoundsLeft st <= 0)%Q
              /\ noFrame terminalFrame (frames (sseStream st))))
  | Rejected err st =>
      (writableEnded (sseStream st) = true
       /\ exists name message pre,
            err = ErrorObject name message
            /\ frames (sseStream st) = pre ++ [EvError (name +:+ ": " +:+ message)]
            /\ noFrame terminalFrame pre)
      \/ (writableEnded (sseStream st) = false
          /\ noFrame terminalFrame (frames (sseStream st)))
  | Hung st =>
      writableEnded (sseStream st) = false
      /\ noFrame terminalFrame (frames (sseStream st))
  | OutOfFuel => True
  end.

(** Every [call] frame of [l] is followed by the [injectHistory] frame
    of its result, or its promise is still pending in [w]. *)
Definition callsAnswered (w : list (Task * bool)) (l : list SseFrame) : Prop :=
  forall pre name arguments id post,
    l = pre ++ EvCall name arguments id :: post ->
    EvInjectHistory (taskHistoryItem (mkTask name id (inl arguments))) ∈ post
    \/ (mkTask name id (inl arguments), false) ∈ w.

Definition answering (st : State) : Prop :=
  writableEnded (sseStream st) = false
  /\ callsAnswered (waitList st) (frames (sseStream st)).

Definition callsAnnounced (st : State) : Prop :=
  returnsFollowCalls (frames (sseStream st))
  /\ (writableEnded (sseStream st) = false -> pendingAnnounced st).

(** ** How a handler may change the state *)

Ltac grows_same :=
  unfold grows; cbn; repeat split; try reflexivity; exists []; now rewrite app_nil_r.

Lemma grows_refl (P : SseFrame -> bool) (st : State) : grows P st st.
Proof. grows_same. Qed.

Lemma grows_trans (P : SseFrame -> bool) (a b c : State) :
  grows P a b -> grows P b c -> grows P a c.
Proof.
  intros (H1 & H2 & H3 & H4 & (e1 & He1 & Hp1) & (m1 & Hm1))
         (K1 & K2 & K3 & K4 & (e2 & He2 & Hp2) & (m2 & Hm2)).
  repeat split; try congruence.
  - exists (e1 ++ e2). rewrite He2, He1, <- app_assoc. split; [ reflexivity | ].
    rewrite forallb_app, Hp1, Hp2. reflexivity.
  - exists (m1 ++ m2). now rewrite Hm2, Hm1, <- app_assoc.
Qed.

Lemma grows_weaken (P Q : SseFrame -> bool) (st st' : State) :
  (forall f, P f = true -> Q f = true) -> grows P st st' -> grows Q st st'.
Proof.
  intros HPQ (H1 & H2 & H3 & H4 & (e & He & Hp) & Hm).
  repeat split; try assumption. exists e. split; [ exact He | ].
  apply forallb_forall. intros f Hf.
  apply HPQ. rewrite forallb_forall in Hp. now apply Hp.
Qed.

Lemma grows_write (P : SseFrame -> bool) (f : SseFrame) (st : State) :
  P f = true -> grows P st (write f st).
Proof.
  intros Hf. unfold grows, write, sse_write; cbn.
  destruct (writableEnded (sseStream st)) eqn:E; cbn; rewrite ?E.
  - repeat split; try reflexivity; exists []; now rewrite app_nil_r.
  - repeat split; try reflexivity; [ exists [f] | exists [] ];
      cbn; rewrite ?Hf, ?app_nil_r; auto.
Qed.

Lemma grows_pushTail (P : SseFrame -> bool) (m : Message) (st : State) :
  grows P st (pushTail m st).
Proof.
  unfold grows, pushTail; cbn.
  repeat split; try reflexivity; [ exists [] | exists [m] ];
    rewrite ?app_nil_r; auto.
Qed.

Lemma grows_setWaitList (P : SseFrame -> bool) (w : list (Task * bool)) (st : State) :
  grows P st (setWaitList w st).
Proof. grows_same. Qed.

Lemma grows_recordResult (t : Task) (st : State) :
  grows toolFrame st (recordResult t st).
Proof.
  unfold recordResult. eapply grows_trans; [ | now apply grows_write ].
  apply grows_pushTail.
Qed.

Lemma grows_finishTask (t : Task) (st : State) :
  grows toolFrame st (finishTask t st).
Proof.
  unfold finishTask. destruct (task_args t); [ | apply grows_recordResult ].
  destruct (toolExec _ _).
  - eapply grows_trans; [ | apply grows_recordResult ]. now apply grows_write.
  - apply grows_recordResult.
Qed.

Lemma grows_settle (i : nat) (st : State) : grows toolFrame st (settle i st).
Proof.
  unfold settle. destruct (nth_error _ _) as [[t [|]]|]; try apply grows_refl.
  eapply grows_trans; [ | apply grows_setWaitList ]. apply grows_finishTask.
Qed.

Lemma grows_settleAll (order : list nat) (st : State) :
  grows toolFrame st (settleAll order st).
Proof.
  unfold settleAll. revert st. induction order as [|i order IH]; intros st; cbn.
  - apply grows_refl.
  - eapply grows_trans; [ | apply IH ]. apply grows_settle.
Qed.

Lemma grows_onCall (params callId : JsVal) (st : State) :
  grows toolFrame st (onCall params callId st).
Proof.
  unfold onCall. destruct (negb _); [ apply grows_refl | ].
  destruct (parsedArguments params).
  - eapply grows_trans; [ | apply grows_setWaitList ].
    eapply grows_trans; [ | now apply grows_write ]. now apply grows_write.
  - eapply grows_trans; [ | apply grows_setWaitList ]. apply grows_finishTask.
Qed.

Lemma grows_emitCalls (toolCalls : list JsVal) (st : State) :
  grows toolFrame st (emitCalls toolCalls st).
Proof.
  revert st. induction toolCalls as [|c l IH]; intros st; cbn.
  - apply grows_refl.
  - destruct (isNullish c); [ apply grows_refl | ].
    eapply grows_trans; [ | apply IH ]. apply grows_onCall.
Qed.

Lemma grows_onData (chunk : JsVal) (st : State) : grows plainFrame st (onData chunk st).
Proof.
  unfold onData. destruct chunk; try grows_same.
  eapply grows_trans; [ | now apply grows_write ]. grows_same.
Qed.

Lemma grows_onSnapshot (v : JsVal) (st : State) : grows plainFrame st (onSnapshot v st).
Proof.
  unfold onSnapshot. destruct (negb _); [ apply grows_refl | now apply grows_write ].
Qed.

Lemma grows_onN1 (v : JsVal) (st : State) : grows plainFrame st (onN1 v st).
Proof.
  unfold onN1. destruct (n1Seen st); [ apply grows_refl | ].
  eapply grows_trans; [ | now apply grows_write ]. grows_same.
Qed.

Lemma grows_onN2 (v : JsVal) (st : State) : grows plainFrame st (onN2 v st).
Proof.
  unfold onN2. destruct (n2Seen st); [ apply grows_refl | ].
  eapply grows_trans; [ | now apply grows_write ]. grows_same.
Qed.

Lemma turnFrame_of_tool (f : SseFrame) : toolFrame f = true -> turnFrame f = true.
Proof. unfold turnFrame. now intros ->. Qed.

Lemma turnFrame_of_plain (f : SseFrame) : plainFrame f = true -> turnFrame f = true.
Proof. unfold turnFrame. intros ->. apply orb_true_r. Qed.

Lemma grows_onStreamEvent (st : State) (ev : StreamEvent) :
  grows turnFrame st (onStreamEvent st ev).
Proof.
  destruct ev; cbn [onStreamEvent].
  - eapply grows_weaken; [ apply turnFrame_of_plain | apply grows_onData ].
  - eapply grows_weaken; [ apply turnFrame_of_tool | apply grows_onCall ].
  - eapply grows_weaken; [ apply turnFrame_of_plain | apply grows_onN1 ].
  - eapply grows_weaken; [ apply turnFrame_of_plain | apply grows_onN2 ].
  - eapply grows_weaken; [ apply turnFrame_of_plain | apply grows_onSnapshot ].
  - eapply grows_weaken; [ apply turnFrame_of_tool | apply grows_settle ].
Qed.

Lemma grows_timeline (events : list StreamEvent) (st : State) :
  grows turnFrame st (fold_left onStreamEvent events st).
Proof.
  revert st. induction events as [|ev l IH]; intros st; cbn.
  - apply grows_refl.
  - eapply grows_trans; [ | apply IH ]. apply grows_onStreamEvent.
Qed.

Lemma grows_onFinal_software (v : JsVal) (st : State) :
  grows (fun f => isStructured f || toolFrame f) st (onFinal true v st).
Proof.
  unfold onFinal. destruct (negb (truthy v && isObjectLike v)); [ apply grows_refl | ].
  assert (grows (fun f => isStructured f || toolFrame f) st (write (EvStructured v) st))
    as Hw by now apply grows_write.
  destruct (negb (strictEqualsString _ _)); [ exact Hw | ].
  destruct (js_get v "tools"); try exact Hw.
  eapply grows_trans; [ exact Hw | ].
  eapply grows_weaken; [ | eapply grows_trans; [ apply grows_pushTail | apply grows_emitCalls ] ].
  intros f ->. apply orb_true_r.
Qed.

Lemma onFinal_native (v : JsVal) (st : State) :
  onFinal false v st
  = if truthy v && isObjectLike v then write (EvStructured v) st else st.
Proof.
  unfold onFinal. destruct (truthy v && isObjectLike v); cbn [negb]; [ | reflexivity ].
  destruct (negb (strictEqualsString _ _)); [ reflexivity | ].
  destruct (js_get v "tools"); reflexivity.
Qed.

Lemma grows_onFinal (softwareFC : bool) (v : JsVal) (st : State) :
  grows (fun f => isStructured f || toolFrame f) st (onFinal softwareFC v st).
Proof.
  destruct softwareFC; [ apply grows_onFinal_software | ].
  rewrite onFinal_native. destruct (truthy v && isObjectLike v);
    [ now apply grows_write | apply grows_refl ].
Qed.

(** ** Counting [structured] frames *)

Lemma countFrames_app (p : SseFrame -> bool) (s : SseStream) (extra : list SseFrame) (b : bool) :
  countFrames p (mkSse (frames s ++ extra) b)
  = countFrames p s + Z.of_nat (length (List.filter p extra)).
Proof. unfold countFrames. cbn. rewrite List.filter_app, length_app. lia. Qed.

Lemma filter_none (p q : SseFrame -> bool) (l : list SseFrame) :
  (forall f, q f = true -> p f = false) -> forallb q l = true -> List.filter p l = [].
Proof.
  intros Hpq. induction l as [|f l IH]; cbn; [ reflexivity | ].
  intros H. apply andb_true_iff in H as [Hf Hl]. rewrite (Hpq f Hf). now apply IH.
Qed.

(** Handlers that write no [structured] frame leave the count alone. *)
Lemma grows_countStructured (q : SseFrame -> bool) (st st' : State) :
  (forall f, q f = true -> isStructured f = false) ->
  grows q st st' -> countStructured st' = countStructured st.
Proof.
  intros Hq (_ & _ & _ & _ & (extra & He & Hp) & _).
  unfold countStructured, countFrames. rewrite He, List.filter_app, length_app.
  rewrite (filter_none isStructured q extra Hq Hp). cbn. lia.
Qed.

Lemma turnFrame_not_structured (f : SseFrame) : turnFrame f = true -> isStructured f = false.
Proof. destruct f; cbn; congruence. Qed.

Lemma toolFrame_not_structured (f : SseFrame) : toolFrame f = true -> isStructured f = false.
Proof. destruct f; cbn; congruence. Qed.

Lemma countStructured_write (f : SseFrame) (st : State) :
  countStructured st <= countStructured (write f st)
                     <= countStructured st + (if isStructured f then 1 else 0).
Proof.
  unfold countStructured, countFrames, write, sse_write; cbn.
  destruct (writableEnded (sseStream st)); cbn.
  - destruct (isStructured f); lia.
  - rewrite List.filter_app, length_app. cbn. destruct (isStructured f); cbn; lia.
Qed.

Lemma countStructured_onFinal (softwareFC : bool) (v : JsVal) (st : State) :
  countStructured st <= countStructured (onFinal softwareFC v st) <= countStructured st + 1.
Proof.
  unfold onFinal. destruct (negb (truthy v && isObjectLike v)); [ lia | ].
  pose proof (countStructured_write (EvStructured v) st) as Hw. cbn in Hw.
  destruct (negb (strictEqualsString _ _)); [ exact Hw | ].
  destruct (js_get v "tools"); try exact Hw.
  destruct softwareFC; [ | exact Hw ].
  match goal with |- _ <= countStructured ?s <= _ =>
    assert (countStructured s = countStructured (write (EvStructured v) st)) as ->
  end; [ | exact Hw ].
  eapply grows_countStructured; [ apply toolFrame_not_structured | ].
  eapply grows_trans; [ apply grows_pushTail | apply grows_emitCalls ].
Qed.

(** ** The stages of a turn *)

Lemma grows_afterTimeline (script : StreamScript) (st : State) :
  grows turnFrame st (afterTimeline script st).
Proof. apply grows_timeline. Qed.

Lemma framesGrow_of_grows (P : SseFrame -> bool) (st st' : State) :
  grows P st st' -> framesGrow P st st'.
Proof. intros (H1 & H2 & _ & _ & H & _). repeat split; assumption. Qed.

Lemma framesGrow_refl (P : SseFrame -> bool) (st : State) : framesGrow P st st.
Proof. apply framesGrow_of_grows, grows_refl. Qed.

Lemma framesGrow_trans (P : SseFrame -> bool) (a b c : State) :
  framesGrow P a b -> framesGrow P b c -> framesGrow P a c.
Proof.
  intros (H1 & H2 & e1 & He1 & Hp1) (K1 & K2 & e2 & He2 & Hp2).
  repeat split; try congruence.
  exists (e1 ++ e2). rewrite He2, He1, <- app_assoc. split; [ reflexivity | ].
  now rewrite forallb_app, Hp1, Hp2.
Qed.

Lemma framesGrow_weaken (P Q : SseFrame -> bool) (st st' : State) :
  (forall f, P f = true -> Q f = true) -> framesGrow P st st' -> framesGrow Q st st'.
Proof.
  intros HPQ (H1 & H2 & e & He & Hp). repeat split; try assumption.
  exists e. split; [ exact He | ]. apply forallb_forall. intros f Hf.
  apply HPQ. rewrite forallb_forall in Hp. now apply Hp.
Qed.

Lemma framesGrow_setKeepLooping (P : SseFrame -> bool) (b : bool) (st : State) :
  framesGrow P st (setKeepLooping b st).
Proof. repeat split. exists []. cbn. now rewrite app_nil_r. Qed.

Lemma framesGrow_onError (name message : string) (st : State) :
  framesGrow isError st (onError name message st).
Proof.
  unfold framesGrow, onError, sse_end. cbn.
  destruct (writableEnded (sseStream st)); cbn.
  - repeat split. exists []. rewrite app_nil_r. split; reflexivity.
  - repeat split. eexists. split; reflexivity.
Qed.

Lemma framesGrow_countStructured (q : SseFrame -> bool) (st st' : State) :
  (forall f, q f = true -> isStructured f = false) ->
  framesGrow q st st' -> countStructured st' = countStructured st.
Proof.
  intros Hq (_ & _ & extra & He & Hp).
  unfold countStructured, countFrames. rewrite He, List.filter_app, length_app.
  rewrite (filter_none isStructured q extra Hq Hp). cbn. lia.
Qed.

Lemma unstructured_of_turnFrame (f : SseFrame) : turnFrame f = true -> unstructured f = true.
Proof. destruct f; cbn; congruence. Qed.

Lemma unstructured_of_toolFrame (f : SseFrame) : toolFrame f = true -> unstructured f = true.
Proof. destruct f; cbn; congruence. Qed.

Lemma unstructured_of_isError (f : SseFrame) : isError f = true -> unstructured f = true.
Proof. destruct f; cbn; congruence. Qed.

Lemma framesGrow_afterTimeline (script : StreamScript) (st : State) :
  framesGrow unstructured st (afterTimeline script st).
Proof.
  eapply framesGrow_weaken; [ apply unstructured_of_turnFrame | ].
  apply framesGrow_of_grows, grows_afterTimeline.
Qed.

Lemma framesGrow_threw (name message : string) (script : StreamScript) (st : State) :
  framesGrow unstructured st (onError name message (afterTimeline script st)).
Proof.
  eapply framesGrow_trans; [ apply framesGrow_afterTimeline | ].
  eapply framesGrow_weaken; [ apply unstructured_of_isError | apply framesGrow_onError ].
Qed.

Lemma closingFrame_of_toolFrame (f : SseFrame) : toolFrame f = true -> closingFrame f = true.
Proof. unfold closingFrame. now intros ->. Qed.

Lemma unstructured_of_closingFrame (f : SseFrame) :
  closingFrame f = true -> unstructured f = true.
Proof. destruct f; cbn; congruence. Qed.

Lemma framesGrow_afterFinal_turnEnd (softwareFC : bool) (script : StreamScript) (st : State) :
  framesGrow closingFrame (afterFinal softwareFC script st) (turnEnd softwareFC script st).
Proof.
  unfold turnEnd, afterHistory, atClose.
  set (st3 := afterFinal softwareFC script st).
  set (st4 := settleAll (beforeClose script) st3).
  assert (framesGrow closingFrame st3 st4) as H4.
  { eapply framesGrow_weaken; [ apply closingFrame_of_toolFrame | ].
    apply framesGrow_of_grows, grows_settleAll. }
  set (st5 := if (length (waitList st4) =? 0)%nat then setKeepLooping false st4 else st4).
  assert (framesGrow closingFrame st3 st5) as H5.
  { unfold st5. destruct (_ =? _)%nat; [ | exact H4 ].
    eapply framesGrow_trans; [ exact H4 | apply framesGrow_setKeepLooping ]. }
  cbv zeta.
  eapply framesGrow_trans; [ exact H5 | ].
  eapply framesGrow_trans;
    [ | eapply framesGrow_weaken; [ apply closingFrame_of_toolFrame | ];
        apply framesGrow_of_grows, grows_settleAll ].
  destruct (keepLooping st5).
  - eapply framesGrow_trans;
      [ | apply framesGrow_of_grows, grows_write; reflexivity ].
    destruct softwareFC; [ apply framesGrow_refl | ].
    apply framesGrow_of_grows, grows_pushTail.
  - apply framesGrow_of_grows, grows_write. reflexivity.
Qed.

Lemma turnEnd_bound (softwareFC : bool) (script : StreamScript) (st : State) :
  turnBound st (turnEnd softwareFC script st).
Proof.
  pose proof (framesGrow_afterTimeline script st) as H2.
  pose proof (framesGrow_weaken _ _ _ _ unstructured_of_closingFrame
                (framesGrow_afterFinal_turnEnd softwareFC script st)) as H7.
  pose proof (framesGrow_countStructured unstructured _ _ (fun f H => proj1 (negb_true_iff _) H) H2) as Hs2.
  pose proof (framesGrow_countStructured unstructured _ _ (fun f H => proj1 (negb_true_iff _) H) H7) as Hs7.
  assert (callRoundsLeft (afterFinal softwareFC script st) = callRoundsLeft (afterTimeline script st)
          /\ requests (afterFinal softwareFC script st) = requests (afterTimeline script st)
          /\ countStructured (afterTimeline script st)
             <= countStructured (afterFinal softwareFC script st)
             <= countStructured (afterTimeline script st) + 1) as (R3 & Q3 & Hs3).
  { unfold afterFinal. destruct (final script) as [v|]; [ | repeat split; lia ].
    pose proof (grows_onFinal softwareFC v (afterTimeline script st)) as (? & ? & _).
    pose proof (countStructured_onFinal softwareFC v (afterTimeline script st)). auto. }
  destruct H2 as (R2 & Q2 & _), H7 as (R7 & Q7 & _).
  constructor; [ congruence | congruence | lia ].
Qed.

Lemma framesGrow_bound (st st' : State) :
  framesGrow unstructured st st' -> turnBound st st'.
Proof.
  intros H.
  pose proof (framesGrow_countStructured unstructured _ _
                (fun f H => proj1 (negb_true_iff _) H) H) as Hs.
  destruct H as (R & Q & _). constructor; [ exact R | exact Q | lia ].
Qed.

(** However a turn ends, it leaves the counters alone and has written at
    most one [structured] frame. *)
Lemma runStream_bound (softwareFC : bool) (script : StreamScript) (st : State) :
  turnBound st (resultState (runStream softwareFC script st)).
Proof.
  unfold runStream. destruct (finish script) as [ | name message | err | ]; cbn.
  - destruct (allSettled _); apply turnEnd_bound.
  - apply framesGrow_bound, framesGrow_threw.
  - apply framesGrow_bound, framesGrow_afterTimeline.
  - apply framesGrow_bound, framesGrow_afterTimeline.
Qed.

(** ** The loop as a whole *)

Lemma gtb_true (x y : Q) : gtb x y = true <-> (y < x)%Q.
Proof.
  unfold gtb. rewrite negb_true_iff, <- not_true_iff_false, Qle_bool_iff.
  split; [ apply Qnot_le_lt | apply Qlt_not_le ].
Qed.

Lemma gtb_false (x y : Q) : gtb x y = false <-> (x <= y)%Q.
Proof. unfold gtb. rewrite negb_false_iff. apply Qle_bool_iff. Qed.

Lemma gtb_Qeq (x x' y : Q) : (x == x')%Q -> gtb x y = gtb x' y.
Proof. intros H. unfold gtb. now rewrite H. Qed.

Lemma validate_maxAdditionalTurns_spec (turns : JsNumber) :
  validate_maxAdditionalTurns turns = true
  <-> exists q, turns = Finite q /\ (0 <= q <= 50)%Q.
Proof.
  destruct turns as [q | | negative]; cbn [validate_maxAdditionalTurns].
  - rewrite andb_true_iff, !Qle_bool_iff. split.
    + intros H. exists q. split; [ reflexivity | exact H ].
    + intros (q' & Heq & H). injection Heq as ->. exact H.
  - split; [ discriminate | intros (q & Heq & _); discriminate Heq ].
  - split; [ discriminate | intros (q & Heq & _); discriminate Heq ].
Qed.

Lemma inject_Z_sub (x y : Z) : inject_Z (x - y) = (inject_Z x - inject_Z y)%Q.
Proof. unfold Z.sub, Qminus. now rewrite inject_Z_plus, inject_Z_opp. Qed.

Lemma inject_Z_S (n : nat) :
  inject_Z (Z.of_nat (S n)) = (inject_Z (Z.of_nat n) + 1)%Q.
Proof. now rewrite Nat2Z.inj_succ, <- Z.add_1_r, inject_Z_plus. Qed.

(** The least whole number that is not below [x - 1] is one less than
    the one for [x]. *)
Lemma Qceiling_minus_one (x : Q) : Qceiling (x - 1) = Qceiling x - 1.
Proof.
  pose proof (Qle_ceiling x) as H1. pose proof (Qceiling_lt x) as H2.
  pose proof (Qle_ceiling (x - 1)) as H3. pose proof (Qceiling_lt (x - 1)) as H4.
  rewrite inject_Z_sub in H2, H4. change (inject_Z 1) with 1%Q in H2, H4.
  assert (Qceiling (x - 1) < Qceiling x) as Ha by (rewrite Zlt_Qlt; lra).
  assert (Qceiling x - 1 < Qceiling (x - 1) + 1) as Hb.
  { rewrite Zlt_Qlt, inject_Z_sub, inject_Z_plus.
    change (inject_Z 1) with 1%Q. lra. }
  lia.
Qed.

Lemma Qceiling_pos (x : Q) : (0 < x)%Q -> 0 < Qceiling x.
Proof.
  intros H. pose proof (Qle_ceiling x) as H1.
  rewrite Zlt_Qlt. change (inject_Z 0) with 0%Q. lra.
Qed.

Lemma Qceiling_upper (x : Q) (n : Z) : (x <= inject_Z n)%Q -> Qceiling x <= n.
Proof.
  intros H. rewrite <- (Qceiling_Z n). now apply Qceiling_resp_le.
Qed.

Lemma turnLoop_exit (fuel : nat) (options : LLMOptions) (st : State) :
  keepLooping st && gtb (callRoundsLeft st) 0 = false ->
  turnLoop (S fuel) options st = Returned (endStream st).
Proof. intros H. cbn [turnLoop]. now rewrite H. Qed.

Lemma frames_endStream (st : State) :
  frames (sseStream (endStream st)) = frames (sseStream st).
Proof.
  unfold endStream, sse_end. cbn.
  destruct (writableEnded (sseStream st)); cbn; [ reflexivity | apply app_nil_r ].
Qed.

Lemma ended_endStream (st : State) : writableEnded (sseStream (endStream st)) = true.
Proof.
  unfold endStream, sse_end. cbn.
  destruct (writableEnded (sseStream st)) eqn:E; cbn; auto.
Qed.

Lemma countStructured_endStream (st : State) :
  countStructured (endStream st) = countStructured st.
Proof. unfold countStructured, countFrames. now rewrite frames_endStream. Qed.

(** With more fuel than turns left the fuel does not run out: the loop
    runs at most as many turns as the least whole number that is not
    below [callRoundsLeft], and writes at most one [structured] frame in
    each. *)
Lemma turnLoop_bounded (options : LLMOptions) :
  forall (fuel : nat) (st : State),
    (Z.to_nat (Qceiling (callRoundsLeft st)) < fuel)%nat ->
    exists st',
      outcomeState (turnLoop fuel options st) = Some st'
      /\ countStructured st <= countStructured st'
                            <= countStructured st + Z.max 0 (Qceiling (callRoundsLeft st))
      /\ Z.of_nat (length (requests st'))
         <= Z.of_nat (length (requests st)) + Z.max 0 (Qceiling (callRoundsLeft st))
      /\ (forall r, turnLoop fuel options st = Returned r ->
                    writableEnded (sseStream r) = true
                    /\ (keepLooping r = false \/ (callRoundsLeft r <= 0)%Q)).
Proof.
  induction fuel as [|fuel IH]; intros st Hfuel; [ lia | ].
  destruct (keepLooping st && gtb (callRoundsLeft st) 0) eqn:Hgo.
  - apply andb_true_iff in Hgo as [Hk Hpos].
    cbn [turnLoop]. rewrite Hk, Hpos. cbn [andb].
    apply gtb_true, Qceiling_pos in Hpos.
    set (opts := thisOptions options st).
    destruct (mdl_exec (length (requests st)) opts) as [err | | script].
    + eexists. split; [ reflexivity | ]. cbn [requests sseStream].
      rewrite length_app. cbn [length]. unfold countStructured. cbn [sseStream].
      split; [ lia | split; [ lia | intros r0 Hr0; discriminate Hr0 ] ].
    + eexists. split; [ reflexivity | ]. cbn [requests sseStream beginTurn].
      rewrite length_app. cbn [length]. unfold countStructured. cbn [sseStream beginTurn].
      split; [ lia | split; [ lia | intros r0 Hr0; discriminate Hr0 ] ].
    + pose proof (runStream_bound (softwareFunctionCalling st) script
                    (beginTurn opts st)) as Hbound.
      destruct (runStream _ script (beginTurn opts st)) as [st1 | st1 | err st1] eqn:Hrun;
        cbn [resultState] in Hbound; destruct Hbound as [Hr Hq Hc];
        cbn [callRoundsLeft requests beginTurn] in Hr, Hq;
        unfold countStructured in Hc; cbn [sseStream beginTurn] in Hc;
        fold (countStructured st1) in Hc; fold (countStructured st) in Hc.
      * destruct (IH (setWaitList [] st1)) as (st' & Ho & Hcnt & Hreq & Hret).
        { cbn [callRoundsLeft setWaitList]. rewrite Hr, Qceiling_minus_one. lia. }
        exists st'. split; [ exact Ho | ].
        unfold countStructured in Hcnt.
        cbn [sseStream requests callRoundsLeft setWaitList] in Hcnt, Hreq.
        fold (countStructured st1) in Hcnt. fold (countStructured st') in Hcnt.
        rewrite Hq, length_app in Hreq. cbn [length] in Hreq.
        rewrite Hr, Qceiling_minus_one in Hcnt, Hreq.
        split; [ lia | split; [ lia | exact Hret ] ].
      * exists st1. split; [ reflexivity | ].
        rewrite Hq, length_app. cbn [length].
        split; [ lia | split; [ lia | intros r0 Hr0; discriminate Hr0 ] ].
      * exists st1. split; [ reflexivity | ].
        rewrite Hq, length_app. cbn [length].
        split; [ lia | split; [ lia | intros r0 Hr0; discriminate Hr0 ] ].
  - rewrite turnLoop_exit by exact Hgo.
    exists (endStream st). split; [ reflexivity | ].
    rewrite countStructured_endStream. cbn [requests endStream].
    split; [ lia | ]. split; [ lia | ].
    intros r Hr. injection Hr as <-. split; [ apply ended_endStream | ].
    cbn [keepLooping callRoundsLeft endStream].
    apply andb_false_iff in Hgo as [Hk | Hz]; [ now left | right ].
    now apply gtb_false.
Qed.

(** The bounds of a run allowed [turns] turns. *)
Lemma chatWithReader_bounded (options : LLMOptions) (turns : Q) :
  (0 <= turns)%Q ->
  exists st,
    outcomeState (chatWithReader options turns) = Some st
    /\ countFrames isStructured (sseStream st) <= Qceiling turns
    /\ Z.of_nat (length (requests st)) <= Qceiling turns
    /\ (forall r, chatWithReader options turns = Returned r ->
                  writableEnded (sseStream r) = true
                  /\ (keepLooping r = false \/ (callRoundsLeft r <= 0)%Q)).
Proof.
  intros Hv.
  assert (0 <= Qceiling turns) as Hc0.
  { pose proof (Qle_ceiling turns) as H1. rewrite Zle_Qle.
    change (inject_Z 0) with 0%Q. lra. }
  unfold chatWithReader. destruct (negb (streamingSupported mdl)).
  - eexists. split; [ reflexivity | ].
    split; [ unfold countFrames; cbn; lia | ].
    split; [ cbn; lia | intros r0 Hr0; discriminate Hr0 ].
  - destruct (turnLoop_bounded
                (mkOptions (initialSystem (system options)) (messages options)
                           (functions options))
                (S (Z.to_nat (Qceiling turns))) (initialState turns))
      as (st & Ho & Hc & Hq & Hr).
    { cbn [callRoundsLeft initialState]. lia. }
    exists st. split; [ exact Ho | ].
    unfold countStructured in Hc.
    cbn [sseStream requests callRoundsLeft initialState length] in Hc, Hq.
    change (countFrames isStructured (mkSse [] false)) with 0 in Hc.
    split; [ lia | split; [ lia | exact Hr ] ].
Qed.

(** C5, amended.  At the RPC entry point [maxAdditionalTurns] defaults
    to 5 and is accepted exactly when it is a number from 0 to 50, whole
    or not.  For an accepted value the loop runs at most as many turns as
    the least whole number that is not below it, whether the function
    then returns, throws or waits for ever on a promise: the model is
    called at most that many times and at most that many [structured]
    frames are written, which for a whole number is the number itself; a
    stream that is returned has been ended.  When the loop is entered
    with no turn left (the counter at zero or below) it returns the ended
    stream at once. *)
Theorem chatWithReader_turn_cap :
  (forall (options : LLMOptions) (maxAdditionalTurns : option JsNumber),
      match chatWithReader_rpc options maxAdditionalTurns with
      | Some o =>
          exists turns : Q,
            (maxAdditionalTurns = Some (Finite turns)
             \/ (maxAdditionalTurns = None /\ turns = 5%Q))
            /\ (0 <= turns <= 50)%Q
            /\ o = chatWithReader options turns
            /\ exists st,
                 outcomeState o = Some st
                 /\ countFrames isStructured (sseStream st) <= Qceiling turns
                 /\ Z.of_nat (length (requests st)) <= Qceiling turns
                 /\ Qceiling turns <= 50
                 /\ (forall r, o = Returned r ->
                               writableEnded (sseStream r) = true
                               /\ (keepLooping r = false \/ (callRoundsLeft r <= 0)%Q))
      | None =>
          exists t, maxAdditionalTurns = Some t
                    /\ forall turns, t = Finite turns -> ~ (0 <= turns <= 50)%Q
      end)
  /\ (forall n : Z, Qceiling (inject_Z n) = n)
  /\ (forall (fuel : nat) (options : LLMOptions) (st : State),
        (callRoundsLeft st <= 0)%Q ->
        exists r, turnLoop (S fuel) options st = Returned r
                  /\ frames (sseStream r) = frames (sseStream st)
                  /\ requests r = requests st).
Proof.
  split; [ | split; [ exact Qceiling_Z | ] ].
  - intros options maxAdditionalTurns. unfold chatWithReader_rpc.
    set (t := match maxAdditionalTurns with
              | Some t => t
              | None => default_maxAdditionalTurns
              end).
    destruct (validate_maxAdditionalTurns t) eqn:Hv.
    + apply validate_maxAdditionalTurns_spec in Hv as (turns & Ht & Hr).
      rewrite Ht. exists turns. split.
      { unfold t in Ht. destruct maxAdditionalTurns as [t'|].
        - left. now rewrite Ht.
        - right. split; [ reflexivity | ].
          unfold default_maxAdditionalTurns in Ht. now injection Ht as <-. }
      split; [ exact Hr | ]. split; [ reflexivity | ].
      destruct (chatWithReader_bounded options turns (proj1 Hr))
        as (st & Ho & Hc & Hq & Hret).
      exists st. split; [ exact Ho | ]. split; [ exact Hc | ].
      split; [ exact Hq | ]. split; [ | exact Hret ].
      apply Qceiling_upper. exact (proj2 Hr).
    + destruct maxAdditionalTurns as [t'|]; [ | discriminate Hv ].
      exists t'. split; [ reflexivity | ]. intros turns -> Hr.
      assert (validate_maxAdditionalTurns (Finite turns) = true) as Hv'
          by (apply validate_maxAdditionalTurns_spec; eauto).
      unfold t in Hv. congruence.
  - intros fuel options st Hz. exists (endStream st). split.
    + apply turnLoop_exit. apply andb_false_iff. right. now apply gtb_false.
    + split; [ apply frames_endStream | reflexivity ].
Qed.

(** C10.  With [maxAdditionalTurns = 0] (and a model that supports
    streaming, so that the loop is reached) the loop body is never run:
    the model is not called, no frame at all is written, and the stream
    returned has been ended. *)
Theorem chatWithReader_zero_turns (options : LLMOptions) :
  streamingSupported mdl = true ->
  exists st,
    chatWithReader options 0 = Returned st
    /\ frames (sseStream st) = []
    /\ writableEnded (sseStream st) = true
    /\ requests st = []
    /\ tailMessages st = [].
Proof.
  intros Hs. unfold chatWithReader. rewrite Hs. cbn.
  eexists. split; [ reflexivity | ]. cbn. auto.
Qed.

(** ** Tool results are recorded and fed back *)

Lemma advances_refl (st : State) : advances st st.
Proof. constructor; [ exists [] | exists [] | ]; rewrite ?app_nil_r; auto. Qed.

Lemma advances_trans (a b c : State) : advances a b -> advances b c -> advances a c.
Proof.
  intros [[m1 H1] [n1 K1] R1] [[m2 H2] [n2 K2] R2]. constructor.
  - exists (m1 ++ m2). now rewrite H2, H1, <- app_assoc.
  - exists (n1 ++ n2). now rewrite K2, K1, <- app_assoc.
  - auto.
Qed.

(** A handler that leaves [waitList] alone and only appends messages. *)
Lemma advances_same_waitList (st st' : State) :
  waitList st' = waitList st ->
  (exists more, tailMessages st' = tailMessages st ++ more) ->
  advances st st'.
Proof.
  intros Hw [more Hm]. constructor.
  - now exists more.
  - exists []. unfold tasksOf. now rewrite Hw, app_nil_r.
  - intros H t Ht. rewrite Hw in Ht. rewrite Hm. apply elem_of_app. left. now apply H.
Qed.

Lemma grows_tail (P : SseFrame -> bool) (st st' : State) :
  grows P st st' -> exists more, tailMessages st' = tailMessages st ++ more.
Proof. intros (_ & _ & _ & _ & _ & H). exact H. Qed.

Lemma waitList_write (f : SseFrame) (st : State) : waitList (write f st) = waitList st.
Proof. reflexivity. Qed.

Lemma waitList_finishTask (t : Task) (st : State) :
  waitList (finishTask t st) = waitList st.
Proof.
  unfold finishTask, recordResult. destruct (task_args t); [ | reflexivity ].
  destruct (toolExec _ _); reflexivity.
Qed.

Lemma finishTask_records (t : Task) (st : State) :
  taskHistoryItem t ∈ tailMessages (finishTask t st).
Proof.
  unfold finishTask, recordResult. cbn. apply elem_of_app. right. left.
Qed.

Lemma advances_finishTask (t : Task) (st : State) : advances st (finishTask t st).
Proof.
  apply advances_same_waitList; [ apply waitList_finishTask | ].
  eapply grows_tail, grows_finishTask.
Qed.

Lemma map_fst_markSettled (i : nat) (w : list (Task * bool)) :
  List.map fst (markSettled i w) = List.map fst w.
Proof.
  revert i. induction w as [|[t b] w IH]; intros [|i]; cbn; try reflexivity.
  now rewrite IH.
Qed.

Lemma elem_of_markSettled (i : nat) (w : list (Task * bool)) (t : Task) :
  (t, true) ∈ markSettled i w ->
  (t, true) ∈ w \/ exists b, nth_error w i = Some (t, b).
Proof.
  revert i. induction w as [|[t0 b0] w IH]; intros [|i] H; cbn in *.
  - left. exact H.
  - left. exact H.
  - apply elem_of_cons in H as [H | H].
    + injection H as ->. right. eauto.
    + left. now right.
  - apply elem_of_cons in H as [H | H].
    + left. rewrite H. left.
    + destruct (IH i H) as [H' | H']; [ left; now right | right; exact H' ].
Qed.

Lemma advances_settle (i : nat) (st : State) : advances st (settle i st).
Proof.
  unfold settle. destruct (nth_error (waitList st) i) as [[t [|]]|] eqn:E;
    try apply advances_refl.
  constructor.
  - cbn [tailMessages setWaitList]. eapply grows_tail, grows_finishTask.
  - exists []. unfold tasksOf. cbn [waitList setWaitList].
    now rewrite map_fst_markSettled, app_nil_r.
  - intros H t' Ht'. cbn [waitList setWaitList] in Ht'. cbn [tailMessages setWaitList].
    destruct (elem_of_markSettled _ _ _ Ht') as [Hin | [b Hb]].
    + destruct (grows_tail _ _ _ (grows_finishTask t st)) as [more ->].
      apply elem_of_app. left. now apply H.
    + rewrite E in Hb. injection Hb as -> _. apply finishTask_records.
Qed.

Lemma advances_settleAll (order : list nat) (st : State) :
  advances st (settleAll order st).
Proof.
  unfold settleAll. revert st. induction order as [|i order IH]; intros st; cbn.
  - apply advances_refl.
  - eapply advances_trans; [ apply advances_settle | apply IH ].
Qed.

(** A call whose [name] is truthy becomes a promise in [waitList]. *)
Lemma onCall_dispatches (params callId : JsVal) (st : State) :
  truthy (js_get params "name") = true ->
  exists settled,
    waitList (onCall params callId st)
    = waitList st ++ [(mkTask (js_get params "name") callId (parsedArguments params),
                       settled)].
Proof.
  intros Hn. unfold onCall. rewrite Hn. cbn [negb].
  destruct (parsedArguments params); eexists; reflexivity.
Qed.

Lemma advances_onCall (params callId : JsVal) (st : State) :
  advances st (onCall params callId st).
Proof.
  unfold onCall. destruct (negb _); [ apply advances_refl | ].
  set (t := mkTask _ _ _). destruct (parsedArguments params) as [args | err] eqn:E.
  - constructor; cbn.
    + exists []. now rewrite app_nil_r.
    + exists [t]. unfold tasksOf. cbn. now rewrite map_app.
    + intros H t' Ht'. apply elem_of_app in Ht' as [Ht' | Ht'];
        [ now apply H | ].
      apply list_elem_of_singleton in Ht'. discriminate.
  - constructor; cbn [tailMessages waitList setWaitList].
    + eapply grows_tail, grows_finishTask.
    + exists [t]. unfold tasksOf. cbn. now rewrite map_app.
    + intros H t' Ht'. cbn [waitList setWaitList] in Ht'.
      cbn [tailMessages setWaitList].
      apply elem_of_app in Ht' as [Ht' | Ht'].
      * destruct (grows_tail _ _ _ (grows_finishTask t st)) as [more ->].
        apply elem_of_app. left. now apply H.
      * apply list_elem_of_singleton in Ht'. injection Ht' as ->.
        apply finishTask_records.
Qed.

Lemma advances_emitCalls (toolCalls : list JsVal) (st : State) :
  advances st (emitCalls toolCalls st).
Proof.
  revert st. induction toolCalls as [|c l IH]; intros st; cbn.
  - apply advances_refl.
  - destruct (isNullish c); [ apply advances_refl | ].
    eapply advances_trans; [ apply advances_onCall | apply IH ].
Qed.

Lemma advances_write (f : SseFrame) (st : State) : advances st (write f st).
Proof.
  apply advances_same_waitList; [ reflexivity | exists []; now rewrite app_nil_r ].
Qed.

Lemma advances_pushTail (m : Message) (st : State) : advances st (pushTail m st).
Proof. apply advances_same_waitList; [ reflexivity | now exists [m] ]. Qed.

Lemma advances_onFinal (softwareFC : bool) (v : JsVal) (st : State) :
  advances st (onFinal softwareFC v st).
Proof.
  unfold onFinal. destruct (negb (truthy v && isObjectLike v)); [ apply advances_refl | ].
  destruct (negb (strictEqualsString _ _)); [ apply advances_write | ].
  destruct (js_get v "tools"); try apply advances_write.
  destruct softwareFC; [ | apply advances_write ].
  eapply advances_trans; [ apply advances_write | ].
  eapply advances_trans; [ apply advances_pushTail | apply advances_emitCalls ].
Qed.

Lemma advances_onStreamEvent (st : State) (ev : StreamEvent) :
  advances st (onStreamEvent st ev).
Proof.
  destruct ev; cbn [onStreamEvent].
  - apply advances_same_waitList; [ | eapply grows_tail, grows_onData ].
    unfold onData. destruct chunk; reflexivity.
  - apply advances_onCall.
  - apply advances_same_waitList; [ | eapply grows_tail, grows_onN1 ].
    unfold onN1. destruct (n1Seen st); reflexivity.
  - apply advances_same_waitList; [ | eapply grows_tail, grows_onN2 ].
    unfold onN2. destruct (n2Seen st); reflexivity.
  - apply advances_same_waitList; [ | eapply grows_tail, grows_onSnapshot ].
    unfold onSnapshot. destruct (negb _); reflexivity.
  - apply advances_settle.
Qed.

Lemma advances_timeline (events : list StreamEvent) (st : State) :
  advances st (fold_left onStreamEvent events st).
Proof.
  revert st. induction events as [|ev l IH]; intros st; cbn.
  - apply advances_refl.
  - eapply advances_trans; [ apply advances_onStreamEvent | apply IH ].
Qed.

(** A turn completes only when the stream ended without error and every
    promise of [waitList] has settled. *)
Lemma runStream_inv (softwareFC : bool) (script : StreamScript) (st st' : State) :
  runStream softwareFC script st = TurnDone st' ->
  finish script = StreamEnd
  /\ st' = turnEnd softwareFC script st /\ allSettled st' = true.
Proof.
  unfold runStream. destruct (finish script); try discriminate.
  cbv zeta. destruct (allSettled _) eqn:E; [ | discriminate ].
  intros H. injection H as <-. auto.
Qed.

Lemma advances_afterTimeline (script : StreamScript) (st : State) :
  advances st (afterTimeline script st).
Proof. apply advances_timeline. Qed.

Lemma advances_turnEnd (softwareFC : bool) (script : StreamScript) (st : State) :
  advances st (turnEnd softwareFC script st).
Proof.
  unfold turnEnd. eapply advances_trans; [ | apply advances_settleAll ].
  unfold afterHistory. set (st5 := atClose softwareFC script st).
  assert (advances st st5) as H5.
  { unfold st5, atClose.
    set (st4 := settleAll _ _).
    assert (advances st st4) as H4.
    { unfold st4. eapply advances_trans; [ | apply advances_settleAll ].
      unfold afterFinal. destruct (final script).
      - eapply advances_trans; [ apply advances_afterTimeline | apply advances_onFinal ].
      - apply advances_afterTimeline. }
    destruct (_ =? _)%nat; [ | exact H4 ].
    eapply advances_trans; [ exact H4 | ].
    apply advances_same_waitList; [ reflexivity | exists []; now rewrite app_nil_r ]. }
  eapply advances_trans; [ exact H5 | ].
  destruct (keepLooping st5).
  - eapply advances_trans; [ | apply advances_write ].
    destruct softwareFC; [ apply advances_refl | apply advances_pushTail ].
  - apply advances_write.
Qed.

Lemma allSettled_spec (st : State) (t : Task) :
  allSettled st = true -> t ∈ tasksOf st -> (t, true) ∈ waitList st.
Proof.
  unfold allSettled, tasksOf. intros Hall Ht.
  apply list_elem_of_fmap in Ht as ([t' b] & -> & Hin). cbn.
  rewrite forallb_forall in Hall. apply list_elem_of_In in Hin.
  pose proof (Hall _ Hin) as Hb. cbn in Hb. subst b. now apply list_elem_of_In.
Qed.

(** At the end of a turn that did not hang, the history item of every
    call dispatched in the turn is in [tailMessages]. *)
Lemma turn_records_all_results (softwareFC : bool) (script : StreamScript)
      (st st' : State) (t : Task) :
  runStream softwareFC script st = TurnDone st' ->
  waitList st = [] ->
  t ∈ tasksOf st' ->
  taskHistoryItem t ∈ tailMessages st'.
Proof.
  intros Hrun Hw Ht. apply runStream_inv in Hrun as (_ & -> & Hall).
  pose proof (advances_turnEnd softwareFC script st) as [_ _ Hrec].
  apply Hrec.
  - intros t' Ht'. rewrite Hw in Ht'. now apply elem_of_nil in Ht'.
  - now apply allSettled_spec.
Qed.

(** Calls are neither dropped nor reordered by the rest of the turn. *)
Lemma advances_task (a b : State) (t : Task) :
  advances a b -> t ∈ tasksOf a -> t ∈ tasksOf b.
Proof. intros [_ [newer ->] _] H. apply elem_of_app. now left. Qed.

Lemma advances_afterFinal_turnEnd (softwareFC : bool) (script : StreamScript) (st : State) :
  advances (afterFinal softwareFC script st) (turnEnd softwareFC script st).
Proof.
  unfold turnEnd. eapply advances_trans; [ | apply advances_settleAll ].
  unfold afterHistory, atClose. cbv zeta.
  set (st4 := settleAll _ _).
  assert (advances (afterFinal softwareFC script st) st4) as H4
      by apply advances_settleAll.
  set (st5 := if (length (waitList st4) =? 0)%nat then _ else _).
  assert (advances (afterFinal softwareFC script st) st5) as H5.
  { unfold st5. destruct (_ =? _)%nat; [ | exact H4 ].
    eapply advances_trans; [ exact H4 | ].
    apply advances_same_waitList; [ reflexivity | exists []; now rewrite app_nil_r ]. }
  eapply advances_trans; [ exact H5 | ].
  destruct (keepLooping st5).
  - eapply advances_trans; [ | apply advances_write ].
    destruct softwareFC; [ apply advances_refl | apply advances_pushTail ].
  - apply advances_write.
Qed.

Lemma advances_afterTimeline_afterFinal (softwareFC : bool) (script : StreamScript) (st : State) :
  advances (afterTimeline script st) (afterFinal softwareFC script st).
Proof.
  unfold afterFinal. destruct (final script); [ apply advances_onFinal | apply advances_refl ].
Qed.

(** A native ['call'] event with a truthy name is in [waitList] at the end
    of the turn. *)
Lemma native_call_dispatched (softwareFC : bool) (script : StreamScript) (st : State)
      (earlier later : list StreamEvent) (params callId : JsVal) :
  timeline script = earlier ++ NativeCall params callId :: later ->
  truthy (js_get params "name") = true ->
  mkTask (js_get params "name") callId (parsedArguments params)
    ∈ tasksOf (turnEnd softwareFC script st).
Proof.
  intros Htl Hn.
  eapply advances_task; [ apply advances_afterFinal_turnEnd | ].
  eapply advances_task; [ apply advances_afterTimeline_afterFinal | ].
  unfold afterTimeline. rewrite Htl, fold_left_app. cbn [fold_left onStreamEvent].
  eapply advances_task; [ apply advances_timeline | ].
  destruct (onCall_dispatches params callId (fold_left onStreamEvent earlier st) Hn)
    as [settled Hw].
  unfold tasksOf. rewrite Hw, map_app. apply elem_of_app. right. left.
Qed.

Lemma emitCalls_dispatches (toolCalls : list JsVal) (toolCall : JsVal) :
  Forall (fun c => isNullish c = false) toolCalls ->
  toolCall ∈ toolCalls ->
  truthy (js_get toolCall "name") = true ->
  forall st,
    mkTask (js_get toolCall "name") (js_get toolCall "id") (parsedArguments toolCall)
      ∈ tasksOf (emitCalls toolCalls st).
Proof.
  intros Hall Hin Hn. induction toolCalls as [|c l IH]; intros st.
  - now apply elem_of_nil in Hin.
  - inversion Hall as [|? ? Hc Hl]; subst. cbn [emitCalls]. rewrite Hc.
    apply elem_of_cons in Hin as [-> | Hin].
    + eapply advances_task; [ apply advances_emitCalls | ].
      destruct (onCall_dispatches c (js_get c "id") st Hn) as [settled Hw].
      unfold tasksOf. rewrite Hw, map_app. apply elem_of_app. right. left.
    + now apply IH.
Qed.

(** A tool call of a JSON envelope, when software function calling is in
    action, is in [waitList] at the end of the turn. *)
Lemma envelope_call_dispatched (script : StreamScript) (st : State)
      (v : JsVal) (toolCalls : list JsVal) (toolCall : JsVal) :
  final script = Some v ->
  truthy v && isObjectLike v = true ->
  strictEqualsString (js_get v "intention") "USE_TOOLS" = true ->
  js_get v "tools" = JArr toolCalls ->
  Forall (fun c => isNullish c = false) toolCalls ->
  toolCall ∈ toolCalls ->
  truthy (js_get toolCall "name") = true ->
  mkTask (js_get toolCall "name") (js_get toolCall "id") (parsedArguments toolCall)
    ∈ tasksOf (turnEnd true script st).
Proof.
  intros Hf Hv Hi Ht Hall Hin Hn.
  eapply advances_task; [ apply advances_afterFinal_turnEnd | ].
  unfold afterFinal. rewrite Hf. unfold onFinal. rewrite Hv, Hi, Ht. cbn [negb].
  now apply emitCalls_dispatches.
Qed.

Lemma tasksOf_settle (i : nat) (st : State) : tasksOf (settle i st) = tasksOf st.
Proof.
  unfold settle, tasksOf. destruct (nth_error _ _) as [[t [|]]|]; try reflexivity.
  cbn [waitList setWaitList]. apply map_fst_markSettled.
Qed.

Lemma tasksOf_settleAll (order : list nat) (st : State) :
  tasksOf (settleAll order st) = tasksOf st.
Proof.
  unfold settleAll. revert st. induction order as [|i l IH]; intros st; cbn;
    [ reflexivity | ].
  now rewrite IH, tasksOf_settle.
Qed.

Lemma keepLooping_afterFinal (softwareFC : bool) (script : StreamScript) (st : State) :
  keepLooping (afterFinal softwareFC script st) = keepLooping st.
Proof.
  unfold afterFinal.
  pose proof (grows_afterTimeline script st) as (_ & _ & K1 & _).
  destruct (final script) as [v|]; [ | exact K1 ].
  pose proof (grows_onFinal softwareFC v (afterTimeline script st)) as (_ & _ & K2 & _).
  congruence.
Qed.

(** A turn that dispatched a call leaves [keepLooping] as it was: the
    loop goes on to the next turn. *)
Lemma turn_keeps_looping (softwareFC : bool) (script : StreamScript) (st : State) :
  tasksOf (turnEnd softwareFC script st) <> [] ->
  keepLooping (turnEnd softwareFC script st) = keepLooping st.
Proof.
  intros Hne. unfold turnEnd in *.
  pose proof (grows_settleAll (afterClose script) (afterHistory softwareFC script st))
    as (_ & _ & K7 & _).
  rewrite K7. rewrite tasksOf_settleAll in Hne.
  unfold afterHistory, atClose in *. cbv zeta in *.
  set (st4 := settleAll (beforeClose script) (afterFinal softwareFC script st)) in *.
  assert (keepLooping st4 = keepLooping st) as K4.
  { pose proof (grows_settleAll (beforeClose script) (afterFinal softwareFC script st))
      as (_ & _ & K & _).
    unfold st4. rewrite K. apply keepLooping_afterFinal. }
  destruct (length (waitList st4) =? 0)%nat eqn:E.
  - exfalso. apply Hne. apply Nat.eqb_eq in E.
    unfold tasksOf. cbn. destruct (waitList st4); [ reflexivity | discriminate ].
  - destruct (keepLooping st4) eqn:K; cbn; [ | congruence ].
    destruct softwareFC; cbn; congruence.
Qed.

Lemma elem_of_framesGrow (P : SseFrame -> bool) (st st' : State) (f : SseFrame) :
  framesGrow P st st' -> P f = false ->
  f ∈ frames (sseStream st') -> f ∈ frames (sseStream st).
Proof.
  intros (_ & _ & extra & -> & Hp) Hf Hin.
  apply elem_of_app in Hin as [Hin | Hin]; [ exact Hin | exfalso ].
  rewrite forallb_forall in Hp. apply list_elem_of_In in Hin.
  rewrite (Hp _ Hin) in Hf. discriminate.
Qed.

(** The listeners and the tool promises of a turn write no [error]
    frame, whatever the tools do. *)
Lemma turn_writes_no_error (softwareFC : bool) (script : StreamScript) (st : State)
      (data : string) :
  EvError data ∈ frames (sseStream (turnEnd softwareFC script st)) ->
  EvError data ∈ frames (sseStream st).
Proof.
  intros Hin.
  apply (elem_of_framesGrow _ _ _ _ (framesGrow_afterFinal_turnEnd softwareFC script st))
    in Hin; [ | reflexivity ].
  unfold afterFinal in Hin.
  assert (EvError data ∈ frames (sseStream (afterTimeline script st))) as Hin'.
  { destruct (final script) as [v|]; [ | exact Hin ].
    eapply elem_of_framesGrow; [ | | exact Hin ].
    - apply framesGrow_of_grows, grows_onFinal.
    - reflexivity. }
  eapply elem_of_framesGrow; [ | | exact Hin' ].
  - apply framesGrow_of_grows, grows_afterTimeline.
  - reflexivity.
Qed.

(** The loop is rejected only by the model: its call, or the stream it
    returned, or the JSON streams that read it. *)
Lemma turnLoop_rejected (options : LLMOptions) :
  forall (fuel : nat) (st st' : State) (err : Thrown),
    turnLoop fuel options st = Rejected err st' ->
    exists i opts, modelFailure (mdl_exec i opts) err.
Proof.
  induction fuel as [|fuel IH]; intros st st' err H; [ discriminate | ].
  cbn [turnLoop] in H.
  destruct (keepLooping st && gtb (callRoundsLeft st) 0); [ | discriminate ].
  destruct (mdl_exec (length (requests st)) (thisOptions options st))
    as [e | | script] eqn:E.
  - injection H as <- _. exists (length (requests st)), (thisOptions options st).
    rewrite E. reflexivity.
  - injection H as <- _. exists (length (requests st)), (thisOptions options st).
    rewrite E. reflexivity.
  - unfold runStream in H.
    destruct (finish script) as [ | name message | e | ] eqn:F.
    + cbv zeta in H. destruct (allSettled _); [ | discriminate ].
      eapply IH, H.
    + injection H as <- _. exists (length (requests st)), (thisOptions options st).
      rewrite E. cbn. rewrite F. reflexivity.
    + injection H as <- _. exists (length (requests st)), (thisOptions options st).
      rewrite E. cbn. rewrite F. reflexivity.
    + discriminate.
Qed.

(** ** A single turn that carries text only *)

Lemma settle_nowait (i : nat) (st : State) : waitList st = [] -> settle i st = st.
Proof. unfold settle. intros ->. destruct i; reflexivity. Qed.

Lemma settleAll_nowait (order : list nat) (st : State) :
  waitList st = [] -> settleAll order st = st.
Proof.
  unfold settleAll. induction order as [|i l IH]; intros Hw; cbn; [ reflexivity | ].
  rewrite settle_nowait by exact Hw. now apply IH.
Qed.


Lemma frames_write_open (f : SseFrame) (st : State) :
  writableEnded (sseStream st) = false ->
  frames (sseStream (write f st)) = frames (sseStream st) ++ [f]
  /\ writableEnded (sseStream (write f st)) = false.
Proof. unfold write, sse_write. cbn. intros ->. cbn. auto. Qed.




(** ** A rule for invariants of the loop *)

Lemma turnLoop_invariant (options : LLMOptions)
      (I : State -> Prop) (Q : Outcome -> Prop) :
  Q OutOfFuel ->
  (forall st, I st -> keepLooping st && gtb (callRoundsLeft st) 0 = false ->
              Q (Returned (endStream st))) ->
  (forall st, I st -> keepLooping st = true -> (0 < callRoundsLeft st)%Q ->
     match mdl_exec (length (requests st)) (thisOptions options st) with
     | ExecThrows err =>
         Q (Rejected err
              (mkState (sseStream st) (tailMessages st) (callRoundsLeft st)
                       (keepLooping st) (requests st ++ [thisOptions options st])
                       (resp st) (waitList st) (n1Seen st) (n2Seen st)))
     | ExecNotAStream =>
         Q (Rejected (ErrorObject "AssertionFailureError" "Model did not return a stream")
                     (beginTurn (thisOptions options st) st))
     | ExecStream script =>
         match runStream (softwareFunctionCalling st) script
                         (beginTurn (thisOptions options st) st) with
         | TurnDone st' => I (setWaitList [] st')
         | TurnHung st' => Q (Hung st')
         | TurnThrew err st' => Q (Rejected err st')
         end
     end) ->
  forall (fuel : nat) (st : State), I st -> Q (turnLoop fuel options st).
Proof.
  intros Hfuel Hexit Hturn. induction fuel as [|fuel IH]; intros st HI; [ exact Hfuel | ].
  cbn [turnLoop].
  destruct (keepLooping st && gtb (callRoundsLeft st) 0) eqn:G;
    [ | now apply Hexit ].
  apply andb_true_iff in G as [Gk Gr]. apply gtb_true in Gr.
  specialize (Hturn st HI Gk Gr).
  destruct (mdl_exec _ _) as [err | | script]; try exact Hturn.
  destruct (runStream _ _ _) as [st' | st' | err st']; try exact Hturn.
  apply IH, Hturn.
Qed.

(** ** What a turn does, stage by stage *)

Lemma bodyFrame_of_turnFrame (f : SseFrame) : turnFrame f = true -> bodyFrame f = true.
Proof. unfold bodyFrame. intros ->. apply orb_true_r. Qed.

Lemma bodyFrame_of_toolFrame (f : SseFrame) : toolFrame f = true -> bodyFrame f = true.
Proof. intros H. apply bodyFrame_of_turnFrame, turnFrame_of_tool, H. Qed.

Lemma grows_body (softwareFC : bool) (script : StreamScript) (st : State) :
  grows bodyFrame st (settleAll (beforeClose script) (afterFinal softwareFC script st)).
Proof.
  eapply grows_trans;
    [ | eapply grows_weaken; [ apply bodyFrame_of_toolFrame | apply grows_settleAll ] ].
  assert (grows bodyFrame st (afterTimeline script st)) as Ht
      by (eapply grows_weaken; [ apply bodyFrame_of_turnFrame | apply grows_afterTimeline ]).
  unfold afterFinal. destruct (final script) as [v|]; [ | exact Ht ].
  eapply grows_trans; [ exact Ht | ].
  eapply grows_weaken; [ | apply grows_onFinal ].
  intros f H. unfold bodyFrame. apply orb_true_iff in H as [-> | H]; [ reflexivity | ].
  rewrite (turnFrame_of_tool _ H). apply orb_true_r.
Qed.

(** A turn that reaches the close of both streams either finds no
    promise in [waitList], stops the loop and writes [history], or
    finds one, writes [injectHistory] and waits for the promises. *)
Lemma turnEnd_cases (softwareFC : bool) (script : StreamScript) (st : State) :
  keepLooping st = true ->
  let st4 := settleAll (beforeClose script) (afterFinal softwareFC script st) in
  (waitList st4 = []
   /\ turnEnd softwareFC script st
      = write (EvHistory (turnHistory script st4)) (setKeepLooping false st4))
  \/ (waitList st4 <> []
      /\ turnEnd softwareFC script st
         = settleAll (afterClose script)
             (write (EvInjectHistory (turnHistory script st4))
                    (if softwareFC then st4
                     else pushTail (turnHistory script st4) st4))).
Proof.
  intros Hk st4.
  assert (keepLooping st4 = true) as Hk4.
  { destruct (grows_body softwareFC script st) as (_ & _ & H & _). fold st4 in H.
    congruence. }
  unfold turnEnd, afterHistory, atClose. fold st4.
  destruct (waitList st4) as [|x w] eqn:Hw; cbn [length Nat.eqb].
  - left. split; [ reflexivity | ]. cbn [keepLooping setKeepLooping].
    apply settleAll_nowait. cbn. exact Hw.
  - right. split; [ discriminate | ]. rewrite Hk4. reflexivity.
Qed.

(** What a turn that reaches the close of both streams has done. *)
Lemma turnEnd_summary (softwareFC : bool) (script : StreamScript) (st : State) :
  keepLooping st = true ->
  writableEnded (sseStream st) = false ->
  let st' := turnEnd softwareFC script st in
  callRoundsLeft st' = callRoundsLeft st
  /\ requests st' = requests st
  /\ writableEnded (sseStream st') = false
  /\ (exists more, tailMessages st' = tailMessages st ++ more)
  /\ exists body,
       forallb bodyFrame body = true
       /\ ((keepLooping st' = false /\ waitList st' = []
            /\ exists h, frames (sseStream st')
                         = frames (sseStream st) ++ body ++ [EvHistory h])
           \/ (keepLooping st' = true
               /\ exists h tools,
                    frames (sseStream st')
                    = frames (sseStream st) ++ body ++ EvInjectHistory h :: tools
                    /\ forallb toolFrame tools = true)).
Proof.
  intros Hk Hopen st'.
  pose proof (grows_body softwareFC script st) as G.
  set (st4 := settleAll (beforeClose script) (afterFinal softwareFC script st)) in *.
  destruct G as (G1 & G2 & G3 & G4 & (body & Gf & Gb) & (more & Gm)).
  assert (writableEnded (sseStream st4) = false) as Hopen4 by congruence.
  destruct (turnEnd_cases softwareFC script st Hk) as [[Hw Heq] | [Hw Heq]];
    fold st4 in Hw, Heq; unfold st'; rewrite Heq.
  - destruct (frames_write_open (EvHistory (turnHistory script st4))
                                (setKeepLooping false st4) Hopen4) as [Hf Ho].
    cbn [callRoundsLeft requests tailMessages write setKeepLooping keepLooping waitList].
    split; [ exact G1 | ]. split; [ exact G2 | ]. split; [ exact Ho | ].
    split; [ now exists more | ].
    exists body. split; [ exact Gb | ]. left.
    split; [ reflexivity | ]. split; [ exact Hw | ].
    exists (turnHistory script st4). rewrite Hf. cbn [sseStream setKeepLooping].
    now rewrite Gf, <- app_assoc.
  - set (st5 := if softwareFC then st4 else pushTail (turnHistory script st4) st4).
    assert (grows toolFrame st4 st5) as G5
        by (unfold st5; destruct softwareFC; [ apply grows_refl | apply grows_pushTail ]).
    assert (frames (sseStream st5) = frames (sseStream st4)) as Hf5
        by (unfold st5; destruct softwareFC; reflexivity).
    assert (writableEnded (sseStream st5) = false) as Hopen5
        by (unfold st5; destruct softwareFC; exact Hopen4).
    destruct (frames_write_open (EvInjectHistory (turnHistory script st4)) st5 Hopen5)
      as [Hf6 Ho6].
    set (st6 := write (EvInjectHistory (turnHistory script st4)) st5) in *.
    assert (grows toolFrame st5 st6) as G6 by (now apply grows_write).
    pose proof (grows_settleAll (afterClose script) st6) as G7.
    destruct (grows_trans _ _ _ _ G5 G6) as (A1 & A2 & A3 & A4 & _ & (m6 & Am)).
    destruct G7 as (B1 & B2 & B3 & B4 & (tools & Bf & Bt) & (m7 & Bm)).
    split; [ congruence | ]. split; [ congruence | ]. split; [ congruence | ].
    split.
    { exists (more ++ m6 ++ m7). rewrite Bm, Am, Gm, <- !app_assoc. reflexivity. }
    exists body. split; [ exact Gb | ]. right.
    split; [ congruence | ].
    exists (turnHistory script st4), tools. split; [ | exact Bt ].
    rewrite Bf, Hf6, Hf5, Gf, <- !app_assoc. reflexivity.
Qed.

(** However a turn ends, it leaves the turn counter and the request
    log alone and only appends to [tailMessages]. *)
Lemma runStream_tail (softwareFC : bool) (script : StreamScript) (st : State) :
  let st' := resultState (runStream softwareFC script st) in
  callRoundsLeft st' = callRoundsLeft st
  /\ requests st' = requests st
  /\ exists more, tailMessages st' = tailMessages st ++ more.
Proof.
  cbv zeta. destruct (runStream_bound softwareFC script st) as [H1 H2 _].
  split; [ exact H1 | ]. split; [ exact H2 | ].
  unfold runStream. destruct (finish script) as [ | name message | err | ]; cbn.
  - destruct (allSettled _); cbn; apply (adv_tail _ _ (advances_turnEnd _ _ _)).
  - apply (grows_tail _ _ _ (grows_afterTimeline script st)).
  - apply (grows_tail _ _ _ (grows_afterTimeline script st)).
  - apply (grows_tail _ _ _ (grows_afterTimeline script st)).
Qed.

(** ** How the stream ends *)

Lemma noFrame_app (p P : SseFrame -> bool) (l extra : list SseFrame) :
  (forall f, P f = true -> p f = false) ->
  noFrame p l -> forallb P extra = true -> noFrame p (l ++ extra).
Proof.
  intros HP Hl He. apply Forall_app. split; [ exact Hl | ].
  apply Forall_forall. intros f Hf. apply HP.
  rewrite forallb_forall in He. apply He. now apply list_elem_of_In.
Qed.

Lemma bodyFrame_not_terminal (f : SseFrame) : bodyFrame f = true -> terminalFrame f = false.
Proof. destruct f; cbn; congruence. Qed.

Lemma turnFrame_not_terminal (f : SseFrame) : turnFrame f = true -> terminalFrame f = false.
Proof. destruct f; cbn; congruence. Qed.

Lemma toolFrame_not_terminal (f : SseFrame) : toolFrame f = true -> terminalFrame f = false.
Proof. destruct f; cbn; congruence. Qed.

Lemma afterTimeline_open (script : StreamScript) (st : State) :
  writableEnded (sseStream st) = false ->
  noFrame terminalFrame (frames (sseStream st)) ->
  writableEnded (sseStream (afterTimeline script st)) = false
  /\ noFrame terminalFrame (frames (sseStream (afterTimeline script st))).
Proof.
  intros Ho Hn.
  destruct (grows_afterTimeline script st) as (_ & _ & _ & G4 & (extra & -> & Ge) & _).
  split; [ congruence | ].
  eapply noFrame_app; [ apply turnFrame_not_terminal | exact Hn | exact Ge ].
Qed.

Lemma turnLoop_stream (options : LLMOptions) :
  forall (fuel : nat) (st : State),
    streamAtHead st -> streamAtEnd (turnLoop fuel options st).
Proof.
  apply turnLoop_invariant.
  - exact I.
  - intros st [Ho Hh] G. cbn [streamAtEnd]. split; [ apply ended_endStream | ].
    rewrite frames_endStream. cbn [keepLooping callRoundsLeft endStream].
    destruct Hh as [[Hk Hn] | [Hk Hn]]; [ right | left; auto ].
    rewrite Hk in G. cbn [andb] in G. apply gtb_false in G. auto.
  - intros st [Ho Hh] Hk Hr.
    destruct Hh as [[_ Hn] | [Hk' _]]; [ | congruence ].
    destruct (mdl_exec _ _) as [err | | script].
    + right. cbn. auto.
    + right. cbn. auto.
    + set (st0 := beginTurn (thisOptions options st) st).
      assert (writableEnded (sseStream st0) = false) as Ho0 by exact Ho.
      assert (noFrame terminalFrame (frames (sseStream st0))) as Hn0 by exact Hn.
      assert (keepLooping st0 = true) as Hk0 by exact Hk.
      destruct (afterTimeline_open script st0 Ho0 Hn0) as [Ho1 Hn1].
      unfold runStream. destruct (finish script) as [ | name message | err | ].
      * cbv zeta.
        destruct (turnEnd_summary (softwareFunctionCalling st) script st0 Hk0 Ho0)
          as (_ & _ & Ho' & _ & body & Hb & Hcase).
        assert (noFrame terminalFrame (frames (sseStream st0) ++ body)) as Hnb
            by (eapply noFrame_app; [ apply bodyFrame_not_terminal | exact Hn0 | exact Hb ]).
        destruct (allSettled _) eqn:Hall.
        -- split; [ exact Ho' | ]. cbn [keepLooping frames sseStream setWaitList].
           destruct Hcase as [(Hk' & _ & h & Hf) | (Hk' & h & tools & Hf & Ht)].
           ++ right. split; [ exact Hk' | ].
              exists (frames (sseStream st0) ++ body), h.
              split; [ now rewrite Hf, app_assoc | exact Hnb ].
           ++ left. split; [ exact Hk' | ]. rewrite Hf, app_assoc.
              eapply (noFrame_app _ toolFrame); [ apply toolFrame_not_terminal | exact Hnb | ].
              cbn. exact Ht.
        -- cbn [streamAtEnd]. split; [ exact Ho' | ].
           destruct Hcase as [(_ & Hw & _) | (Hk' & h & tools & Hf & Ht)].
           ++ unfold allSettled in Hall. rewrite Hw in Hall. discriminate.
           ++ rewrite Hf, app_assoc.
              eapply (noFrame_app _ toolFrame); [ apply toolFrame_not_terminal | exact Hnb | ].
              cbn. exact Ht.
      * left. unfold onError, sse_end. cbn. rewrite Ho1. cbn.
        split; [ reflexivity | ]. exists name, message. eexists.
        split; [ reflexivity | ]. split; [ reflexivity | exact Hn1 ].
      * right. cbn. auto.
      * cbn. auto.
Qed.

Lemma chatWithReader_stream (options : LLMOptions) (turns : Q) :
  streamAtEnd (chatWithReader options turns).
Proof.
  unfold chatWithReader. destruct (negb (streamingSupported mdl)).
  - right. cbn. split; [ reflexivity | constructor ].
  - apply turnLoop_stream. split; [ reflexivity | ].
    left. split; [ reflexivity | constructor ].
Qed.

(** X18.  How the stream of [chatWithReader] ends.  A stream that is
    returned has been ended, and either its last frame is its only
    [history] frame (a turn dispatched no tool call) or the rounds have
    run out and it holds no [history] frame at all; it never holds an
    [error] frame.  When the function throws, the stream has been ended
    only if the model's stream emitted ['error'], and then its last
    frame is the [error] frame naming that error; otherwise it is left
    open, as it is when the function waits for ever.  No [history] or
    [error] frame is ever followed by another frame. *)
Theorem chatWithReader_stream_ending (options : LLMOptions) (turns : Q) :
  (forall st,
      chatWithReader options turns = Returned st ->
      writableEnded (sseStream st) = true
      /\ ((keepLooping st = false
           /\ exists pre h, frames (sseStream st) = pre ++ [EvHistory h]
                            /\ noFrame terminalFrame pre)
          \/ (keepLooping st = true /\ (callRoundsLeft st <= 0)%Q
              /\ noFrame terminalFrame (frames (sseStream st)))))
  /\ (forall err st,
        chatWithReader options turns = Rejected err st ->
        (writableEnded (sseStream st) = true
         /\ exists name message pre,
              err = ErrorObject name message
              /\ frames (sseStream st) = pre ++ [EvError (name +:+ ": " +:+ message)]
              /\ noFrame terminalFrame pre)
        \/ (writableEnded (sseStream st) = false
            /\ noFrame terminalFrame (frames (sseStream st))))
  /\ (forall st,
        chatWithReader options turns = Hung st ->
        writableEnded (sseStream st) = false
        /\ noFrame terminalFrame (frames (sseStream st))).
Proof.
  pose proof (chatWithReader_stream options turns) as H.
  split; [ | split ]; intros; match goal with E : chatWithReader _ _ = _ |- _ =>
    rewrite E in H end; exact H.
Qed.

(** ** The requests of a run *)

Lemma oneConversation_request (reqs : list LLMOptions) (tail : list Message)
      (opts : LLMOptions) :
  oneConversation reqs tail ->
  messages opts = trimmedMessages ++ tail ->
  oneConversation (reqs ++ [opts]) tail.
Proof.
  intros [Hfresh Hfirst Hchain Hlast] Hopts. constructor.
  - intros H. destruct reqs; discriminate H.
  - intros r H. destruct reqs as [|r0 reqs].
    + cbn in H. injection H as <-. rewrite Hopts, Hfresh by reflexivity.
      apply app_nil_r.
    + apply Hfirst. exact H.
  - intros i j ri rj Hij Hi Hj.
    destruct (decide (j < length reqs)%nat) as [Hlt | Hge].
    + rewrite lookup_app_l in Hi by lia. rewrite lookup_app_l in Hj by lia.
      exact (Hchain i j ri rj Hij Hi Hj).
    + assert (j = length reqs) as ->.
      { apply lookup_lt_Some in Hj. rewrite length_app in Hj. cbn in Hj. lia. }
      rewrite list_lookup_middle in Hj by reflexivity. injection Hj as <-.
      destruct (decide (i < length reqs)%nat) as [Hlt | Hge'].
      * rewrite lookup_app_l in Hi by lia. rewrite Hopts. apply Hlast.
        eapply list_elem_of_lookup_2, Hi.
      * assert (i = length reqs) as -> by lia.
        rewrite list_lookup_middle in Hi by reflexivity. now injection Hi as <-.
  - intros r Hr. apply elem_of_app in Hr as [Hr | Hr]; [ now apply Hlast | ].
    apply list_elem_of_singleton in Hr. subst r. now rewrite Hopts.
Qed.

Lemma oneConversation_tail (reqs : list LLMOptions) (tail more : list Message) :
  oneConversation reqs tail -> reqs <> [] -> oneConversation reqs (tail ++ more).
Proof.
  intros [Hfresh Hfirst Hchain Hlast] Hne. constructor; auto.
  - intros H. contradiction.
  - intros r Hr. etransitivity; [ apply Hlast, Hr | ].
    rewrite app_assoc. now apply prefix_app_r.
Qed.

Lemma turnLoop_oneConversation (options : LLMOptions) :
  forall (fuel : nat) (st : State),
    oneConversation (requests st) (tailMessages st) ->
    forall st', outcomeState (turnLoop fuel options st) = Some st' ->
                oneConversation (requests st') (tailMessages st').
Proof.
  apply (turnLoop_invariant options
           (fun st => oneConversation (requests st) (tailMessages st))
           (fun o => forall st', outcomeState o = Some st' ->
                                 oneConversation (requests st') (tailMessages st'))).
  - intros st' H. discriminate H.
  - intros st HI _ st' H. injection H as <-. exact HI.
  - intros st HI _ _.
    assert (oneConversation (requests st ++ [thisOptions options st]) (tailMessages st))
      as Hreq by (now apply oneConversation_request).
    destruct (mdl_exec _ _) as [err | | script].
    + intros st' H. injection H as <-. exact Hreq.
    + intros st' H. injection H as <-. exact Hreq.
    + pose proof (runStream_tail (softwareFunctionCalling st) script
                                 (beginTurn (thisOptions options st) st))
        as (_ & Hq & more & Hm).
      cbn [requests tailMessages beginTurn] in Hq, Hm.
      assert (oneConversation
                (requests (resultState (runStream (softwareFunctionCalling st) script
                                                  (beginTurn (thisOptions options st) st))))
                (tailMessages (resultState (runStream (softwareFunctionCalling st) script
                                                      (beginTurn (thisOptions options st) st)))))
        as Hres.
      { rewrite Hq, Hm. apply oneConversation_tail; [ exact Hreq | ].
        destruct (requests st); discriminate. }
      destruct (runStream _ _ _) as [st1 | st1 | err st1]; cbn [resultState] in Hres.
      * exact Hres.
      * intros st' H. injection H as <-. exact Hres.
      * intros st' H. injection H as <-. exact Hres.
Qed.

(** X19.  Within one run the conversation only grows: the first
    request to the model carries the trimmed messages of the caller,
    the messages of every later request begin with the messages of
    every earlier one, and every request is a beginning of the trimmed
    messages followed by the messages collected so far.  This holds
    whether the run returns, throws or waits for ever. *)
Theorem chatWithReader_conversation_only_grows
        (options : LLMOptions) (turns : Q) (st : State) :
  outcomeState (chatWithReader options turns) = Some st ->
  (forall r, requests st !! 0%nat = Some r -> messages r = trimmedMessages)
  /\ (forall i j ri rj,
         (i <= j)%nat -> requests st !! i = Some ri -> requests st !! j = Some rj ->
         messages ri `prefix_of` messages rj)
  /\ (forall r, r ∈ requests st ->
                messages r `prefix_of` trimmedMessages ++ tailMessages st).
Proof.
  intros H.
  assert (oneConversation (requests st) (tailMessages st)) as [_ H1 H2 H3].
  { unfold chatWithReader in H. destruct (negb (streamingSupported mdl)).
    - injection H as <-. cbn. constructor; auto.
      + intros r Hr. discriminate Hr.
      + intros i j ri rj _ Hi. rewrite lookup_nil in Hi. discriminate Hi.
      + intros r Hr. now apply not_elem_of_nil in Hr.
    - eapply turnLoop_oneConversation; [ | exact H ]. cbn. constructor; auto.
      + intros r Hr. discriminate Hr.
      + intros i j ri rj _ Hi. rewrite lookup_nil in Hi. discriminate Hi.
      + intros r Hr. now apply not_elem_of_nil in Hr. }
  auto.
Qed.

(** ** Which requests offer the tools *)

Lemma append_assoc (a b c : string) : (a +:+ b) +:+ c = a +:+ (b +:+ c).
Proof.
  induction a as [|x a IH]; [ reflexivity | ].
  change (String x ((a +:+ b) +:+ c) = String x (a +:+ (b +:+ c))).
  now rewrite IH.
Qed.

Lemma functions_thisOptions (options : LLMOptions) (st : State) :
  functions (thisOptions options st)
  = if toolsOffered (callRoundsLeft st) then mixin_functions functionsMixin
    else functions options.
Proof. reflexivity. Qed.

Lemma system_thisOptions (system0 : option string) (msgs : list Message)
      (fns : option (list JsVal)) (st : State) :
  let options := mkOptions (initialSystem system0) msgs fns in
  (functionCallingSupported mdl = true ->
   system (thisOptions options st) = system0)
  /\ (functionCallingSupported mdl = false ->
      exists pre, system (thisOptions options st)
                  = Some (pre +:+ hole (mixin_system functionsMixin))).
Proof.
  cbv zeta. unfold thisOptions, softwareFunctionCalling, initialSystem.
  cbn [system]. split; intros ->; cbn [negb andb].
  - destruct (mixin_functions functionsMixin); [ rewrite andb_false_r | ]; reflexivity.
  - destruct (match mixin_functions functionsMixin with
              | Some _ => _ | None => false end).
    + eexists. rewrite <- append_assoc. reflexivity.
    + eexists. reflexivity.
Qed.

Lemma builtInOrder_request (options : LLMOptions) (turns : Q)
      (reqs : list LLMOptions) (st : State) :
  builtInOrder options turns reqs ->
  (callRoundsLeft st == turns - inject_Z (Z.of_nat (length reqs)))%Q ->
  builtInOrder options turns (reqs ++ [thisOptions options st]).
Proof.
  intros Hb Hr i r Hi.
  destruct (decide (i < length reqs)%nat) as [Hlt | Hge].
  - rewrite lookup_app_l in Hi by lia. now apply Hb.
  - assert (i = length reqs) as ->.
    { apply lookup_lt_Some in Hi. rewrite length_app in Hi. cbn in Hi. lia. }
    rewrite list_lookup_middle in Hi by reflexivity. injection Hi as <-.
    exists st. auto.
Qed.

(** The counter at the head of the loop: one round gone per request. *)
Lemma rounds_after_turn (turns : Q) (st st1 : State) (opts : LLMOptions) :
  (callRoundsLeft st == turns - inject_Z (Z.of_nat (length (requests st))))%Q ->
  callRoundsLeft st1 = (callRoundsLeft st - 1)%Q ->
  requests st1 = requests st ++ [opts] ->
  (callRoundsLeft st1 == turns - inject_Z (Z.of_nat (length (requests st1))))%Q.
Proof.
  intros Hr Hc Hq. rewrite Hc, Hq, length_app, Nat.add_1_r, inject_Z_S, Hr. ring.
Qed.

Lemma turnLoop_builtInOrder (options : LLMOptions) (turns : Q) :
  forall (fuel : nat) (st : State),
    builtInOrder options turns (requests st)
    /\ (callRoundsLeft st == turns - inject_Z (Z.of_nat (length (requests st))))%Q ->
    forall st', outcomeState (turnLoop fuel options st) = Some st' ->
                builtInOrder options turns (requests st').
Proof.
  apply (turnLoop_invariant options
           (fun st => builtInOrder options turns (requests st)
                      /\ (callRoundsLeft st
                          == turns - inject_Z (Z.of_nat (length (requests st))))%Q)
           (fun o => forall st', outcomeState o = Some st' ->
                                 builtInOrder options turns (requests st'))).
  - intros st' H. discriminate H.
  - intros st [HI _] _ st' H. injection H as <-. exact HI.
  - intros st [HI Hr] _ _.
    pose proof (builtInOrder_request _ _ _ _ HI Hr) as Hreq.
    destruct (mdl_exec _ _) as [err | | script].
    + intros st' H. injection H as <-. exact Hreq.
    + intros st' H. injection H as <-. exact Hreq.
    + pose proof (runStream_tail (softwareFunctionCalling st) script
                                 (beginTurn (thisOptions options st) st))
        as (Hc & Hq & _).
      cbn [requests callRoundsLeft beginTurn] in Hq, Hc.
      destruct (runStream _ _ _) as [st1 | st1 | err st1]; cbn [resultState] in Hq, Hc.
      * cbn [requests callRoundsLeft setWaitList]. split; [ now rewrite Hq | ].
        eapply rounds_after_turn; eassumption.
      * intros st' H. injection H as <-. now rewrite Hq.
      * intros st' H. injection H as <-. now rewrite Hq.
Qed.

Lemma toolsOffered_Qeq (x y : Q) : (x == y)%Q -> toolsOffered x = toolsOffered y.
Proof.
  intros H. unfold toolsOffered.
  destruct (mixin_functions functionsMixin); [ now apply gtb_Qeq | reflexivity ].
Qed.

(** X20.  The request with index [i] of a run allowed [turns] turns
    carries the functions of the tool mixin exactly when the mixin has
    functions and more than one round is left, that is when
    [i + 1 < turns]; otherwise it carries the functions of the caller,
    so the last request that is allowed never offers the tools.  For a
    model with native function calling the system prompt is the
    caller's; for a model without, the system prompt of every request
    ends with the system text of the mixin, and with the word
    [undefined] when the mixin has none. *)
Theorem chatWithReader_tools_offered
        (options : LLMOptions) (turns : Q) (st : State) (i : nat) (r : LLMOptions) :
  outcomeState (chatWithReader options turns) = Some st ->
  requests st !! i = Some r ->
  functions r = (if toolsOffered (turns - inject_Z (Z.of_nat i))
                 then mixin_functions functionsMixin else functions options)
  /\ (toolsOffered (turns - inject_Z (Z.of_nat i)) = true
      <-> is_Some (mixin_functions functionsMixin)
          /\ (inject_Z (Z.of_nat i) + 1 < turns)%Q)
  /\ (functionCallingSupported mdl = true -> system r = system options)
  /\ (functionCallingSupported mdl = false ->
      exists pre, system r = Some (pre +:+ hole (mixin_system functionsMixin))).
Proof.
  intros H Hi.
  assert (builtInOrder
            (mkOptions (initialSystem (system options)) (messages options)
                       (functions options))
            turns (requests st)) as Hb.
  { unfold chatWithReader in H. destruct (negb (streamingSupported mdl)).
    - injection H as <-. cbn in Hi. discriminate Hi.
    - eapply turnLoop_builtInOrder; [ | exact H ].
      cbn [requests callRoundsLeft initialState length]. split.
      + intros k x Hk. discriminate Hk.
      + change (inject_Z (Z.of_nat 0)) with 0%Q. ring. }
  destruct (Hb i r Hi) as (s & -> & Hs).
  rewrite functions_thisOptions, (toolsOffered_Qeq _ _ Hs). cbn [functions].
  split; [ reflexivity | ]. split.
  - unfold toolsOffered. destruct (mixin_functions functionsMixin) as [fs|].
    + rewrite gtb_true. split; [ intros; split; [ eauto | lra ] | intros [_ ?]; lra ].
    + split; [ discriminate | intros [[x Hx] _]; discriminate Hx ].
  - apply system_thisOptions.
Qed.

(** ** The results of the calls reach the next request *)

Lemma softwareFunctionCalling_at (st : State) (q : Q) :
  (callRoundsLeft st == q)%Q ->
  softwareFunctionCalling st = softwareFunctionCallingAt q.
Proof.
  intros H. unfold softwareFunctionCalling, softwareFunctionCallingAt, toolsOffered.
  destruct (mixin_functions functionsMixin); [ | reflexivity ].
  now rewrite (gtb_Qeq _ _ _ H).
Qed.

Lemma tasksOf_onCall (params callId : JsVal) (st : State) :
  tasksOf (onCall params callId st)
  = tasksOf st ++ (if truthy (js_get params "name")
                   then [mkTask (js_get params "name") callId (parsedArguments params)]
                   else []).
Proof.
  destruct (truthy (js_get params "name")) eqn:Hn.
  - destruct (onCall_dispatches params callId st Hn) as [settled Hw].
    unfold tasksOf. rewrite Hw, map_app. reflexivity.
  - unfold onCall. rewrite Hn. cbn [negb]. now rewrite app_nil_r.
Qed.

Lemma tasksOf_onStreamEvent (st : State) (ev : StreamEvent) :
  isNativeCall ev = false -> tasksOf (onStreamEvent st ev) = tasksOf st.
Proof.
  destruct ev; try discriminate; intros _; cbn [onStreamEvent].
  - unfold onData. destruct chunk; reflexivity.
  - unfold onN1. destruct (n1Seen st); reflexivity.
  - unfold onN2. destruct (n2Seen st); reflexivity.
  - unfold onSnapshot. destruct (negb _); reflexivity.
  - apply tasksOf_settle.
Qed.

(** The calls of a timeline are those of its ['call'] events. *)
Lemma tasksOf_timeline (events : list StreamEvent) :
  forall (st : State) (t : Task),
    t ∈ tasksOf (fold_left onStreamEvent events st) ->
    t ∈ tasksOf st
    \/ exists earlier later params callId,
         events = earlier ++ NativeCall params callId :: later
         /\ truthy (js_get params "name") = true
         /\ t = mkTask (js_get params "name") callId (parsedArguments params).
Proof.
  induction events as [|ev l IH]; intros st t H; cbn [fold_left] in H; [ now left | ].
  apply IH in H as [H | (earlier & later & p & c & -> & Hn & ->)].
  - destruct (isNativeCall ev) eqn:E.
    + destruct ev; try discriminate E. cbn [onStreamEvent] in H.
      rewrite tasksOf_onCall in H. apply elem_of_app in H as [H | H]; [ now left | ].
      destruct (truthy (js_get params "name")) eqn:Hn;
        [ | now apply elem_of_nil in H ].
      apply list_elem_of_singleton in H. right.
      exists [], l, params, callId. auto.
    + rewrite tasksOf_onStreamEvent in H by exact E. now left.
  - right. exists (ev :: earlier), later, p, c. auto.
Qed.

Lemma named_not_nullish (v : JsVal) :
  truthy (js_get v "name") = true -> isNullish v = false.
Proof. destruct v; cbn; congruence. Qed.

Lemma emitCalls_reaches (before after : list JsVal) (toolCall : JsVal) :
  Forall (fun c => isNullish c = false) before ->
  truthy (js_get toolCall "name") = true ->
  forall st,
    mkTask (js_get toolCall "name") (js_get toolCall "id") (parsedArguments toolCall)
      ∈ tasksOf (emitCalls (before ++ toolCall :: after) st).
Proof.
  intros Hall Hn. induction before as [|c l IH]; intros st; cbn [app emitCalls].
  - rewrite (named_not_nullish _ Hn).
    eapply advances_task; [ apply advances_emitCalls | ].
    rewrite tasksOf_onCall, Hn. apply elem_of_app. right. left.
  - inversion Hall as [|? ? Hc Hl]; subst. rewrite Hc. now apply IH.
Qed.

(** The calls of an envelope are its named entries, up to the first
    entry that is [null] or [undefined]. *)
Lemma tasksOf_emitCalls (toolCalls : list JsVal) :
  forall (st : State) (t : Task),
    t ∈ tasksOf (emitCalls toolCalls st) ->
    t ∈ tasksOf st
    \/ exists before after toolCall,
         toolCalls = before ++ toolCall :: after
         /\ Forall (fun c => isNullish c = false) before
         /\ truthy (js_get toolCall "name") = true
         /\ t = mkTask (js_get toolCall "name") (js_get toolCall "id")
                       (parsedArguments toolCall).
Proof.
  induction toolCalls as [|c l IH]; intros st t H; cbn [emitCalls] in H; [ now left | ].
  destruct (isNullish c) eqn:Hc; [ now left | ].
  apply IH in H as [H | (before & after & tc & -> & Hall & Hn & ->)].
  - rewrite tasksOf_onCall in H. apply elem_of_app in H as [H | H]; [ now left | ].
    destruct (truthy (js_get c "name")) eqn:Hn; [ | now apply elem_of_nil in H ].
    apply list_elem_of_singleton in H. right.
    exists [], l, c. split; [ reflexivity | ]. split; [ constructor | auto ].
  - right. exists (c :: before), after, tc.
    split; [ reflexivity | ]. split; [ now constructor | auto ].
Qed.

Lemma tasksOf_turnEnd (softwareFC : bool) (script : StreamScript) (st : State) :
  tasksOf (turnEnd softwareFC script st) = tasksOf (afterFinal softwareFC script st).
Proof.
  unfold turnEnd. rewrite tasksOf_settleAll.
  unfold afterHistory, atClose. cbv zeta.
  rewrite <- (tasksOf_settleAll (beforeClose script) (afterFinal softwareFC script st)).
  set (st4 := settleAll (beforeClose script) (afterFinal softwareFC script st)).
  destruct (length (waitList st4) =? 0)%nat; cbn [keepLooping setKeepLooping];
    [ reflexivity | ].
  destruct (keepLooping st4); [ destruct softwareFC | ]; reflexivity.
Qed.

(** [dispatches] tells exactly which calls a turn puts in [waitList]. *)
Lemma dispatches_tasks (softwareFC : bool) (script : StreamScript) (st : State)
      (t : Task) :
  dispatches softwareFC script t -> t ∈ tasksOf (turnEnd softwareFC script st).
Proof.
  intros [earlier later params callId Htl Hn
         | v before after toolCall -> Hf Hv Hi Ht Hall Hn].
  - eapply native_call_dispatched; eassumption.
  - rewrite tasksOf_turnEnd. unfold afterFinal. rewrite Hf.
    unfold onFinal. rewrite Hv, Hi, Ht. cbn [negb].
    now apply emitCalls_reaches.
Qed.

Lemma tasks_dispatched (softwareFC : bool) (script : StreamScript) (st : State)
      (t : Task) :
  t ∈ tasksOf (turnEnd softwareFC script st) ->
  t ∈ tasksOf st \/ dispatches softwareFC script t.
Proof.
  rewrite tasksOf_turnEnd. unfold afterFinal, afterTimeline. intros H.
  assert (t ∈ tasksOf (fold_left onStreamEvent (timeline script) st) ->
          t ∈ tasksOf st \/ dispatches softwareFC script t) as Htl.
  { intros Ht. apply tasksOf_timeline in Ht
      as [Ht | (earlier & later & p & c & Heq & Hn & ->)]; [ now left | right ].
    eapply dispatches_native; eassumption. }
  destruct (final script) as [v|] eqn:Hf; [ | now apply Htl ].
  unfold onFinal in H.
  destruct (truthy v && isObjectLike v) eqn:Hv; cbn [negb] in H; [ | now apply Htl ].
  destruct (strictEqualsString (js_get v "intention") "USE_TOOLS") eqn:Hi;
    cbn [negb] in H; [ | now apply Htl ].
  destruct (js_get v "tools") as [ | | | | | toolCalls | ] eqn:Ht; try (now apply Htl).
  destruct softwareFC; [ | now apply Htl ].
  apply tasksOf_emitCalls in H as [H | (before & after & tc & -> & Hall & Hn & ->)];
    [ now apply Htl | right ].
  eapply dispatches_envelope; eauto.
Qed.

Lemma fedBack_request (turns : Q) (options : LLMOptions) (st : State) :
  feedsBack turns st -> fedBack turns (requests st ++ [thisOptions options st]).
Proof.
  intros [_ Hnext Htail _] i ri rnext t Hi Hn Hd.
  assert (S i < length (requests st ++ [thisOptions options st]))%nat as Hlen
      by (apply lookup_lt_is_Some; eauto).
  rewrite length_app in Hlen. cbn [length] in Hlen.
  rewrite lookup_app_l in Hi by lia.
  destruct (decide (S i < length (requests st))%nat) as [Hlt | Hge].
  - rewrite lookup_app_l in Hn by lia. exact (Hnext i ri rnext t Hi Hn Hd).
  - assert (S i = length (requests st)) as Heq by lia.
    rewrite list_lookup_middle in Hn by exact Heq. injection Hn as <-.
    cbn [messages thisOptions]. apply elem_of_app. right.
    eapply Htail; eassumption.
Qed.

Lemma turnLoop_feeds_back (options : LLMOptions) (turns : Q) :
  forall (fuel : nat) (st : State),
    feedsBack turns st -> fedBackAtEnd turns (turnLoop fuel options st).
Proof.
  apply turnLoop_invariant.
  - exact I.
  - intros st [Hr Hnext Htail Hon] G. cbn [fedBackAtEnd requests tailMessages endStream].
    split; [ exact Hnext | ]. intros i ri t Hi Hd.
    split; [ eapply Htail; eassumption | ]. intros Hlt.
    apply lookup_lt_is_Some.
    destruct (decide (S i < length (requests st))%nat) as [Hin | Hout]; [ exact Hin | ].
    exfalso. assert (i < length (requests st))%nat as Hi'
        by (apply lookup_lt_is_Some; eauto).
    assert (S i = length (requests st)) as Heq by lia.
    rewrite (Hon i ri t Hi Heq Hd) in G. cbn [andb] in G. apply gtb_false in G.
    rewrite <- Heq, inject_Z_S in Hr. lra.
  - intros st HI Hk Hpos.
    pose proof (fedBack_request turns options st HI) as Hreq.
    destruct HI as [Hr Hnext Htail Hon].
    destruct (mdl_exec _ _) as [err | | script] eqn:Hexec;
      [ exact Hreq | exact Hreq | ].
    pose proof (runStream_tail (softwareFunctionCalling st) script
                               (beginTurn (thisOptions options st) st))
      as (Hc & Hq & more & Hmore).
    cbn [requests callRoundsLeft tailMessages beginTurn] in Hq, Hc, Hmore.
    destruct (runStream _ _ _) as [st1 | st1 | err st1] eqn:Hrun;
      cbn [resultState] in Hq, Hc, Hmore;
      [ | cbn [fedBackAtEnd]; now rewrite Hq | cbn [fedBackAtEnd]; now rewrite Hq ].
    assert (forall t, dispatchedIn turns (length (requests st))
                                   (thisOptions options st) t ->
                      t ∈ tasksOf st1) as Hnew.
    { intros t (script' & Hexec' & Hd). rewrite Hexec in Hexec'.
      injection Hexec' as <-.
      rewrite <- (softwareFunctionCalling_at st _ Hr) in Hd.
      apply runStream_inv in Hrun as (_ & -> & _). now apply dispatches_tasks. }
    constructor; cbn [requests callRoundsLeft tailMessages keepLooping setWaitList].
    + eapply rounds_after_turn; eassumption.
    + now rewrite Hq.
    + intros i ri t Hi Hd. rewrite Hq in Hi.
      destruct (decide (i < length (requests st))%nat) as [Hlt | Hge].
      * rewrite lookup_app_l in Hi by lia. rewrite Hmore.
        apply elem_of_app. left. eapply Htail; eassumption.
      * assert (i = length (requests st)) as ->.
        { apply lookup_lt_Some in Hi. rewrite length_app in Hi. cbn in Hi. lia. }
        rewrite list_lookup_middle in Hi by reflexivity. injection Hi as <-.
        eapply turn_records_all_results; [ exact Hrun | reflexivity | ].
        now apply Hnew.
    + intros i ri t Hi Hlen Hd. rewrite Hq in Hi, Hlen.
      rewrite length_app in Hlen. cbn [length] in Hlen.
      assert (i = length (requests st)) as -> by lia.
      rewrite list_lookup_middle in Hi by reflexivity. injection Hi as <-.
      apply Hnew in Hd. apply runStream_inv in Hrun as (_ & -> & _).
      rewrite turn_keeps_looping; [ exact Hk | ].
      intros Hnil. rewrite Hnil in Hd. now apply elem_of_nil in Hd.
Qed.

Lemma chatWithReader_feeds_back (options : LLMOptions) (turns : Q) :
  fedBackAtEnd turns (chatWithReader options turns).
Proof.
  unfold chatWithReader. destruct (negb (streamingSupported mdl)).
  - cbn [fedBackAtEnd requests initialState]. intros i ri rnext t Hi. discriminate Hi.
  - apply turnLoop_feeds_back.
    constructor; cbn [requests callRoundsLeft tailMessages keepLooping initialState length].
    + change (inject_Z (Z.of_nat 0)) with 0%Q. ring.
    + intros i ri rnext t Hi. discriminate Hi.
    + intros i ri t Hi. discriminate Hi.
    + intros i ri t Hi. discriminate Hi.
Qed.

Lemma turnLoop_opens (options : LLMOptions) :
  forall (fuel : nat) (st : State),
    (requests st = [] /\ tailMessages st = [] /\ keepLooping st = true
     /\ (0 < callRoundsLeft st)%Q)
    \/ opened (requests st) ->
    forall st', outcomeState (turnLoop fuel options st) = Some st' ->
                opened (requests st').
Proof.
  apply (turnLoop_invariant options
           (fun st => (requests st = [] /\ tailMessages st = []
                       /\ keepLooping st = true /\ (0 < callRoundsLeft st)%Q)
                      \/ opened (requests st))
           (fun o => forall st', outcomeState o = Some st' -> opened (requests st'))).
  - intros st' H. discriminate H.
  - intros st [(_ & _ & Hk & Hpos) | Ho] G st' H.
    + apply gtb_true in Hpos. rewrite Hk, Hpos in G. discriminate G.
    + injection H as <-. exact Ho.
  - intros st HI _ _.
    assert (opened (requests st ++ [thisOptions options st])) as Hreq.
    { destruct HI as [(Hq & Ht & _) | (r0 & H0 & Hm)].
      - rewrite Hq. exists (thisOptions options st). split; [ reflexivity | ].
        cbn [messages thisOptions]. rewrite Ht. apply app_nil_r.
      - exists r0. split; [ | exact Hm ].
        rewrite lookup_app_l; [ exact H0 | ]. eapply lookup_lt_Some, H0. }
    destruct (mdl_exec _ _) as [err | | script].
    + intros st' H. injection H as <-. exact Hreq.
    + intros st' H. injection H as <-. exact Hreq.
    + pose proof (runStream_tail (softwareFunctionCalling st) script
                                 (beginTurn (thisOptions options st) st))
        as (_ & Hq & _).
      cbn [requests beginTurn] in Hq.
      destruct (runStream _ _ _) as [st1 | st1 | err st1]; cbn [resultState] in Hq.
      * right. cbn [requests setWaitList]. now rewrite Hq.
      * intros st' H. injection H as <-. now rewrite Hq.
      * intros st' H. injection H as <-. now rewrite Hq.
Qed.

Lemma chatWithReader_opens (options : LLMOptions) (turns : Q) :
  streamingSupported mdl = true ->
  (0 < turns)%Q ->
  exists st,
    outcomeState (chatWithReader options turns) = Some st
    /\ opened (requests st).
Proof.
  intros Hs Hpos.
  destruct (chatWithReader_bounded options turns) as (st & Ho & _); [ lra | ].
  exists st. split; [ exact Ho | ].
  unfold chatWithReader in Ho. rewrite Hs in Ho. cbn [negb] in Ho.
  eapply turnLoop_opens; [ | exact Ho ].
  left. cbn [requests tailMessages keepLooping callRoundsLeft initialState]. auto.
Qed.

(** C6, amended.  The calls the loop dispatches in a turn (the ['call']
    events of the model's stream and the entries of a USE_TOOLS
    envelope) are exactly the promises the turn waits for; when the turn
    completes, the history item of each of them is in [tailMessages],
    and when the tool handler threw, the content of that item is the
    string form of the error.  In the run as a whole, which calls the
    model as soon as a turn is allowed, the item is part of the messages
    of the next request made to the model, whenever there is a next
    request; a run that returns has recorded the item in any case, and
    has made the next request unless the turn of the call was the last
    one allowed.  A tool failure never rejects the run: it is rejected
    only by a failure of the model, of its call, of the stream it
    returned, or of the JSON streams reading that stream. *)
Theorem tool_failures_are_fed_back :
  (forall (softwareFC : bool) (script : StreamScript) (st st' : State) (t : Task),
      runStream softwareFC script st = TurnDone st' ->
      waitList st = [] ->
      (t ∈ tasksOf st' <-> dispatches softwareFC script t)
      /\ (dispatches softwareFC script t ->
          taskHistoryItem t ∈ tailMessages st'
          /\ forall args err,
               task_args t = inl args ->
               toolExec (task_name t) args = ToolThrows err ->
               taskHistoryItem t
               = historyItem (task_name t) (task_callId t)
                             (JStr (thrown_toString err))))
  /\ (forall (options : LLMOptions) (turns : Q),
        streamingSupported mdl = true ->
        (0 < turns)%Q ->
        exists st r0,
          outcomeState (chatWithReader options turns) = Some st
          /\ requests st !! 0%nat = Some r0
          /\ messages r0 = trimmedMessages)
  /\ (forall (options : LLMOptions) (turns : Q) (st : State) (i : nat)
             (ri rnext : LLMOptions) (t : Task),
        outcomeState (chatWithReader options turns) = Some st ->
        requests st !! i = Some ri ->
        requests st !! S i = Some rnext ->
        dispatchedIn turns i ri t ->
        taskHistoryItem t ∈ messages rnext)
  /\ (forall (options : LLMOptions) (turns : Q) (st : State) (i : nat)
             (ri : LLMOptions) (t : Task),
        chatWithReader options turns = Returned st ->
        requests st !! i = Some ri ->
        dispatchedIn turns i ri t ->
        taskHistoryItem t ∈ tailMessages st
        /\ ((inject_Z (Z.of_nat i) + 1 < turns)%Q -> is_Some (requests st !! S i)))
  /\ (forall (options : LLMOptions) (turns : Q) (err : Thrown) (st : State),
        chatWithReader options turns = Rejected err st ->
        streamingSupported mdl = false
        \/ exists i opts, modelFailure (mdl_exec i opts) err).
Proof.
  split; [ | split; [ | split; [ | split ] ] ].
  2: { intros options turns Hs Hpos.
       destruct (chatWithReader_opens options turns Hs Hpos) as (st & Ho & r0 & H0 & Hm).
       exists st, r0. auto. }
  - intros softwareFC script st st' t Hrun Hw.
    assert (dispatches softwareFC script t -> t ∈ tasksOf st') as Hsound.
    { intros Hd. pose proof Hrun as Hinv.
      apply runStream_inv in Hinv as (_ & -> & _). now apply dispatches_tasks. }
    split; [ split; [ | exact Hsound ] | ].
    + intros Ht. pose proof Hrun as Hinv.
      apply runStream_inv in Hinv as (_ & -> & _).
      apply tasks_dispatched in Ht as [Ht | Ht]; [ | exact Ht ].
      unfold tasksOf in Ht. rewrite Hw in Ht. now apply elem_of_nil in Ht.
    + intros Hd. split.
      * eapply turn_records_all_results; [ exact Hrun | exact Hw | now apply Hsound ].
      * intros args err Ha He. unfold taskHistoryItem, taskResult.
        now rewrite Ha, He.
  - intros options turns st i ri rnext t Ho Hi Hn Hd.
    pose proof (chatWithReader_feeds_back options turns) as H.
    destruct (chatWithReader options turns) as [s | e s | s |];
      cbn [outcomeState] in Ho; try discriminate Ho; injection Ho as ->;
      cbn [fedBackAtEnd] in H; [ destruct H as [H _] | | ];
      exact (H i ri rnext t Hi Hn Hd).
  - intros options turns st i ri t Ho Hi Hd.
    pose proof (chatWithReader_feeds_back options turns) as H.
    rewrite Ho in H. destruct H as [_ H]. eapply H; eassumption.
  - intros options turns err st H. unfold chatWithReader in H.
    destruct (streamingSupported mdl); [ right | now left ].
    cbn [negb] in H. eapply turnLoop_rejected, H.
Qed.

(** ** Every [return] has its [call] *)

Lemma returnsFollowCalls_snoc (l : list SseFrame) (f : SseFrame) :
  returnsFollowCalls l ->
  (forall name content id,
      f = EvReturn name content id -> exists arguments, EvCall name arguments id ∈ l) ->
  returnsFollowCalls (l ++ [f]).
Proof.
  intros Hl Hf pre name content id post Heq.
  destruct post as [|x post _] using rev_ind.
  - apply app_inj_tail in Heq as [-> ->]. eapply Hf. reflexivity.
  - rewrite app_comm_cons, app_assoc in Heq. apply app_inj_tail in Heq as [-> _].
    destruct (Hl pre name content id post eq_refl) as [a Ha]. exists a. exact Ha.
Qed.

Lemma callsAnnounced_write (f : SseFrame) (st : State) :
  callsAnnounced st ->
  (forall name content id,
      f = EvReturn name content id -> writableEnded (sseStream st) = false ->
      exists arguments, EvCall name arguments id ∈ frames (sseStream st)) ->
  callsAnnounced (write f st).
Proof.
  intros [Hr Hp] Hf. unfold callsAnnounced, pendingAnnounced, write, sse_write. cbn.
  destruct (writableEnded (sseStream st)) eqn:E; cbn.
  - split; [ exact Hr | ]. intros H. congruence.
  - split.
    + apply returnsFollowCalls_snoc; [ exact Hr | ].
      intros name content id Heq. now apply (Hf name content id).
    + intros _ t a Ht Ha. apply elem_of_app. left. now apply (Hp eq_refl t a).
Qed.

Lemma callsAnnounced_write_other (f : SseFrame) (st : State) :
  isReturn f = false -> callsAnnounced st -> callsAnnounced (write f st).
Proof.
  intros Hf H. apply callsAnnounced_write; [ exact H | ].
  intros name content id ->. discriminate Hf.
Qed.

(** A step that leaves the stream alone and adds no pending call. *)
Lemma callsAnnounced_shrink (st st' : State) :
  sseStream st' = sseStream st ->
  (forall t, (t, false) ∈ waitList st' -> (t, false) ∈ waitList st) ->
  callsAnnounced st -> callsAnnounced st'.
Proof.
  intros Hs Hw [Hr Hp]. unfold callsAnnounced, pendingAnnounced. rewrite Hs.
  split; [ exact Hr | ]. intros Ho t a Ht Ha. apply (Hp Ho t a); auto.
Qed.

Lemma callsAnnounced_recordResult (t : Task) (st : State) :
  callsAnnounced st -> callsAnnounced (recordResult t st).
Proof.
  intros H. unfold recordResult. apply callsAnnounced_write_other; [ reflexivity | ].
  eapply callsAnnounced_shrink; [ | | exact H ]; [ reflexivity | auto ].
Qed.

Lemma callsAnnounced_finishTask (t : Task) (st : State) :
  callsAnnounced st ->
  (writableEnded (sseStream st) = false ->
   forall parsedArgs, task_args t = inl parsedArgs ->
     EvCall (task_name t) parsedArgs (task_callId t) ∈ frames (sseStream st)) ->
  callsAnnounced (finishTask t st).
Proof.
  intros H Hcall. unfold finishTask.
  destruct (task_args t) as [a | e]; [ | now apply callsAnnounced_recordResult ].
  destruct (toolExec _ _); apply callsAnnounced_recordResult; [ | exact H ].
  apply callsAnnounced_write; [ exact H | ].
  intros name content id Heq Ho. injection Heq as <- _ <-.
  exists a. now apply Hcall.
Qed.

Lemma markSettled_pending (i : nat) (w : list (Task * bool)) (t : Task) :
  (t, false) ∈ markSettled i w -> (t, false) ∈ w.
Proof.
  revert i. induction w as [|[t0 b0] w IH]; intros [|i] H; cbn in *; try exact H.
  - apply elem_of_cons in H as [H | H]; [ discriminate H | now right ].
  - apply elem_of_cons in H as [H | H]; [ rewrite H; left | right; eapply IH, H ].
Qed.

Lemma callsAnnounced_settle (i : nat) (st : State) :
  callsAnnounced st -> callsAnnounced (settle i st).
Proof.
  intros H. unfold settle.
  destruct (nth_error (waitList st) i) as [[t [|]]|] eqn:E; try exact H.
  assert ((t, false) ∈ waitList st) as Hin.
  { apply list_elem_of_In. eapply nth_error_In, E. }
  eapply callsAnnounced_shrink with (st := finishTask t st); [ reflexivity | | ].
  - cbn [waitList setWaitList]. rewrite waitList_finishTask.
    intros t' Ht'. eapply markSettled_pending, Ht'.
  - apply callsAnnounced_finishTask; [ exact H | ].
    intros Ho a Ha. destruct H as [_ Hp]. now apply (Hp Ho t a).
Qed.

Lemma callsAnnounced_settleAll (order : list nat) (st : State) :
  callsAnnounced st -> callsAnnounced (settleAll order st).
Proof.
  unfold settleAll. revert st. induction order as [|i order IH]; intros st H; cbn.
  - exact H.
  - apply IH, callsAnnounced_settle, H.
Qed.

Lemma callsAnnounced_onCall (params callId : JsVal) (st : State) :
  callsAnnounced st -> callsAnnounced (onCall params callId st).
Proof.
  intros H. unfold onCall. destruct (negb _); [ exact H | ].
  destruct (parsedArguments params) as [a | e] eqn:E.
  - set (t := mkTask (js_get params "name") callId (inl a)).
    set (st1 := write (EvCall (js_get params "name") a callId) st).
    set (st2 := write (EvText _) st1).
    assert (callsAnnounced st2) as [Hr Hp].
    { apply callsAnnounced_write_other; [ reflexivity | ].
      apply callsAnnounced_write_other; [ reflexivity | exact H ]. }
    split; [ exact Hr | ].
    intros Ho t' a' Ht' Ha'. cbn [sseStream waitList setWaitList] in *.
    apply elem_of_app in Ht' as [Ht' | Ht']; [ now apply (Hp Ho t' a') | ].
    apply list_elem_of_singleton in Ht'. injection Ht' as ->.
    cbn in Ha'. injection Ha' as <-.
    assert (writableEnded (sseStream st) = false) as Ho0.
    { destruct (grows_write toolFrame (EvCall (js_get params "name") a callId) st eq_refl)
        as (_ & _ & _ & G1 & _).
      destruct (grows_write toolFrame
                  (EvText ("Calling tool " +:+ js_toString (js_get params "name")
                             +:+ " with arguments: " +:+ JSON_stringify_pretty a))
                  st1 eq_refl) as (_ & _ & _ & G2 & _).
      fold st1 in G1. fold st2 in G2. congruence. }
    destruct (frames_write_open (EvCall (js_get params "name") a callId) st Ho0)
      as [Hf1 Ho1]. fold st1 in Hf1, Ho1.
    destruct (frames_write_open (EvText ("Calling tool " +:+ js_toString (js_get params "name")
                                   +:+ " with arguments: "
                                   +:+ JSON_stringify_pretty a)) st1 Ho1) as [Hf2 _].
    fold st2 in Hf2. rewrite Hf2, Hf1. cbn [task_name task_callId t].
    apply elem_of_app. left. apply elem_of_app. right. left.
  - set (t := mkTask (js_get params "name") callId (inr e)).
    assert (callsAnnounced (finishTask t st)) as [Hr Hp].
    { apply callsAnnounced_finishTask; [ exact H | ]. intros _ a Ha. discriminate Ha. }
    split; [ exact Hr | ].
    intros Ho t' a' Ht' Ha'. cbn [sseStream waitList setWaitList] in *.
    apply elem_of_app in Ht' as [Ht' | Ht']; [ now apply (Hp Ho t' a') | ].
    apply list_elem_of_singleton in Ht'. discriminate Ht'.
Qed.

Lemma callsAnnounced_emitCalls (toolCalls : list JsVal) (st : State) :
  callsAnnounced st -> callsAnnounced (emitCalls toolCalls st).
Proof.
  revert st. induction toolCalls as [|c l IH]; intros st H; cbn; [ exact H | ].
  destruct (isNullish c); [ exact H | ]. apply IH, callsAnnounced_onCall, H.
Qed.

Lemma callsAnnounced_pushTail (m : Message) (st : State) :
  callsAnnounced st -> callsAnnounced (pushTail m st).
Proof. apply callsAnnounced_shrink; [ reflexivity | auto ]. Qed.

Lemma callsAnnounced_onFinal (softwareFC : bool) (v : JsVal) (st : State) :
  callsAnnounced st -> callsAnnounced (onFinal softwareFC v st).
Proof.
  intros H. unfold onFinal. destruct (negb (truthy v && isObjectLike v)); [ exact H | ].
  assert (callsAnnounced (write (EvStructured v) st)) as Hw
      by (now apply callsAnnounced_write_other).
  destruct (negb (strictEqualsString _ _)); [ exact Hw | ].
  destruct (js_get v "tools"); try exact Hw.
  destruct softwareFC; [ | exact Hw ].
  apply callsAnnounced_emitCalls, callsAnnounced_pushTail, Hw.
Qed.

Lemma callsAnnounced_onStreamEvent (st : State) (ev : StreamEvent) :
  callsAnnounced st -> callsAnnounced (onStreamEvent st ev).
Proof.
  intros H. destruct ev; cbn [onStreamEvent].
  - unfold onData. destruct chunk;
      try (eapply callsAnnounced_shrink; [ | | exact H ]; [ reflexivity | now auto ]).
    apply callsAnnounced_write_other; [ reflexivity | ].
    eapply callsAnnounced_shrink; [ | | exact H ]; [ reflexivity | auto ].
  - now apply callsAnnounced_onCall.
  - unfold onN1. destruct (n1Seen st); [ exact H | ].
    apply callsAnnounced_write_other; [ reflexivity | ].
    eapply callsAnnounced_shrink; [ | | exact H ]; [ reflexivity | auto ].
  - unfold onN2. destruct (n2Seen st); [ exact H | ].
    apply callsAnnounced_write_other; [ reflexivity | ].
    eapply callsAnnounced_shrink; [ | | exact H ]; [ reflexivity | auto ].
  - unfold onSnapshot. destruct (negb _); [ exact H | ].
    now apply callsAnnounced_write_other.
  - now apply callsAnnounced_settle.
Qed.

Lemma callsAnnounced_afterTimeline (script : StreamScript) (st : State) :
  callsAnnounced st -> callsAnnounced (afterTimeline script st).
Proof.
  unfold afterTimeline. revert st.
  induction (timeline script) as [|ev l IH]; intros st H; cbn; [ exact H | ].
  apply IH, callsAnnounced_onStreamEvent, H.
Qed.

Lemma callsAnnounced_turnEnd (softwareFC : bool) (script : StreamScript) (st : State) :
  callsAnnounced st -> callsAnnounced (turnEnd softwareFC script st).
Proof.
  intros H. unfold turnEnd. apply callsAnnounced_settleAll.
  unfold afterHistory.
  assert (callsAnnounced (atClose softwareFC script st)) as H5.
  { unfold atClose.
    assert (callsAnnounced (settleAll (beforeClose script) (afterFinal softwareFC script st)))
      as H4.
    { apply callsAnnounced_settleAll. unfold afterFinal.
      destruct (final script);
        [ apply callsAnnounced_onFinal | ]; now apply callsAnnounced_afterTimeline. }
    destruct (_ =? _)%nat; [ | exact H4 ].
    eapply callsAnnounced_shrink; [ | | exact H4 ]; [ reflexivity | auto ]. }
  destruct (keepLooping _).
  - apply callsAnnounced_write_other; [ reflexivity | ].
    destruct softwareFC; [ exact H5 | now apply callsAnnounced_pushTail ].
  - now apply callsAnnounced_write_other.
Qed.

Lemma returnsFollowCalls_onError (name message : string) (st : State) :
  returnsFollowCalls (frames (sseStream st)) ->
  returnsFollowCalls (frames (sseStream (onError name message st))).
Proof.
  intros H. unfold onError, sse_end. cbn.
  destruct (writableEnded (sseStream st)); cbn; [ exact H | ].
  apply returnsFollowCalls_snoc; [ exact H | ]. intros n c i Heq. discriminate Heq.
Qed.

Lemma turnLoop_returns_follow_calls (options : LLMOptions) :
  forall (fuel : nat) (st : State),
    callsAnnounced st ->
    forall st', outcomeState (turnLoop fuel options st) = Some st' ->
                returnsFollowCalls (frames (sseStream st')).
Proof.
  apply (turnLoop_invariant options callsAnnounced
           (fun o => forall st', outcomeState o = Some st' ->
                                 returnsFollowCalls (frames (sseStream st')))).
  - intros st' H. discriminate H.
  - intros st [HI _] _ st' H. injection H as <-. now rewrite frames_endStream.
  - intros st HI _ _.
    destruct (mdl_exec _ _) as [err | | script].
    + intros st' H. injection H as <-. apply HI.
    + intros st' H. injection H as <-. apply HI.
    + set (st0 := beginTurn (thisOptions options st) st).
      assert (callsAnnounced st0) as H0.
      { destruct HI as [Hr _]. split; [ exact Hr | ].
        intros _ t a Ht. cbn in Ht. now apply not_elem_of_nil in Ht. }
      unfold runStream. destruct (finish script) as [ | name message | err | ].
      * cbv zeta.
        pose proof (callsAnnounced_turnEnd (softwareFunctionCalling st) script st0 H0)
          as H1.
        destruct (allSettled _).
        -- eapply callsAnnounced_shrink; [ | | exact H1 ]; [ reflexivity | ].
           intros t Ht. cbn in Ht. now apply not_elem_of_nil in Ht.
        -- intros st' H. injection H as <-. apply H1.
      * intros st' H. injection H as <-.
        apply returnsFollowCalls_onError, callsAnnounced_afterTimeline, H0.
      * intros st' H. injection H as <-. apply callsAnnounced_afterTimeline, H0.
      * intros st' H. injection H as <-. apply callsAnnounced_afterTimeline, H0.
Qed.

(** X21.  On the stream of a run, whether it returns, throws or waits
    for ever, every [return] frame comes after a [call] frame with the
    same tool name and the same call id: no tool result is reported for
    a call that was not announced. *)
Theorem chatWithReader_returns_follow_calls
        (options : LLMOptions) (turns : Q) (st : State) :
  outcomeState (chatWithReader options turns) = Some st ->
  returnsFollowCalls (frames (sseStream st)).
Proof.
  intros H. unfold chatWithReader in H. destruct (negb (streamingSupported mdl)).
  - injection H as <-. intros pre name content id post Heq.
    cbn in Heq. destruct pre; discriminate Heq.
  - eapply turnLoop_returns_follow_calls; [ | exact H ]. split.
    + intros pre name content id post Heq. cbn in Heq. destruct pre; discriminate Heq.
    + intros _ t a Ht. cbn in Ht. now apply not_elem_of_nil in Ht.
Qed.

(** ** Every [call] is answered *)

Lemma callsAnswered_snoc (w w' : list (Task * bool)) (l : list SseFrame) (f : SseFrame) :
  callsAnswered w l ->
  (forall name arguments id,
      f = EvCall name arguments id -> (mkTask name id (inl arguments), false) ∈ w') ->
  (forall t, (t, false) ∈ w ->
             (t, false) ∈ w' \/ f = EvInjectHistory (taskHistoryItem t)) ->
  callsAnswered w' (l ++ [f]).
Proof.
  intros Hl Hcall Hw pre name arguments id post Heq.
  destruct post as [|x post _] using rev_ind.
  - apply app_inj_tail in Heq as [-> ->]. right. now apply Hcall.
  - rewrite app_comm_cons, app_assoc in Heq. apply app_inj_tail in Heq as [-> ->].
    destruct (Hl pre name arguments id post eq_refl) as [Hin | Hin].
    + left. apply elem_of_app. now left.
    + destruct (Hw _ Hin) as [Hin' | ->]; [ now right | ].
      left. apply elem_of_app. right. left.
Qed.

Lemma callsAnswered_mono (w w' : list (Task * bool)) (l : list SseFrame) :
  callsAnswered w l ->
  (forall t, (t, false) ∈ w -> (t, false) ∈ w') ->
  callsAnswered w' l.
Proof.
  intros Hl Hw pre name arguments id post Heq.
  destruct (Hl pre name arguments id post Heq) as [H | H]; [ now left | right; auto ].
Qed.

(** The frames after a write on an open stream, with the promises in
    [w'] pending afterwards. *)
Lemma answered_write (w w' : list (Task * bool)) (f : SseFrame) (st : State) :
  writableEnded (sseStream st) = false ->
  callsAnswered w (frames (sseStream st)) ->
  (forall name arguments id,
      f = EvCall name arguments id -> (mkTask name id (inl arguments), false) ∈ w') ->
  (forall t, (t, false) ∈ w ->
             (t, false) ∈ w' \/ f = EvInjectHistory (taskHistoryItem t)) ->
  writableEnded (sseStream (write f st)) = false
  /\ callsAnswered w' (frames (sseStream (write f st))).
Proof.
  intros Ho Hl Hcall Hw. destruct (frames_write_open f st Ho) as [Hf Ho'].
  split; [ exact Ho' | ]. rewrite Hf. now apply (callsAnswered_snoc w).
Qed.

Lemma answered_recordResult (w w' : list (Task * bool)) (t : Task) (st : State) :
  writableEnded (sseStream st) = false ->
  callsAnswered w (frames (sseStream st)) ->
  (forall t', (t', false) ∈ w -> (t', false) ∈ w' \/ t' = t) ->
  writableEnded (sseStream (recordResult t st)) = false
  /\ callsAnswered w' (frames (sseStream (recordResult t st))).
Proof.
  intros Ho Hl Hw. unfold recordResult.
  apply (answered_write w); [ exact Ho | exact Hl | discriminate | ].
  intros t' Ht'. destruct (Hw t' Ht') as [H | ->]; [ now left | now right ].
Qed.

Lemma answered_finishTask (w w' : list (Task * bool)) (t : Task) (st : State) :
  writableEnded (sseStream st) = false ->
  callsAnswered w (frames (sseStream st)) ->
  (forall t', (t', false) ∈ w -> (t', false) ∈ w' \/ t' = t) ->
  writableEnded (sseStream (finishTask t st)) = false
  /\ callsAnswered w' (frames (sseStream (finishTask t st))).
Proof.
  intros Ho Hl Hw. unfold finishTask.
  destruct (task_args t) as [a | e]; [ | now apply (answered_recordResult w) ].
  destruct (toolExec _ _); [ | now apply (answered_recordResult w) ].
  destruct (answered_write w w (EvReturn (task_name t) result (task_callId t)) st Ho Hl)
    as [Ho1 Hl1]; [ discriminate | auto | ].
  now apply (answered_recordResult w).
Qed.

Lemma markSettled_still_pending (i : nat) (w : list (Task * bool)) (t : Task) :
  (t, false) ∈ w ->
  (t, false) ∈ markSettled i w \/ nth_error w i = Some (t, false).
Proof.
  revert i. induction w as [|[t0 b0] w IH]; intros i H;
    [ now apply not_elem_of_nil in H | ].
  apply elem_of_cons in H as [H | H].
  - injection H as <- <-. destruct i; [ now right | left; cbn; left ].
  - destruct i as [|i]; cbn.
    + left. now right.
    + destruct (IH i H) as [H' | H']; [ left; now right | now right ].
Qed.

Lemma answering_settle (i : nat) (st : State) : answering st -> answering (settle i st).
Proof.
  intros [Ho Hl]. unfold settle.
  destruct (nth_error (waitList st) i) as [[t [|]]|] eqn:E; try (split; assumption).
  destruct (answered_finishTask (waitList st) (markSettled i (waitList st)) t st Ho Hl)
    as [Ho' Hl'].
  - intros t' Ht'. destruct (markSettled_still_pending i _ _ Ht') as [H | H];
      [ now left | right; congruence ].
  - split; [ exact Ho' | exact Hl' ].
Qed.

Lemma answering_settleAll (order : list nat) (st : State) :
  answering st -> answering (settleAll order st).
Proof.
  unfold settleAll. revert st. induction order as [|i order IH]; intros st H; cbn.
  - exact H.
  - apply IH, answering_settle, H.
Qed.

Lemma answering_write_other (f : SseFrame) (st : State) :
  isCall f = false -> answering st -> answering (write f st).
Proof.
  intros Hf [Ho Hl].
  apply (answered_write (waitList st) (waitList st)); auto.
  intros name arguments id ->. discriminate Hf.
Qed.

Lemma answering_same (st st' : State) :
  sseStream st' = sseStream st -> waitList st' = waitList st ->
  answering st -> answering st'.
Proof. unfold answering. intros -> ->. auto. Qed.

Lemma answering_onCall (params callId : JsVal) (st : State) :
  answering st -> answering (onCall params callId st).
Proof.
  intros [Ho Hl]. unfold onCall. destruct (negb _); [ split; assumption | ].
  destruct (parsedArguments params) as [a | e] eqn:E.
  - set (t := mkTask (js_get params "name") callId (inl a)).
    set (w' := waitList st ++ [(t, false)]).
    destruct (answered_write (waitList st) w'
                (EvCall (js_get params "name") a callId) st Ho Hl) as [Ho1 Hl1].
    { intros name arguments id Heq. injection Heq as <- <- <-.
      apply elem_of_app. right. left. }
    { intros t' Ht'. left. apply elem_of_app. now left. }
    destruct (answered_write w' w'
                (EvText ("Calling tool " +:+ js_toString (js_get params "name")
                           +:+ " with arguments: " +:+ JSON_stringify_pretty a))
                _ Ho1 Hl1) as [Ho2 Hl2]; [ discriminate | auto | ].
    split; [ exact Ho2 | exact Hl2 ].
  - set (t := mkTask (js_get params "name") callId (inr e)).
    destruct (answered_finishTask (waitList st) (waitList st ++ [(t, true)]) t st Ho Hl)
      as [Ho1 Hl1].
    { intros t' Ht'. left. apply elem_of_app. now left. }
    split; [ exact Ho1 | exact Hl1 ].
Qed.

Lemma answering_emitCalls (toolCalls : list JsVal) (st : State) :
  answering st -> answering (emitCalls toolCalls st).
Proof.
  revert st. induction toolCalls as [|c l IH]; intros st H; cbn; [ exact H | ].
  destruct (isNullish c); [ exact H | ]. apply IH, answering_onCall, H.
Qed.

Lemma answering_onFinal (softwareFC : bool) (v : JsVal) (st : State) :
  answering st -> answering (onFinal softwareFC v st).
Proof.
  intros H. unfold onFinal. destruct (negb (truthy v && isObjectLike v)); [ exact H | ].
  assert (answering (write (EvStructured v) st)) as Hw
      by (now apply answering_write_other).
  destruct (negb (strictEqualsString _ _)); [ exact Hw | ].
  destruct (js_get v "tools"); try exact Hw.
  destruct softwareFC; [ | exact Hw ].
  apply answering_emitCalls.
  eapply answering_same; [ | | exact Hw ]; reflexivity.
Qed.

Lemma answering_onStreamEvent (st : State) (ev : StreamEvent) :
  answering st -> answering (onStreamEvent st ev).
Proof.
  intros H. destruct ev; cbn [onStreamEvent].
  - unfold onData. destruct chunk;
      try (eapply answering_same; [ | | exact H ]; reflexivity).
    apply answering_write_other; [ reflexivity | ].
    eapply answering_same; [ | | exact H ]; reflexivity.
  - now apply answering_onCall.
  - unfold onN1. destruct (n1Seen st); [ exact H | ].
    apply answering_write_other; [ reflexivity | ].
    eapply answering_same; [ | | exact H ]; reflexivity.
  - unfold onN2. destruct (n2Seen st); [ exact H | ].
    apply answering_write_other; [ reflexivity | ].
    eapply answering_same; [ | | exact H ]; reflexivity.
  - unfold onSnapshot. destruct (negb _); [ exact H | ].
    now apply answering_write_other.
  - now apply answering_settle.
Qed.

Lemma answering_afterTimeline (script : StreamScript) (st : State) :
  answering st -> answering (afterTimeline script st).
Proof.
  unfold afterTimeline. revert st.
  induction (timeline script) as [|ev l IH]; intros st H; cbn; [ exact H | ].
  apply IH, answering_onStreamEvent, H.
Qed.

Lemma answering_turnEnd (softwareFC : bool) (script : StreamScript) (st : State) :
  answering st -> answering (turnEnd softwareFC script st).
Proof.
  intros H. unfold turnEnd. apply answering_settleAll.
  unfold afterHistory.
  assert (answering (atClose softwareFC script st)) as H5.
  { unfold atClose.
    assert (answering (settleAll (beforeClose script) (afterFinal softwareFC script st)))
      as H4.
    { apply answering_settleAll. unfold afterFinal.
      destruct (final script);
        [ apply answering_onFinal | ]; now apply answering_afterTimeline. }
    destruct (_ =? _)%nat; [ | exact H4 ].
    eapply answering_same; [ | | exact H4 ]; reflexivity. }
  destruct (keepLooping _).
  - apply answering_write_other; [ reflexivity | ].
    destruct softwareFC; [ exact H5 | ].
    eapply answering_same; [ | | exact H5 ]; reflexivity.
  - now apply answering_write_other.
Qed.

Lemma turnLoop_calls_answered (options : LLMOptions) :
  forall (fuel : nat) (st : State),
    answering st -> waitList st = [] ->
    forall st', turnLoop fuel options st = Returned st' ->
                callsAnswered [] (frames (sseStream st')).
Proof.
  intros fuel st H1 H2. pose proof (conj H1 H2) as H. clear H1 H2.
  revert fuel st H.
  apply (turnLoop_invariant options
           (fun st => answering st /\ waitList st = [])
           (fun o => forall st', o = Returned st' ->
                                 callsAnswered [] (frames (sseStream st')))).
  - intros st' H. discriminate H.
  - intros st [[_ HI] Hw] _ st' H. injection H as <-.
    rewrite frames_endStream. now rewrite Hw in HI.
  - intros st [[Ho HI] Hw] _ _.
    destruct (mdl_exec _ _) as [err | | script]; try (intros st' H; discriminate H).
    set (st0 := beginTurn (thisOptions options st) st).
    assert (answering st0) as H0 by (split; [ exact Ho | now rewrite Hw in HI ]).
    unfold runStream. destruct (finish script) as [ | name message | err | ];
      try (intros st' H; discriminate H).
    cbv zeta.
    pose proof (answering_turnEnd (softwareFunctionCalling st) script st0 H0) as [Ho1 Hl1].
    destruct (allSettled _) eqn:Hall; [ | intros st' H; discriminate H ].
    split; [ | reflexivity ]. split; [ exact Ho1 | ].
    cbn [waitList setWaitList sseStream].
    eapply callsAnswered_mono; [ exact Hl1 | ].
    intros t Ht. exfalso. unfold allSettled in Hall.
    rewrite forallb_forall in Hall. apply list_elem_of_In in Ht.
    specialize (Hall _ Ht). discriminate Hall.
Qed.

(** X22.  On a stream that [chatWithReader] returns every [call] frame
    is answered: it is followed by an [injectHistory] frame carrying the
    history item of that call, whose content is what the tool returned,
    or the string form of what it threw. *)
Theorem chatWithReader_calls_are_answered
        (options : LLMOptions) (turns : Q) (st : State)
        (pre post : list SseFrame) (name arguments id : JsVal) :
  chatWithReader options turns = Returned st ->
  frames (sseStream st) = pre ++ EvCall name arguments id :: post ->
  EvInjectHistory
    (historyItem name id
       match toolExec name arguments with
       | ToolReturns result => result
       | ToolThrows err => JStr (thrown_toString err)
       end) ∈ post.
Proof.
  intros H Hf. unfold chatWithReader in H.
  destruct (negb (streamingSupported mdl)); [ discriminate H | ].
  assert (callsAnswered [] (frames (sseStream st))) as Hans.
  { eapply turnLoop_calls_answered; [ | | exact H ]; [ | reflexivity ].
    split; [ reflexivity | ]. intros p n a i q Heq. cbn in Heq.
    destruct p; discriminate Heq. }
  destruct (Hans pre name arguments id post Hf) as [Hin | Hin];
    [ exact Hin | now apply not_elem_of_nil in Hin ].
Qed.


End WithEnvironment.

(** ** A concrete conversation *)

Local Abbreviation demo_chat tools turns :=
  (chatWithReader demo_model demo_mixin demo_question demo_exec tools
                  demo_parseJSON demo_stringify demo_stringify demo_options turns).

(** With two turns the envelope is dispatched in the first one and the
    result is fed to the second. *)
Example two_turns_trace :
  trace (demo_chat demo_tools 2)
  = [ "chunk"; "n1"; "snapshot"; "structured"; "call"; "text"; "injectHistory";
      "return"; "injectHistory"; "chunk"; "history" ].
Proof. vm_compute. reflexivity. Qed.

(** With one turn it is not. *)
Example one_turn_trace :
  trace (demo_chat demo_tools 1)
  = [ "chunk"; "n1"; "snapshot"; "structured"; "history" ].
Proof. vm_compute. reflexivity. Qed.

(** A failing tool: no [return] frame, the error text is injected, the
    loop goes on. *)
Example failing_tool_trace :
  trace (demo_chat failing_tools 2)
  = [ "chunk"; "n1"; "snapshot"; "structured"; "call"; "text"; "injectHistory";
      "injectHistory"; "chunk"; "history" ].
Proof. vm_compute. reflexivity. Qed.

Example failing_tool_is_fed_back :
  match outcomeState (demo_chat failing_tools 2) with
  | Some st =>
      List.map (fun o => List.map content (messages o)) (requests st)
  | None => []
  end
  = [ [ JStr "What does https://a.test say?" ];
      [ JStr "What does https://a.test say?";
        JStr (demo_stringify useToolsEnvelope);
        JStr "TimeoutError: Navigation timeout of 30000 ms exceeded" ] ].
Proof. vm_compute. reflexivity. Qed.



(** C5, counterexample.  [maxAdditionalTurns = 0.5] passes the
    validator, the loop runs one turn, and the turn writes one
    [structured] frame: more than 0.5. *)
Lemma half_a_turn_is_a_whole_turn :
  ~ turn_cap_as_stated
      demo_model demo_mixin demo_question demo_exec demo_tools demo_parseJSON
      demo_stringify demo_stringify.
Proof.
  intros H.
  assert (exists st, demo_chat demo_tools (1 # 2) = Returned st
                     /\ countFrames isStructured (sseStream st) = 1)
    as (st & Hrun & Hcount)
      by (eexists; split; vm_compute; reflexivity).
  specialize (H demo_options (1 # 2)%Q (Returned st) st).
  rewrite Hcount in H. apply Qle_bool_iff in H.
  - vm_compute in H. discriminate H.
  - unfold chatWithReader_rpc. cbn [validate_maxAdditionalTurns].
    change (Qle_bool 0 (1 # 2) && Qle_bool (1 # 2) 50) with true.
    cbv iota. now rewrite Hrun.
  - reflexivity.
Qed.

Lemma chatWithReader_turn_cap_witness :
  (exists st,
      outcomeState (demo_chat demo_tools (1 # 2)) = Some st
      /\ countFrames isStructured (sseStream st) <= 1
      /\ Z.of_nat (length (requests st)) <= 1)
  /\ (exists st,
        outcomeState (demo_chat demo_tools 5) = Some st
        /\ countFrames isStructured (sseStream st) <= 5
        /\ Z.of_nat (length (requests st)) <= 5)
  /\ exists r,
       turnLoop demo_model demo_mixin demo_question demo_exec demo_tools demo_parseJSON
                demo_stringify demo_stringify 1 demo_options (initialState 0)
       = Returned r.
Proof.
  destruct (chatWithReader_turn_cap
              demo_model demo_mixin demo_question demo_exec demo_tools demo_parseJSON
              demo_stringify demo_stringify)
    as (Hcap & _ & Hzero).
  split; [ | split ].
  - pose proof (Hcap demo_options (Some (Finite (1 # 2)))) as H.
    change (chatWithReader_rpc demo_model demo_mixin demo_question demo_exec demo_tools
              demo_parseJSON demo_stringify demo_stringify demo_options
              (Some (Finite (1 # 2))))
      with (Some (demo_chat demo_tools (1 # 2))) in H.
    destruct H as (turns & [Heq | [Heq _]] & _ & _ & st & H1 & H2 & H3 & _);
      [ | discriminate Heq ].
    injection Heq as <-. exists st. auto.
  - pose proof (Hcap demo_options None) as H.
    change (chatWithReader_rpc demo_model demo_mixin demo_question demo_exec demo_tools
              demo_parseJSON demo_stringify demo_stringify demo_options None)
      with (Some (demo_chat demo_tools 5)) in H.
    destruct H as (turns & [Heq | [_ ->]] & _ & _ & st & H1 & H2 & H3 & _);
      [ discriminate Heq | ].
    exists st. auto.
  - destruct (Hzero 0%nat demo_options (initialState 0)) as (r & Hr & _).
    + cbn [callRoundsLeft initialState]. apply Qle_refl.
    + exists r. exact Hr.
Defined.

(** C6, counterexample.  One turn is allowed, the model calls [browse]
    and the tool throws: the run returns after its only request, so that
    the string of the error, though recorded, is never sent to the
    model. *)
Lemma last_turn_failure_is_not_fed_back :
  ~ tool_failures_fed_back_as_stated
      native_model demo_mixin demo_question native_exec failing_tools demo_parseJSON
      demo_stringify demo_stringify.
Proof.
  intros H.
  assert (exists st r0,
             chatWithReader native_model demo_mixin demo_question native_exec
                            failing_tools demo_parseJSON demo_stringify demo_stringify
                            demo_options 1 = Returned st
             /\ requests st !! 0%nat = Some r0
             /\ requests st !! 1%nat = None)
    as (st & r0 & Hrun & H0 & H1)
      by (eexists; eexists; split; [ | split ]; vm_compute; reflexivity).
  destruct (H demo_options 1%Q st 0%nat r0
              (mkTask (JStr "browse") (JStr "call_1")
                      (inl (JObj [("url", JStr "https://a.test")])))
              (JObj [("url", JStr "https://a.test")])
              (ErrorObject "TimeoutError" "Navigation timeout of 30000 ms exceeded")
              Hrun H0) as (rnext & Hn & _).
  - exists nativeCallStream. split; [ reflexivity | ].
    exact (dispatches_native demo_parseJSON _ nativeCallStream [] []
             browseCall (JStr "call_1") eq_refl eq_refl).
  - reflexivity.
  - reflexivity.
  - rewrite H1 in Hn. discriminate Hn.
Qed.

Lemma tool_failures_are_fed_back_witness :
  exists st r1,
    outcomeState (demo_chat failing_tools 2) = Some st
    /\ requests st !! 1%nat = Some r1
    /\ mkMessage "tool" (JStr "TimeoutError: Navigation timeout of 30000 ms exceeded")
                 JUndefined (JStr "T1") ∈ messages r1.
Proof.
  destruct (tool_failures_are_fed_back
              demo_model demo_mixin demo_question demo_exec failing_tools demo_parseJSON
              demo_stringify demo_stringify)
    as (_ & _ & Hnext & _).
  assert (exists st r0 r1,
             outcomeState (demo_chat failing_tools 2) = Some st
             /\ requests st !! 0%nat = Some r0
             /\ requests st !! 1%nat = Some r1)
    as (st & r0 & r1 & Hrun & H0 & H1)
      by (do 3 eexists; split; [ | split ]; vm_compute; reflexivity).
  exists st, r1. split; [ exact Hrun | ]. split; [ exact H1 | ].
  apply (Hnext demo_options 2%Q st 0%nat r0 r1
               (mkTask (JStr "browse") (JStr "T1")
                       (inl (JObj [("url", JStr "https://a.test")])))
               Hrun H0 H1).
  exists envelopeStream. split; [ reflexivity | ].
  apply (dispatches_envelope demo_parseJSON true envelopeStream useToolsEnvelope
           [] []
           (JObj [ ("name", JStr "browse");
                   ("arguments", JObj [("url", JStr "https://a.test")]);
                   ("id", JStr "T1") ]));
    try reflexivity.
  constructor.
Defined.

Lemma chatWithReader_zero_turns_witness :
  exists st,
    demo_chat demo_tools 0 = Returned st
    /\ frames (sseStream st) = []
    /\ writableEnded (sseStream st) = true.
Proof.
  destruct (chatWithReader_zero_turns
              demo_model demo_mixin demo_question demo_exec demo_tools demo_parseJSON
              demo_stringify demo_stringify demo_options eq_refl)
    as (st & H1 & H2 & H3 & _).
  exists st. auto.
Defined.

Lemma chatWithReader_conversation_only_grows_witness :
  exists st,
    outcomeState (demo_chat demo_tools 2) = Some st
    /\ (forall r, requests st !! 0%nat = Some r -> messages r = demo_question)
    /\ (forall i j ri rj,
           (i <= j)%nat -> requests st !! i = Some ri -> requests st !! j = Some rj ->
           messages ri `prefix_of` messages rj)
    /\ (forall r, r ∈ requests st ->
                  messages r `prefix_of` demo_question ++ tailMessages st).
Proof.
  destruct (outcomeState (demo_chat demo_tools 2)) as [st|] eqn:E.
  - exists st. split; [ reflexivity | ].
    exact (chatWithReader_conversation_only_grows
             demo_model demo_mixin demo_question demo_exec demo_tools
             demo_parseJSON demo_stringify demo_stringify demo_options 2 st E).
  - vm_compute in E. discriminate E.
Defined.

Lemma chatWithReader_tools_offered_witness :
  exists st r,
    outcomeState (demo_chat demo_tools 2) = Some st
    /\ requests st !! 1%nat = Some r
    /\ functions r = functions demo_options.
Proof.
  destruct (outcomeState (demo_chat demo_tools 2)) as [st|] eqn:E;
    [ | vm_compute in E; discriminate E ].
  destruct (requests st !! 1%nat) as [r|] eqn:Er.
  - exists st, r. split; [ reflexivity | ]. split; [ exact Er | ].
    destruct (chatWithReader_tools_offered
                demo_model demo_mixin demo_question demo_exec demo_tools
                demo_parseJSON demo_stringify demo_stringify demo_options 2 st 1 r E Er)
      as (Hf & _).
    exact Hf.
  - exfalso. vm_compute in E. injection E as <-. vm_compute in Er. discriminate Er.
Defined.

Lemma chatWithReader_returns_follow_calls_witness :
  exists st,
    outcomeState (demo_chat demo_tools 2) = Some st
    /\ returnsFollowCalls (frames (sseStream st)).
Proof.
  destruct (outcomeState (demo_chat demo_tools 2)) as [st|] eqn:E.
  - exists st. split; [ reflexivity | ].
    exact (chatWithReader_returns_follow_calls
             demo_model demo_mixin demo_question demo_exec demo_tools
             demo_parseJSON demo_stringify demo_stringify demo_options 2 st E).
  - vm_compute in E. discriminate E.
Defined.

Lemma chatWithReader_calls_are_answered_witness :
  exists st pre post name arguments id,
    demo_chat demo_tools 2 = Returned st
    /\ frames (sseStream st) = pre ++ EvCall name arguments id :: post
    /\ EvInjectHistory
         (historyItem name id
            match demo_tools name arguments with
            | ToolReturns result => result
            | ToolThrows err => JStr (thrown_toString err)
            end) ∈ post.
Proof.
  destruct (demo_chat demo_tools 2) as [st | | |] eqn:E;
    try (vm_compute in E; discriminate E).
  assert (exists pre post name arguments id,
             frames (sseStream st) = pre ++ EvCall name arguments id :: post)
    as (pre & post & name & arguments & id & Hf).
  { vm_compute in E. injection E as <-.
    eexists [_; _; _; _], _, _, _, _. cbn. reflexivity. }
  exists st, pre, post, name, arguments, id.
  split; [ reflexivity | ]. split; [ exact Hf | ].
  exact (chatWithReader_calls_are_answered
           demo_model demo_mixin demo_question demo_exec demo_tools
           demo_parseJSON demo_stringify demo_stringify demo_options 2
           st pre post name arguments id E Hf).
Defined.

End Chat.

(* ===================================================================== *)
(** * 9. The tool registry ([getPromptMixin]) *)
(* ===================================================================== *)

Module Tools.

Definition dq : string := String (Ascii.ascii_of_nat 34) "".
Definition nl : string := String (Ascii.ascii_of_nat 10) "".

(** A JSON string literal of a text without special characters. *)
Definition q (s : string) : string := dq +:+ s +:+ dq.

(** [callOptions.function_call] *)
Inductive FunctionCall : Type :=
| FcUndefined
| FcString (s : string)
| FcObject (name : string).

(** [(callOptions.function_call as any)?.name], when it is truthy. *)
Definition enforcedName (fc : FunctionCall) : option string :=
  match fc with
  | FcObject name => if String.eqb name "" then None else Some name
  | _ => None
  end.

(** [callOptions.function_call === 'none'] *)
Definition isNone (fc : FunctionCall) : bool :=
  match fc with
  | FcString s => String.eqb s "none"
  | _ => false
  end.

(** [JSON.stringify] of the example in the prompt. *)
Definition exampleEnvelope : string :=
  "{" +:+ q "intention" +:+ ":" +:+ q "USE_TOOLS" +:+ ","
    +:+ q "thoughts" +:+ ":" +:+ q "I need to demonstrate the use of tools" +:+ ","
    +:+ q "tools" +:+ ":[{"
    +:+ q "name" +:+ ":" +:+ q "exampleTool1" +:+ ","
    +:+ q "arguments" +:+ ":{"
    +:+ q "exampleArgName1" +:+ ":" +:+ q "exampleValue1" +:+ ","
    +:+ q "exampleArgName2" +:+ ":" +:+ q "ExampleValue2" +:+ "},"
    +:+ q "id" +:+ ":" +:+ q "TOOL_1_CALL_1" +:+ "},{"
    +:+ q "name" +:+ ":" +:+ q "exampleTool2" +:+ ","
    +:+ q "arguments" +:+ ":{"
    +:+ q "argumentName" +:+ ":" +:+ q "value format is defined by each tool description"
    +:+ "},"
    +:+ q "id" +:+ ":" +:+ q "TOOL_2_CALL_1" +:+ "}]}".

(** The last line of the prompt. *)
Definition closingLine (enforce : option string) : string :=
  match enforce with
  | Some name =>
      if String.eqb name "" then
        "It would also be perfectly fine if you choose to not invoke any tool. In that case you should directly respond normal content to the user."
      else
        "At this time, you MUST invoke the tool named " +:+ q name
          +:+ ". This is forcefully required by the system."
  | None =>
      "It would also be perfectly fine if you choose to not invoke any tool. In that case you should directly respond normal content to the user."
  end.

(** The two methods registered by the [@oFn.Method] decorators, with
    their descriptions; the schema objects are left out. *)
Definition readerTools : list (string * string) :=
  [ ("browse", "Browse and return the content of a specific url.");
    ("searchTheWeb", "Search the web using a search engine.") ].

Section WithRegistry.

(** An entry of [this.conf] and the schema object
    [this.openAPIManager.createRPCParametersSchemaObject] makes of it. *)
Variable Conf : Type.
Variable Schema : Type.
Variable conf_desc : Conf -> option string.
Variable createRPCParametersSchemaObject : Conf -> Schema.

(** [this.conf], in the order of registration. *)
Variable conf : list (string * Conf).

Record Descriptor : Type := mkDescriptor {
  d_name : string;
  d_description : option string;
  d_parameters : Schema
}.

(** [JSON.stringify(descriptors)] *)
Variable JSON_stringify : list Descriptor -> string.

Record PromptMixin : Type := mkMixin {
  system : option string;
  functions : option (list Descriptor)
}.

(** [{}] *)
Definition emptyMixin : PromptMixin := mkMixin None None.

Definition getFunctionsCallingDescriptors (whitelist : option (list string))
  : list Descriptor :=
  let final :=
    List.map (fun kv => mkDescriptor (fst kv) (conf_desc (snd kv))
                                     (createRPCParametersSchemaObject (snd kv)))
             conf in
  match whitelist with
  | None => final
  | Some whitelist => List.filter (fun x => bool_decide (d_name x ∈ whitelist)) final
  end.

Definition systemPrompt (descriptors : list Descriptor) (enforce : option string)
  : string :=
  "Being a smart assistant, there are several tools made available to you (described in JSON list below):"
    +:+ nl +:+ JSON_stringify descriptors +:+ nl
    +:+ nl
    +:+ "Rules:" +:+ nl
    +:+ "To invoke one or more tools, you need to respond (and only respond) with a clean JSON object with the following structure:"
    +:+ nl +:+ exampleEnvelope +:+ nl
    +:+ "This means your response must start with '{' and end with '}'." +:+ nl
    +:+ "You MUST first declare your intention to be exactly USE_TOOLS, then describe your thoughts, and finally list the tool(s) you want to use."
    +:+ nl
    +:+ "Provide the name of the tool and the arguments you would like to pass." +:+ nl
    +:+ "The arguments must be a JSON object with its internal structure as defined by the description of each tool (JSON Schema)."
    +:+ nl
    +:+ "Always give an id for each tool call, this is to distinguish between multiple calls when the system responds."
    +:+ nl
    +:+ "Only then the system will pick up this special format and respond to you in the following message(s), after witch you can continue with responding normal content to the user."
    +:+ nl
    +:+ "You should always respond to the user in normal format after invoking the tool(s)."
    +:+ nl
    +:+ nl
    +:+ closingLine enforce.

Definition getPromptMixin (function_call : FunctionCall)
           (whitelist : option (list string)) : PromptMixin :=
  match whitelist with
  | None => emptyMixin
  | Some _ =>
      if isNone function_call then emptyMixin
      else
        let descriptors := getFunctionsCallingDescriptors whitelist in
        match enforcedName function_call with
        | Some name =>
            match List.find (fun x => String.eqb (d_name x) name) descriptors with
            | None => emptyMixin
            | Some descriptor =>
                mkMixin (Some (systemPrompt [descriptor] (Some (d_name descriptor))))
                        (Some [descriptor])
            end
        | None =>
            mkMixin (Some (systemPrompt descriptors None)) (Some descriptors)
        end
  end.

(** The names under which a function is registered. *)
Definition registered (name : string) : Prop := name ∈ List.map fst conf.

Lemma descriptor_registered (whitelist : option (list string)) (d : Descriptor) :
  d ∈ getFunctionsCallingDescriptors whitelist ->
  registered (d_name d)
  /\ (exists v, (d_name d, v) ∈ conf
                /\ d = mkDescriptor (d_name d) (conf_desc v)
                                    (createRPCParametersSchemaObject v))
  /\ forall w, whitelist = Some w -> d_name d ∈ w.
Proof.
  unfold getFunctionsCallingDescriptors, registered. intros H.
  assert (d ∈ List.map (fun kv => mkDescriptor (fst kv) (conf_desc (snd kv))
                                   (createRPCParametersSchemaObject (snd kv))) conf
          /\ forall w, whitelist = Some w -> d_name d ∈ w) as [Hin Hw].
  { destruct whitelist as [w|].
    - apply list_elem_of_In, filter_In in H as [H1 H2].
      split; [ now apply list_elem_of_In | ].
      intros w' Hw'. injection Hw' as <-. now apply bool_decide_eq_true in H2.
    - split; [ exact H | discriminate ]. }
  apply list_elem_of_In, in_map_iff in Hin as ([k v] & <- & Hkv). cbn.
  split; [ | split; [ | exact Hw ] ].
  - apply list_elem_of_In, in_map_iff. exists (k, v). auto.
  - exists v. split; [ now apply list_elem_of_In | reflexivity ].
Qed.

Lemma string_append_assoc (a b c : string) : (a +:+ b) +:+ c = a +:+ (b +:+ c).
Proof.
  induction a as [|x a IH]; [ reflexivity | ].
  change (String x ((a +:+ b) +:+ c) = String x (a +:+ (b +:+ c))).
  now rewrite IH.
Qed.

Lemma sublist_of_filter {A} (f : A -> bool) (l : list A) :
  sublist (List.filter f l) l.
Proof.
  induction l as [|x l IH]; cbn; [ constructor | ].
  destruct (f x); now constructor.
Qed.

Lemma sublist_of_element {A} (x : A) (l : list A) : x ∈ l -> sublist [x] l.
Proof.
  induction l as [|y l IH]; intros H; [ now apply not_elem_of_nil in H | ].
  apply elem_of_cons in H as [-> | H].
  - constructor. apply sublist_nil_l.
  - constructor. now apply IH.
Qed.

Lemma whitelisted_descriptors (w : list string) :
  sublist (getFunctionsCallingDescriptors (Some w)) (getFunctionsCallingDescriptors None).
Proof. apply sublist_of_filter. Qed.

Lemma descriptor_of_registered (w : list string) (name : string) :
  registered name -> name ∈ w ->
  exists d, d ∈ getFunctionsCallingDescriptors (Some w) /\ d_name d = name.
Proof.
  unfold registered, getFunctionsCallingDescriptors. intros Hr Hw.
  apply list_elem_of_In, in_map_iff in Hr as ([k v] & Hk & Hkv). cbn in Hk. subst k.
  exists (mkDescriptor name (conf_desc v) (createRPCParametersSchemaObject v)).
  split; [ | reflexivity ].
  apply list_elem_of_In, filter_In. split.
  - apply in_map_iff. exists (name, v). auto.
  - cbn. now apply bool_decide_eq_true.
Qed.

Lemma systemPrompt_closing (descriptors : list Descriptor) (enforce : option string) :
  exists pre, systemPrompt descriptors enforce = pre +:+ closingLine enforce.
Proof.
  unfold systemPrompt. generalize (closingLine enforce) as closing. intros closing.
  eexists. rewrite <- !string_append_assoc. reflexivity.
Qed.

(** X23.  [getPromptMixin] returns the empty object when it is given
    no whitelist or [function_call] is ['none'].  Otherwise the functions
    it offers are descriptors of registered functions whose name is on
    the whitelist, in the order of registration.  When [function_call]
    names a function, the result is empty if that function is not
    registered or not on the whitelist; if it is, it is the only
    function offered and the prompt ends with the order to invoke
    it. *)
Theorem getPromptMixin_offers_whitelisted
        (function_call : FunctionCall) (whitelist : option (list string)) :
  (whitelist = None \/ function_call = FcString "none" ->
   getPromptMixin function_call whitelist = emptyMixin)
  /\ (forall ds, functions (getPromptMixin function_call whitelist) = Some ds ->
        sublist ds (getFunctionsCallingDescriptors None)
        /\ forall d, d ∈ ds ->
             registered (d_name d)
             /\ exists w, whitelist = Some w /\ d_name d ∈ w)
  /\ (forall name w,
        function_call = FcObject name -> name <> "" -> whitelist = Some w ->
        (~ (registered name /\ name ∈ w) ->
         getPromptMixin function_call whitelist = emptyMixin)
        /\ (registered name /\ name ∈ w ->
            exists d pre,
              d_name d = name
              /\ functions (getPromptMixin function_call whitelist) = Some [d]
              /\ system (getPromptMixin function_call whitelist)
                 = Some (pre +:+ "At this time, you MUST invoke the tool named "
                             +:+ q name
                             +:+ ". This is forcefully required by the system."))).
Proof.
  split; [ | split ].
  - intros [-> | ->]; [ reflexivity | ].
    unfold getPromptMixin. destruct whitelist; reflexivity.
  - intros ds Hds. unfold getPromptMixin in Hds.
    destruct whitelist as [w|]; [ | discriminate Hds ].
    destruct (isNone function_call); [ discriminate Hds | ]. cbv zeta in Hds.
    assert (sublist ds (getFunctionsCallingDescriptors (Some w))) as Hsub.
    { destruct (enforcedName function_call) as [name|].
      - destruct (List.find _ _) as [d|] eqn:Ef; [ | discriminate Hds ].
        injection Hds as <-. apply find_some in Ef as [Hin _].
        apply sublist_of_element. now apply list_elem_of_In.
      - injection Hds as <-. reflexivity. }
    split; [ etransitivity; [ exact Hsub | apply whitelisted_descriptors ] | ].
    intros d Hd. apply (elem_of_sublist _ _ _ Hd) in Hsub. rename Hsub into Hin.
    destruct (descriptor_registered _ _ Hin) as (Hr & _ & Hw).
    split; [ exact Hr | ]. exists w. split; [ reflexivity | now apply Hw ].
  - intros name w -> Hname ->. unfold getPromptMixin. cbn [isNone enforcedName].
    apply String.eqb_neq in Hname. rewrite Hname. cbv zeta.
    destruct (List.find _ _) as [d|] eqn:Ef.
    + apply find_some in Ef as [Hin Hd]. apply String.eqb_eq in Hd.
      apply list_elem_of_In in Hin.
      destruct (descriptor_registered _ _ Hin) as (Hr & _ & Hw).
      specialize (Hw w eq_refl). rewrite Hd in Hr, Hw. split.
      * intros Hno. exfalso. apply Hno. auto.
      * intros _. destruct (systemPrompt_closing [d] (Some (d_name d))) as [pre Hpre].
        exists d, pre. split; [ exact Hd | ]. split; [ reflexivity | ].
        cbn [system]. rewrite Hpre. unfold closingLine. rewrite Hd, Hname. reflexivity.
    + split; [ reflexivity | ]. intros [Hr Hw]. exfalso.
      destruct (descriptor_of_registered w name Hr Hw) as (d & Hin & Hd).
      apply list_elem_of_In in Hin.
      pose proof (find_none _ _ Ef d Hin) as Hf. cbn in Hf.
      rewrite Hd, String.eqb_refl in Hf. discriminate Hf.
Qed.


End WithRegistry.

(** ** The registry of [ReaderAsLLMTools] *)

Local Abbreviation readerMixin :=
  (getPromptMixin string unit Some (fun _ => tt) readerTools (fun _ => "[]")).

Example enforced_browse :
  @functions unit (readerMixin (FcObject "browse") (Some ["searchTheWeb"; "browse"]))
  = Some [ @mkDescriptor unit "browse"
             (Some "Browse and return the content of a specific url.") tt ].
Proof. reflexivity. Qed.

Example enforced_but_not_whitelisted :
  readerMixin (FcObject "browse") (Some ["searchTheWeb"]) = @emptyMixin unit.
Proof. reflexivity. Qed.

Example no_whitelist_no_tools :
  readerMixin FcUndefined None = @emptyMixin unit.
Proof. reflexivity. Qed.

End Tools.
